(** * The task-orchestration engine of General_Repo/async_operations.py

    A shallow embedding of [AsyncOperations] and the properties of its
    execution policies.

    A unit of work is an opaque callable: it acts on a [World] the
    orchestrator never inspects and either returns a value or raises.
    Every coroutine of the class becomes a function in a state-and-error
    monad over a [state] made of that world, the history of observable
    events (unit invocations, sleeps, log entries, semaphore operations)
    and a tape of scheduling decisions that fixes, for [asyncio.gather],
    which of the in-flight units finishes next.  A property that holds
    for every tape holds for every completion order. *)

From Stdlib Require Import ZArith QArith.
From stdpp Require Import gmap strings list fin_maps sorting.

Close Scope Q_scope.

(** ** Python values, exceptions and outcomes *)

Inductive value : Type :=
  | VNone
  | VBool (b : bool)
  | VInt (n : Z)
  | VStr (s : string).

(** The exceptions ([Exception] subclasses) the module raises or
    handles by class, and [UnitError] for any other error of a unit. *)
Inductive exn : Type :=
  | TimeoutError
  | ValueError (msg : string)
  | KeyError (key : string)
  | UnitError (msg : string).

Inductive outcome (A : Type) : Type :=
  | Return (a : A)
  | Raise (e : exn).
Arguments Return {A} a.
Arguments Raise {A} e.

Definition is_return {A} (r : outcome A) : bool :=
  match r with Return _ => true | Raise _ => false end.

(** ** Observable events *)

Inductive level : Type := INFO | WARNING | ERROR.

(** The log entries of the module, one constructor per format string. *)
Inductive log_msg : Type :=
  | MsgRunningParallel (n : nat)
  | MsgParallelCompleted
  | MsgErrorInTask (name : string) (e : exn)
  | MsgTimedOut (name : string) (timeout : Q)
  | MsgFailedAfter (name : string) (max_retries : Z) (e : exn)
  | MsgRetrying (name : string) (attempt : Z) (max_retries : Z) (retry_delay : Q)
  | MsgRateLimitReached (time_period : Q).

Inductive event : Type :=
  | EvCall (name : string) (res : outcome value)
  | EvAbandon (name : string)
  | EvSleep (d : Q)
  | EvLog (lvl : level) (msg : log_msg)
  | EvAcquire (i : nat)
  | EvRelease (i : nat).

Definition is_call (e : event) : bool :=
  match e with EvCall _ _ => true | _ => false end.

Definition is_sleep (e : event) : bool :=
  match e with EvSleep _ => true | _ => false end.

(** The units invoked, in order, with what each produced. *)
Definition calls (tr : list event) : list (string * outcome value) :=
  omap (λ e, match e with EvCall n r => Some (n, r) | _ => None end) tr.

(** The pauses taken, in order. *)
Definition sleeps (tr : list event) : list Q :=
  omap (λ e, match e with EvSleep d => Some d | _ => None end) tr.

(** The coroutines that entered the [async with] block, in order. *)
Definition acquires (tr : list event) : list nat :=
  omap (λ e, match e with EvAcquire i => Some i | _ => None end) tr.

(** The coroutines that left it, in order. *)
Definition releases (tr : list event) : list nat :=
  omap (λ e, match e with EvRelease i => Some i | _ => None end) tr.

(** How many units are inside the block once the events [tr] have
    happened. *)
Definition in_flight (tr : list event) : Z :=
  Z.of_nat (length (acquires tr)) - Z.of_nat (length (releases tr)).

(** At no moment of the history are more than [k] units inside. *)
Definition in_flight_bounded (k : Z) (tr : list event) : Prop :=
  ∀ before after, tr = before ++ after → (0 ≤ in_flight before ≤ k)%Z.

(** ** Dependency maps *)

(** [x] lists [y] among its prerequisites:
    [y in dependencies.get(x, [])]. *)
Definition depends_on (dependencies : gmap string (list string))
    (x y : string) : Prop :=
  y ∈ default [] (dependencies !! x).

(** [x] needs itself, directly or through other tasks. *)
Definition on_cycle (dependencies : gmap string (list string)) (x : string) : Prop :=
  tc (depends_on dependencies) x x.

Definition acyclic (dependencies : gmap string (list string)) : Prop :=
  ∀ x, ¬ on_cycle dependencies x.

(** Depth-first resolution without a cycle in the way, in the words of
    the design: a task that is done adds nothing; otherwise the
    prerequisites are resolved one after the other in listed order,
    then the task itself.  [visit done d order] gives the tasks that
    resolving [d] runs, in order, when [done] are resolved already. *)
Inductive visit (dependencies : gmap string (list string))
    : gset string → string → list string → Prop :=
  | visit_done done d :
      d ∈ done → visit dependencies done d []
  | visit_fresh done d blocks :
      d ∉ done →
      visits dependencies done (default [] (dependencies !! d)) blocks →
      visit dependencies done d (concat blocks ++ [d])
with visits (dependencies : gmap string (list string))
    : gset string → list string → list (list string) → Prop :=
  | visits_nil done :
      visits dependencies done [] []
  | visits_cons done d ds block blocks :
      visit dependencies done d block →
      visits dependencies (done ∪ list_to_set block) ds blocks →
      visits dependencies done (d :: ds) (block :: blocks).

(** In [order] every task comes after its prerequisites, those in
    [done] apart. *)
Definition prerequisites_first (dependencies : gmap string (list string))
    (done : gset string) (order : list string) : Prop :=
  ∀ before x after d,
    order = before ++ x :: after →
    depends_on dependencies x d →
    d ∈ done ∨ d ∈ before.

(** ** asyncio.Semaphore *)

(** [asyncio.Semaphore]: the counter and the queue of waiters, each
    waiter standing for the coroutine it will wake. *)
Record semaphore (W : Type) : Type := Semaphore {
  sem_value : nat;
  sem_waiters : list W
}.
Arguments Semaphore {W} _ _.
Arguments sem_value {W} _.
Arguments sem_waiters {W} _.

Definition locked {W} (s : semaphore W) : bool :=
  (sem_value s =? 0) || negb (bool_decide (sem_waiters s = [])).

(** [acquire]: enter at once when the semaphore is not locked, else
    join the queue.  The boolean tells whether the caller entered. *)
Definition acquire {W} (w : W) (s : semaphore W) : semaphore W * bool :=
  if locked s
  then (Semaphore (sem_value s) (sem_waiters s ++ [w]), false)
  else (Semaphore (sem_value s - 1) (sem_waiters s), true).

(** [release]: the counter goes up and, when a coroutine waits, down
    again for the first waiter, which is woken and leaves the queue. *)
Definition release {W} (s : semaphore W) : semaphore W * option W :=
  match sem_waiters s with
  | [] => (Semaphore (sem_value s + 1) [], None)
  | w :: q => (Semaphore (sem_value s + 1 - 1) q, Some w)
  end.

Section Orchestrator.

Context {World Args : Type}.

(** ** Units of work and the orchestrator's state *)

(** A callable with its [__name__]; [call] is what running it in a
    worker thread does, [duration] how long that takes. *)
Record task : Type := Task {
  task_name : string;
  call : Args → World → outcome value * World;
  duration : Args → World → Q
}.

Record state : Type := State {
  world : World;
  trace : list event;
  choices : list nat
}.

Definition emit (e : event) (st : state) : state :=
  State (world st) (trace st ++ [e]) (choices st).

Definition set_world (w : World) (st : state) : state :=
  State w (trace st) (choices st).

Definition M (A : Type) : Type := state → outcome A * state.

Definition ret {A} (a : A) : M A := λ st, (Return a, st).

Definition raise {A} (e : exn) : M A := λ st, (Raise e, st).

Definition bind {A B} (k : A → M B) (m : M A) : M B :=
  λ st, match m st with
        | (Return a, st') => k a st'
        | (Raise e, st') => (Raise e, st')
        end.

#[export] Instance M_ret : MRet M := @ret.
#[export] Instance M_bind : MBind M := @bind.

(** [self.logger.info], [.warning], [.error] *)
Definition log (lvl : level) (msg : log_msg) : M unit :=
  λ st, (Return (), emit (EvLog lvl msg) st).

(** [await asyncio.sleep(d)] *)
Definition sleep (d : Q) : M unit :=
  λ st, (Return (), emit (EvSleep d) st).

(** The next scheduling decision, a position below [bound]. *)
Definition next_choice (bound : nat) (st : state) : nat * state :=
  match choices st with
  | [] => (0, st)
  | c :: cs => (c mod bound, State (world st) (trace st) cs)
  end.

Definition choose (bound : nat) : M nat :=
  λ st, let '(k, st') := next_choice bound st in (Return k, st').

(** ** run_task *)

(** [asyncio.to_thread(task, *args)] run to completion. *)
Definition to_thread (t : task) (args : Args) : M value :=
  λ st, let '(r, w) := call t args (world st) in
        (r, emit (EvCall (task_name t) r) (set_world w st)).

Definition run_task (t : task) (args : Args) : M value :=
  λ st, match to_thread t args st with
        | (Return result, st') => (Return result, st')
        | (Raise e, st') =>
            (Raise e, emit (EvLog ERROR (MsgErrorInTask (task_name t) e)) st')
        end.

(** ** run_with_timeout *)

(** [asyncio.wait_for] lets the awaited coroutine finish when the
    deadline is positive and the unit is done by then; otherwise it
    stops waiting and raises [TimeoutError]. *)
Definition within (d timeout : Q) : bool :=
  Qle_bool d timeout && negb (Qle_bool timeout 0).

(** The wait is given up: the coroutine is cancelled (no log entry of
    [run_task]) and what the unit produces is dropped.  With a deadline
    that is not positive [wait_for] cancels the coroutine before its
    first step, so that the unit is never invoked; otherwise the worker
    thread goes on, and its effect on the world is taken here. *)
Definition abandon (t : task) (timeout : Q) (args : Args) : M unit :=
  λ st, (Return (),
         emit (EvAbandon (task_name t))
              (if Qle_bool timeout 0 then st
               else set_world (snd (call t args (world st))) st)).

Definition wait_for (t : task) (timeout : Q) (args : Args) : M value :=
  λ st, if within (duration t args (world st)) timeout
        then run_task t args st
        else (abandon t timeout args ;; raise TimeoutError) st.

Definition run_with_timeout (t : task) (timeout : Q) (args : Args) : M value :=
  λ st, match wait_for t timeout args st with
        | (Raise TimeoutError, st') =>
            (Return VNone,
             emit (EvLog WARNING (MsgTimedOut (task_name t) timeout)) st')
        | r => r
        end.

(** ** run_with_retry *)

(** The iterations [attempt, attempt + 1, ...] of
    [for attempt in range(max_retries)], [n] of them left.  Falling out
    of the loop ends the function without a [return]. *)
Fixpoint retry_loop (t : task) (max_retries : Z) (retry_delay : Q) (args : Args)
    (n : nat) (attempt : Z) : M value :=
  match n with
  | O => ret VNone
  | S n' =>
      λ st, match run_task t args st with
            | (Return v, st') => (Return v, st')
            | (Raise e, st') =>
                if (attempt =? max_retries - 1)%Z
                then (Raise e,
                      emit (EvLog ERROR (MsgFailedAfter (task_name t) max_retries e)) st')
                else (log WARNING (MsgRetrying (task_name t) (attempt + 1)
                                     max_retries retry_delay) ;;
                      sleep retry_delay ;;
                      retry_loop t max_retries retry_delay args n' (attempt + 1)%Z) st'
            end
  end.

Definition run_with_retry (t : task) (max_retries : Z) (retry_delay : Q)
    (args : Args) : M value :=
  retry_loop t max_retries retry_delay args (Z.to_nat max_retries) 0%Z.

(** ** run_in_parallel *)

(** What happens next while a coroutine awaits [asyncio.gather].  The
    unit of a child runs in a worker thread and is done at a moment of
    its own; the event loop takes one step of one coroutine at a time:
    a child takes its first step, a child whose unit is done is
    resumed, a coroutine woken by a semaphore is resumed, or the
    coroutine that awaits the [gather] is. *)
Inductive turn : Type :=
  | Starts
  | Completes (k : nat)
  | Resumes (k : nat)
  | Enters
  | Returns.

(** The turn a scheduling decision stands for.  The decision is a
    position among the children whose unit runs ([Completes]) or is
    done ([Resumes]), or one of the two positions after them: the
    first woken coroutine, the awaiting coroutine.  The first steps of
    the children were scheduled before anything else, so the loop takes
    them first; the awaiting coroutine is resumed only once it is
    [over]: an exception is set.  A decision that cannot be taken
    falls on the first thing that can happen; when nothing can, the
    awaiting coroutine is all that is left. *)
Definition turn_of (choice unstarted running finished woken : nat) (over : bool)
    : turn :=
  if decide (choice < running) then Completes choice
  else if decide (0 < unstarted) then Starts
  else if decide (choice < running + finished) then Resumes (choice - running)
  else if decide (choice = running + finished ∧ 0 < woken) then Enters
  else if over then Returns
  else if decide (0 < running) then Completes 0
  else if decide (0 < finished) then Resumes 0
  else if decide (0 < woken) then Enters
  else Returns.

(** [run_task] resumed once the worker thread is done with outcome
    [r]: the [except] clause logs the error and raises it again. *)
Definition run_task_resumed (t : task) (r : outcome value) : M value :=
  λ st, match r with
        | Return result => (Return result, st)
        | Raise e =>
            (Raise e, emit (EvLog ERROR (MsgErrorInTask (task_name t) e)) st)
        end.

(** The callback of [gather] for the child at position [i], done with
    [r]: its result is stored, or its exception becomes the one that
    [gather] raises; once an exception is set nothing more is
    recorded. *)
Definition settle (failed : option exn) (i : nat) (r : outcome value)
    (slots : list (option value)) : list (option value) * option exn :=
  match failed, r with
  | None, Return v => (<[i := Some v]> slots, None)
  | None, Raise e => (slots, Some e)
  | Some e, _ => (slots, Some e)
  end.

(** [asyncio.gather] over [run_task] coroutines.  Every child has
    handed its unit to a worker thread: [running] holds the children
    whose unit runs, [finished] those whose unit is done and who wait
    to be resumed, with the outcome; [slots] holds the results stored
    and [failed] the exception set.  The awaiting coroutine is resumed
    when all children are done or, once an exception is set, at any
    later turn: the other children are not cancelled, and what they do
    until then is part of the history.  [fuel] bounds the turns: two
    for each running child, one for each finished one, and the last. *)
Fixpoint gather_loop (args : Args) (fuel : nat) (running : list (nat * task))
    (finished : list (nat * task * outcome value))
    (slots : list (option value)) (failed : option exn)
    : M (list (option value)) :=
  λ st,
    match fuel with
    | O => (Return slots, st)
    | S fuel' =>
        let '(k, st1) := next_choice (length running + length finished + 2) st in
        match turn_of k 0 (length running) (length finished) 0
                (bool_decide (is_Some failed)) with
        | Completes j =>
            match running !! j with
            | Some (i, t) =>
                let '(r, st2) := to_thread t args st1 in
                gather_loop args fuel' (delete j running) (finished ++ [(i, t, r)])
                  slots failed st2
            | None => (Return slots, st1)
            end
        | Resumes j =>
            match finished !! j with
            | Some (i, t, r) =>
                let '(_, st2) := run_task_resumed t r st1 in
                let '(slots', failed') := settle failed i r slots in
                gather_loop args fuel' running (delete j finished) slots' failed' st2
            | None => (Return slots, st1)
            end
        | _ =>
            match failed with
            | Some e => (Raise e, st1)
            | None => (Return slots, st1)
            end
        end
    end.

(** Once every child is done the results are read child by child, in
    the order the children were passed. *)
Definition gather (coros : list task) (args : Args) : M (list value) :=
  slots ← gather_loop args (S (2 * length coros)) (imap pair coros) []
            (replicate (length coros) None) None;
  ret (omap id slots).

Definition run_in_parallel (tasks : list task) (args : Args) : M (list value) :=
  log INFO (MsgRunningParallel (length tasks));;
  results ← gather tasks args;
  log INFO MsgParallelCompleted;;
  ret results.

(** ** run_with_rate_limit *)

(** [len(range(start, stop, step))] for a step that is not zero. *)
Definition range_len (start stop step : Z) : Z :=
  if (0 <? step)%Z
  then Z.max 0 ((stop - start + step - 1) / step)
  else Z.max 0 ((start - stop - step - 1) / (- step)).

(** [range(start, stop, step)] for a step that is not zero. *)
Definition range (start stop step : Z) : list Z :=
  (λ k, start + k * step)%Z <$> seqZ 0 (range_len start stop step).

(** [xs[i:j]] for [0 <= i] and [0 <= j] *)
Definition slice {A} (xs : list A) (i j : Z) : list A :=
  take (Z.to_nat j - Z.to_nat i) (drop (Z.to_nat i) xs).

Fixpoint rate_limit_loop (tasks : list task) (rate_limit : Z) (time_period : Q)
    (args : Args) (indices : list Z) (results : list value) : M (list value) :=
  match indices with
  | [] => ret results
  | i :: indices' =>
      let batch := slice tasks i (i + rate_limit) in
      batch_results ← run_in_parallel batch args;
      let results := results ++ batch_results in
      (if (i + rate_limit <? Z.of_nat (length tasks))%Z
       then log INFO (MsgRateLimitReached time_period);; sleep time_period
       else ret ());;
      rate_limit_loop tasks rate_limit time_period args indices' results
  end.

Definition run_with_rate_limit (tasks : list task) (rate_limit : Z)
    (time_period : Q) (args : Args) : M (list value) :=
  if (rate_limit =? 0)%Z
  then raise (ValueError "range() arg 3 must not be zero")
  else rate_limit_loop tasks rate_limit time_period args
         (range 0 (Z.of_nat (length tasks)) rate_limit) [].

(** ** run_with_priority *)

(** A dictionary with the keys ['task'] and ['priority']. *)
Record task_info : Type := TaskInfo {
  info_task : task;
  priority : Z
}.

(** Whether [x] may stand before [y] when [x] was submitted first. *)
Definition goes_before {A} (key : A → Z) (reverse : bool) (x y : A) : bool :=
  if reverse then (key y <=? key x)%Z else (key x <=? key y)%Z.

Fixpoint sorted_insert {A} (key : A → Z) (reverse : bool) (x : A) (l : list A)
    : list A :=
  match l with
  | [] => [x]
  | y :: l' =>
      if goes_before key reverse x y then x :: y :: l'
      else y :: sorted_insert key reverse x l'
  end.

(** [sorted(l, key=key, reverse=reverse)]: the builtin sort is stable,
    also with [reverse=True]; a stable sort has one possible result,
    computed here by insertion from the right. *)
Definition sorted {A} (l : list A) (key : A → Z) (reverse : bool) : list A :=
  foldr (sorted_insert key reverse) [] l.

Fixpoint priority_loop (args : Args) (sorted_tasks : list task_info)
    (results : list value) : M (list value) :=
  match sorted_tasks with
  | [] => ret results
  | info :: rest =>
      result ← run_task (info_task info) args;
      priority_loop args rest (results ++ [result])
  end.

Definition run_with_priority (tasks : list task_info) (args : Args)
    : M (list value) :=
  let sorted_tasks := sorted tasks priority true in
  priority_loop args sorted_tasks [].

(** ** run_with_resource_management *)

(** How an awaited call ends: with a result or an error, or never,
    every coroutine waiting for something that cannot happen. *)
Inductive ending (A : Type) : Type :=
  | Ended (r : outcome A) (st : state)
  | Blocked (st : state).
#[global] Arguments Ended {A} r st.
#[global] Arguments Blocked {A} st.

(** [asyncio.gather] over [run_with_semaphore] coroutines.  The
    children in [unstarted] have not taken their first step, which
    brings each one to [async with semaphore]: it enters the block and
    hands its unit to a worker thread, or joins the queue of the
    semaphore.  [running] holds the children inside the block whose
    unit runs, [finished] those inside the block whose unit is done and
    who wait to be resumed; resumed, a child logs the error if there is
    one, leaves the block, which releases the semaphore, and is done.
    [woken] holds the coroutines that a release took from the queue:
    each enters the block when the loop resumes it, on a later turn.
    With nothing left to happen and coroutines still in the queue the
    call never ends.  [fuel] bounds the turns: four for each child and
    the last. *)
Fixpoint semaphore_loop (args : Args) (fuel : nat) (sem : semaphore (nat * task))
    (unstarted running : list (nat * task))
    (finished : list (nat * task * outcome value)) (woken : list (nat * task))
    (slots : list (option value)) (failed : option exn) (st : state)
    : ending (list (option value)) :=
  match fuel with
  | O => Blocked st
  | S fuel' =>
      let '(k, st1) := next_choice (length running + length finished + 2) st in
      match turn_of k (length unstarted) (length running) (length finished)
              (length woken) (bool_decide (is_Some failed)) with
      | Starts =>
          match unstarted with
          | c :: unstarted' =>
              match acquire c sem with
              | (sem', true) =>
                  semaphore_loop args fuel' sem' unstarted' (running ++ [c])
                    finished woken slots failed (emit (EvAcquire c.1) st1)
              | (sem', false) =>
                  semaphore_loop args fuel' sem' unstarted' running
                    finished woken slots failed st1
              end
          | [] => Blocked st1
          end
      | Completes j =>
          match running !! j with
          | Some (i, t) =>
              let '(r, st2) := to_thread t args st1 in
              semaphore_loop args fuel' sem unstarted (delete j running)
                (finished ++ [(i, t, r)]) woken slots failed st2
          | None => Blocked st1
          end
      | Resumes j =>
          match finished !! j with
          | Some (i, t, r) =>
              let '(_, st2) := run_task_resumed t r st1 in
              let '(sem', w) := release sem in
              let '(slots', failed') := settle failed i r slots in
              semaphore_loop args fuel' sem' unstarted running (delete j finished)
                (woken ++ option_list w) slots' failed' (emit (EvRelease i) st2)
          | None => Blocked st1
          end
      | Enters =>
          match woken with
          | c :: woken' =>
              semaphore_loop args fuel' sem unstarted (running ++ [c])
                finished woken' slots failed (emit (EvAcquire c.1) st1)
          | [] => Blocked st1
          end
      | Returns =>
          match failed with
          | Some e => Ended (Raise e) st1
          | None =>
              if bool_decide (sem_waiters sem = []) then Ended (Return slots) st1
              else Blocked st1
          end
      end
  end.

(** [asyncio.gather] awaited over one [run_with_semaphore(task)] for
    each task, with a semaphore of [max_concurrent]. *)
Definition gather_with_semaphore (tasks : list task) (max_concurrent : nat)
    (args : Args) (st : state) : ending (list value) :=
  match semaphore_loop args (S (4 * length tasks)) (Semaphore max_concurrent [])
          (imap pair tasks) [] [] [] (replicate (length tasks) None) None st with
  | Ended (Return slots) st' => Ended (Return (omap id slots)) st'
  | Ended (Raise e) st' => Ended (Raise e) st'
  | Blocked st' => Blocked st'
  end.

(** What the caller gets, if anything: [asyncio.Semaphore] refuses a
    negative value; a call that never ends gives nothing. *)
Definition run_with_resource_management (tasks : list task) (max_concurrent : Z)
    (args : Args) (st : state) : option (outcome (list value) * state) :=
  if (max_concurrent <? 0)%Z
  then Some (Raise (ValueError "Semaphore initial value must be >= 0"), st)
  else
    match gather_with_semaphore tasks (Z.to_nat max_concurrent) args st with
    | Ended r st' => Some (r, st')
    | Blocked _ => None
    end.

(** ** run_with_dependency_graph *)

(** The two variables the nested coroutine closes over. *)
Record graph_state : Type := GraphState {
  results : gmap string value;
  in_progress : gset string
}.

(** A coroutine of the dependency run: [None] when the recursion
    budget is used up. *)
Definition G (A : Type) : Type :=
  graph_state → state → option (outcome A * graph_state * state).

(** [for x in xs: await body(x)] *)
Fixpoint for_each {A B} (body : A → G B) (xs : list A) : G unit :=
  λ gs st,
    match xs with
    | [] => Some (Return (), gs, st)
    | x :: xs' =>
        match body x gs st with
        | Some (Return _, gs', st') => for_each body xs' gs' st'
        | Some (Raise e, gs', st') => Some (Raise e, gs', st')
        | None => None
        end
    end.

(** [tasks[task_name]] on a dictionary kept in insertion order. *)
Fixpoint getitem {A} (d : list (string * A)) (k : string) : option A :=
  match d with
  | [] => None
  | (k', a) :: d' => if decide (k' = k) then Some a else getitem d' k
  end.

Definition circular (task_name : string) : exn :=
  ValueError ("Circular dependency detected for task " +:+ task_name).

(** [depth] bounds the nesting of the recursive calls. *)
Fixpoint run_task_with_deps (tasks : list (string * task))
    (dependencies : gmap string (list string)) (args : Args)
    (depth : nat) (task_name : string) : G value :=
  λ gs st,
    match depth with
    | O => None
    | S depth' =>
        match results gs !! task_name with
        | Some v => Some (Return v, gs, st)
        | None =>
            if decide (task_name ∈ in_progress gs)
            then Some (Raise (circular task_name), gs, st)
            else
              let gs1 := GraphState (results gs) (in_progress gs ∪ {[task_name]}) in
              let deps := default [] (dependencies !! task_name) in
              match for_each (run_task_with_deps tasks dependencies args depth')
                      deps gs1 st with
              | None => None
              | Some (Raise e, gs2, st2) => Some (Raise e, gs2, st2)
              | Some (Return _, gs2, st2) =>
                  match getitem tasks task_name with
                  | None => Some (Raise (KeyError task_name), gs2, st2)
                  | Some task =>
                      match run_task task args st2 with
                      | (Raise e, st3) => Some (Raise e, gs2, st3)
                      | (Return result, st3) =>
                          Some (Return result,
                                GraphState (<[task_name := result]> (results gs2))
                                           (in_progress gs2 ∖ {[task_name]}),
                                st3)
                      end
                  end
              end
        end
    end.

(** Every name a resolution can reach: the keys of [tasks] and the
    names listed in [dependencies]. *)
Definition names (tasks : list (string * task))
    (dependencies : gmap string (list string)) : gset string :=
  list_to_set tasks.*1 ∪ ⋃ (list_to_set <$> (map_to_list dependencies).*2).

(** A chain of nested calls never repeats a name (the repeated one
    raises), so its length is at most the number of names plus one. *)
Definition run_with_dependency_graph (tasks : list (string * task))
    (dependencies : gmap string (list string)) (args : Args) (st : state)
    : option (outcome (gmap string value) * state) :=
  let depth := S (size (names tasks dependencies)) in
  match for_each (run_task_with_deps tasks dependencies args depth)
          tasks.*1 (GraphState ∅ ∅) st with
  | Some (Return _, gs, st') => Some (Return (results gs), st')
  | Some (Raise e, _, st') => Some (Raise e, st')
  | None => None
  end.

(** ** Vocabulary of the properties *)

(** The unit returns whatever the world it runs in. *)
Definition succeeds (args : Args) (t : task) : Prop :=
  ∀ w, is_return (call t args w).1 = true.

(** The unit raises on every invocation. *)
Definition always_fails (args : Args) (t : task) : Prop :=
  ∀ w, is_return (call t args w).1 = false.

(** The units [ts] run one after the other, each to completion before
    the next starts: what each produces and the world they leave. *)
Fixpoint run_in_order (args : Args) (ts : list task) (w : World)
    : list (outcome value) * World :=
  match ts with
  | [] => ([], w)
  | t :: ts' =>
      let '(r, w1) := call t args w in
      let '(rs, w2) := run_in_order args ts' w1 in
      (r :: rs, w2)
  end.

(** [s] is [l] sorted by descending key, elements of equal key in
    the order they have in [l]. *)
Definition stable_descending {A} (key : A → Z) (l s : list A) : Prop :=
  s ≡ₚ l
  ∧ StronglySorted (λ x y, (key y ≤ key x)%Z) s
  ∧ ∀ p : Z, filter (λ x, key x = p) s = filter (λ x, key x = p) l.

(** What the caller of [asyncio.gather] gets when every child succeeds:
    [completed] pairs each child, by position, with what it returned,
    in order of completion; the result list is read by position. *)
Definition gathered (args : Args) (coros : list task) (w : World)
    (completed : list (nat * task * value))
    (vs : list value) (w' : World) : Prop :=
  length vs = length coros
  ∧ completed.*1 ≡ₚ imap pair coros
  ∧ run_in_order args completed.*1.*2 w = (Return <$> completed.*2, w')
  ∧ (∀ i t v, (i, t, v) ∈ completed → vs !! i = Some v)
  ∧ (∀ i t, coros !! i = Some t → ∃ v, (i, t, v) ∈ completed ∧ vs !! i = Some v).

(** The groups [run_with_rate_limit] forms: [tasks[i:i+rate_limit]]
    for [i] in [range(0, len(tasks), rate_limit)]. *)
Definition batches (tasks : list task) (rate_limit : Z) : list (list task) :=
  (λ i, slice tasks i (i + rate_limit)%Z)
    <$> range 0 (Z.of_nat (length tasks)) rate_limit.

(** The groups [bs] run one after the other from world [w] to world
    [w'], each one gathered: its completion record in [logs], its
    result list in [vss]. *)
Fixpoint batches_gathered (args : Args) (bs : list (list task)) (w : World)
    (logs : list (list (nat * task * value))) (vss : list (list value))
    (w' : World) : Prop :=
  match bs, logs, vss with
  | [], [], [] => w' = w
  | b :: bs', log :: logs', vs :: vss' =>
      ∃ w1, gathered args b w log vs w1
            ∧ batches_gathered args bs' w1 logs' vss' w'
  | _, _, _ => False
  end.

(** The invocations of a completion record, as events. *)
Definition call_events (log : list (nat * task * value)) : list event :=
  (λ c, EvCall (task_name c.1.2) (Return c.2)) <$> log.

(** Groups of events with a pause [d] between consecutive groups. *)
Fixpoint paused (d : Q) (groups : list (list event)) : list event :=
  match groups with
  | [] => []
  | g :: groups' =>
      g ++ match groups' with
           | [] => []
           | _ :: _ => EvSleep d :: paused d groups'
           end
  end.

(** What the worker threads did (position of the child, unit,
    outcome), in the order in which they were done, as the calls of a
    history. *)
Definition record_calls (done : list (nat * task * outcome value))
    : list (string * outcome value) :=
  (λ c, (task_name c.1.2, c.2)) <$> done.

(** How a bounded run came from [st] to its end [r] in [st'], with
    the children of [pool] still to run their unit and those of
    [finished] still to be resumed: [done] records the units that ran
    meanwhile, in order, and they are all that changed the world.  A
    run that returns has seen every child run its unit and return, and
    has put each result in the slot of the child, touching no other
    slot; a run that raises after no failure was seen before has
    resumed a child whose unit raised that error: the child logged it
    and left the block, after its unit was done. *)
Definition run_record (args : Args) (pool : list (nat * task))
    (finished : list (nat * task * outcome value)) (slots : list (option value))
    (failed : option exn) (st : state) (r : outcome (list (option value)))
    (st' : state) : Prop :=
  ∃ (done : list (nat * task * outcome value)) (tr : list event),
    trace st' = trace st ++ tr
    ∧ done.*1 ⊆+ pool
    ∧ calls tr = record_calls done
    ∧ run_in_order args done.*1.*2 (world st) = (done.*2, world st')
    ∧ (∀ slots', r = Return slots' →
         failed = None
         ∧ done.*1 ≡ₚ pool
         ∧ Forall (λ c, is_return c.2 = true) (finished ++ done)
         ∧ length slots' = length slots
         ∧ (∀ i t v, (i, t, Return v) ∈ finished ++ done →
                     slots' !! i = Some (Some v))
         ∧ (∀ i, ¬ (i ∈ pool.*1 ++ finished.*1.*1) → slots' !! i = slots !! i))
    ∧ (∀ e, r = Raise e →
         failed = Some e
         ∨ ∃ i t head tail,
             (i, t, Raise e) ∈ finished ++ done
             ∧ tr = head ++ EvLog ERROR (MsgErrorInTask (task_name t) e)
                         :: EvRelease i :: tail
             ∧ ((i, t, Raise e) ∈ finished
                ∨ EvCall (task_name t) (Raise e) ∈ head)).

(** What the events of a bounded run of [tasks] stand for.  A unit
    is invoked between the entry of its coroutine into the block and
    its leaving it: every invocation is that of a task whose coroutine
    had entered the block and had not left it; a coroutine leaves the
    block it had entered, once, after its unit was invoked.  So, at
    any moment, no more coroutines have left the block than units have
    come to their end, and no more units have been invoked than
    coroutines have entered. *)
Definition inside_block (tasks : list task) (tr : list event) : Prop :=
  ∀ before ev after,
    tr = before ++ ev :: after →
    match ev with
    | EvCall name r =>
        (∃ i t, tasks !! i = Some t ∧ task_name t = name
                ∧ i ∈ acquires before ∧ ¬ (i ∈ releases before))
        ∧ length (calls before) < length (acquires before)
    | EvRelease i =>
        i ∈ acquires before ∧ ¬ (i ∈ releases before)
        ∧ length (releases before) < length (calls before)
    | _ => True
    end.

(** The coroutines enter the block in the order of submission, and
    beyond the first [k] each one enters after a release: the i-th
    needs [i - k + 1] of them. *)
Definition entered_in_turn (k : nat) (tr : list event) : Prop :=
  ∀ before i after,
    tr = before ++ EvAcquire i :: after →
    i = length (acquires before) ∧ i < k + length (releases before).

(** What holds between two turns of a bounded run of [tasks] with
    bound [k], [tr] being the events so far: the units inside the
    block are those that run or wait to be resumed; each of them, and
    each coroutine woken, holds one of the [k] slots; coroutines queue
    only while no slot is free; the coroutines enter in the order of
    submission; no child is inside twice, and none of those inside has
    left the block yet. *)
Definition semaphore_invariant (tasks : list task) (k : nat)
    (sem : semaphore (nat * task)) (unstarted running : list (nat * task))
    (finished : list (nat * task * outcome value)) (woken : list (nat * task))
    (tr : list event) : Prop :=
  length (acquires tr) = length (releases tr) + length running + length finished
  ∧ length (calls tr) = length (releases tr) + length finished
  ∧ sem_value sem + length running + length finished + length woken = k
  ∧ (sem_waiters sem ≠ [] → sem_value sem = 0)
  ∧ (unstarted ≠ [] → woken = [])
  ∧ length (acquires tr) ≤ length tasks
  ∧ woken.*1 ++ (sem_waiters sem).*1 ++ unstarted.*1
    = seq (length (acquires tr)) (length tasks - length (acquires tr))
  ∧ (∀ i t, (i, t) ∈ unstarted ++ running ++ finished.*1 ++ woken ++ sem_waiters sem →
            tasks !! i = Some t)
  ∧ (∀ i t, (i, t) ∈ running ++ finished.*1 →
            i ∈ acquires tr ∧ ¬ (i ∈ releases tr))
  ∧ (∀ i, i ∈ releases tr → i ∈ acquires tr)
  ∧ NoDup (running ++ finished.*1).*1
  ∧ acquires tr = seq 0 (length (acquires tr))
  ∧ in_flight_bounded (Z.of_nat k) tr
  ∧ inside_block tasks tr
  ∧ entered_in_turn k tr.

(** Successful invocations [o] (key, unit, result) as events. *)
Definition invoked (o : list (string * task * value)) : list event :=
  (λ x, EvCall (task_name x.1.2) (Return x.2)) <$> o.

(** What resolving does to the result cache, the history and the
    world when it invokes [o], in that order, and every unit returns. *)
Definition resolution_effect (tasks : list (string * task))
    (dependencies : gmap string (list string)) (args : Args)
    (cache : gmap string value) (st : state) (o : list (string * task * value))
    (cache' : gmap string value) (st' : state) : Prop :=
  trace st' = trace st ++ invoked o
  ∧ run_in_order args o.*1.*2 (world st) = (Return <$> o.*2, world st')
  ∧ Forall (λ x, getitem tasks x.1.1 = Some x.1.2) o
  ∧ dom cache' = dom cache ∪ list_to_set o.*1.*1
  ∧ cache ⊆ cache'
  ∧ (∀ x, x ∈ o → cache' !! x.1.1 = Some x.2)
  ∧ NoDup o.*1.*1
  ∧ (∀ k, k ∈ o.*1.*1 → k ∉ dom cache)
  ∧ prerequisites_first dependencies (dom cache) o.*1.*1.

(** What holds of the two variables between two resolutions: no
    resolved task is in progress, the prerequisites of a resolved task
    are resolved, no resolved task is on a cycle. *)
Definition graph_invariant (dependencies : gmap string (list string))
    (gs : graph_state) : Prop :=
  dom (results gs) ## in_progress gs
  ∧ (∀ x y, x ∈ dom (results gs) → depends_on dependencies x y →
            y ∈ dom (results gs))
  ∧ (∀ x, x ∈ dom (results gs) → ¬ on_cycle dependencies x).

(** What a resolution [body] that returns has done. *)
Definition returns_well (tasks : list (string * task))
    (dependencies : gmap string (list string)) (args : Args)
    (body : string → G value) : Prop :=
  ∀ name gs st v gs' st',
    body name gs st = Some (Return v, gs', st') →
    graph_invariant dependencies gs →
    ∃ o,
      resolution_effect tasks dependencies args (results gs) st o (results gs') st'
      ∧ graph_invariant dependencies gs'
      ∧ in_progress gs' = in_progress gs
      ∧ results gs' !! name = Some v
      ∧ visit dependencies (dom (results gs)) name o.*1.*1.

(** A resolution [body] given enough depth comes to an end. *)
Definition ends_within (tasks : list (string * task))
    (dependencies : gmap string (list string))
    (depth : nat) (body : string → G value) : Prop :=
  ∀ name gs st,
    name ∈ names tasks dependencies →
    size (names tasks dependencies ∖ in_progress gs) < depth →
    ∃ r gs' st',
      body name gs st = Some (r, gs', st')
      ∧ (is_return r = true → in_progress gs' = in_progress gs).

(** Every prerequisite listed is a key of the task mapping. *)
Definition names_are_keys (tasks : list (string * task))
    (dependencies : gmap string (list string)) : Prop :=
  ∀ x d, depends_on dependencies x d → d ∈ tasks.*1.

(** A resolution [body] that raises, started on a key with the tasks
    in progress all needing it, raises the cycle error for a task on a
    cycle. *)
Definition raises_cycle (tasks : list (string * task))
    (dependencies : gmap string (list string))
    (body : string → G value) : Prop :=
  ∀ name gs st e gs' st',
    body name gs st = Some (Raise e, gs', st') →
    graph_invariant dependencies gs →
    name ∈ tasks.*1 →
    (∀ x, x ∈ in_progress gs → tc (depends_on dependencies) x name) →
    ∃ x, e = circular x ∧ on_cycle dependencies x ∧ x ∈ tasks.*1.

(** Events that are no operation of a semaphore. *)
Definition quiet (e : event) : Prop :=
  match e with EvAcquire _ | EvRelease _ => False | _ => True end.

(** Invocations and pauses of a history, the log entries left out. *)
Definition steps (tr : list event) : list event :=
  filter (λ e, is_call e || is_sleep e = true) tr.

(** Failed attempts with errors [es], a pause [d] after each but the
    last. *)
Fixpoint attempts (name : string) (d : Q) (es : list exn) : list event :=
  match es with
  | [] => []
  | e :: es' =>
      EvCall name (Raise e) ::
      match es' with
      | [] => []
      | _ :: _ => EvSleep d :: attempts name d es'
      end
  end.

(** ** run_with_progress *)

(** What [print] writes: a progress line, made of the bar and of the
    percentage before it is rounded to one decimal, or the empty line
    that ends the bar. *)
Inductive output : Type :=
  | OutProgress (bar : string) (percent : Q)
  | OutNewline.

(** The one arithmetic error of the module: a division by a total of
    zero. *)
Inductive arithmetic_error : Type := ZeroDivisionError.

Definition bar_length : Z := 50.

(** [int(bar_length * completed // total)] *)
Definition filled_length (completed total : Z) : Z :=
  (bar_length * completed / total)%Z.

(** [s * n]: no copy at all when [n] is not positive. *)
Definition str_repeat (s : string) (n : Z) : string :=
  String.concat "" (replicate (Z.to_nat n) s).

(** The string the source repeats for the filled part of the bar. *)
Definition filled_cell : string := "â–ˆ".

Definition progress_bar (completed total : Z) : string :=
  str_repeat filled_cell (filled_length completed total)
  +:+ str_repeat "-" (bar_length - filled_length completed total).

Definition update_progress_bar (completed total : Z)
    : arithmetic_error + output :=
  if (total =? 0)%Z then inl ZeroDivisionError
  else inr (OutProgress (progress_bar completed total)
              (inject_Z completed / inject_Z total * 100)%Q).

(** How a run with a progress bar ends: as a coroutine of the module
    does, or on the arithmetic error. *)
Inductive progress_result : Type :=
  | Finished (r : outcome (list value))
  | Crashed (e : arithmetic_error).

(** The loop over the tasks left, with the three local variables and
    what was printed so far. *)
Fixpoint progress_loop (args : Args) (tasks : list task) (total_tasks : Z)
    (completed_tasks : Z) (results : list value) (out : list output) (st : state)
    : progress_result * state * list output :=
  match tasks with
  | [] => (Finished (Return results), st, out ++ [OutNewline])
  | t :: tasks' =>
      match run_task t args st with
      | (Raise e, st') => (Finished (Raise e), st', out)
      | (Return result, st') =>
          let results := results ++ [result] in
          let completed_tasks := (completed_tasks + 1)%Z in
          match update_progress_bar completed_tasks total_tasks with
          | inl e => (Crashed e, st', out)
          | inr line =>
              progress_loop args tasks' total_tasks completed_tasks results
                (out ++ [line]) st'
          end
      end
  end.

Definition run_with_progress (tasks : list task) (args : Args) (st : state)
    : progress_result * state * list output :=
  progress_loop args tasks (Z.of_nat (length tasks)) 0 [] [] st.

(** ** Vocabulary of the further properties *)

(** The units [ts] run one after the other until one raises: what
    each invoked unit produced, under its name, and the world left. *)
Fixpoint run_until_raise (args : Args) (ts : list task) (w : World)
    : list (string * outcome value) * World :=
  match ts with
  | [] => ([], w)
  | t :: ts' =>
      match call t args w with
      | (Return v, w1) =>
          let '(rs, w2) := run_until_raise args ts' w1 in
          ((task_name t, Return v) :: rs, w2)
      | (Raise e, w1) => ([(task_name t, Raise e)], w1)
      end
  end.

(** What a run that stops at the first error hands to its caller once
    the invocations [rs] are over: the values when all returned, else
    the error of the last one. *)
Fixpoint verdict (rs : list (string * outcome value)) (acc : list value)
    : outcome (list value) :=
  match rs with
  | [] => Return acc
  | (_, Return v) :: rs' => verdict rs' (acc ++ [v])
  | (_, Raise e) :: _ => Raise e
  end.

(** The unit returns [v] whatever the world it runs in. *)
Definition returns (args : Args) (t : task) (v : value) : Prop :=
  ∀ w, (call t args w).1 = Return v.

(** [name] is a key of the task mapping or a prerequisite, direct or
    not, of one. *)
Definition reachable (tasks : list (string * task))
    (dependencies : gmap string (list string)) (name : string) : Prop :=
  ∃ key, key ∈ tasks.*1 ∧ rtc (depends_on dependencies) key name.

(** The two errors of the dependency run itself: the cycle error for a
    task on a cycle, the [KeyError] for a name that is no task; both
    name something within reach of the task mapping. *)
Definition graph_error (tasks : list (string * task))
    (dependencies : gmap string (list string)) (e : exn) : Prop :=
  (∃ x, e = circular x ∧ on_cycle dependencies x ∧ reachable tasks dependencies x)
  ∨ (∃ k, e = KeyError k ∧ ¬ (k ∈ tasks.*1) ∧ reachable tasks dependencies k).

(** A resolution [body] that raises, started on a name within reach
    with the tasks in progress all needing it, raises one of the two
    errors. *)
Definition raises_graph_error (tasks : list (string * task))
    (dependencies : gmap string (list string))
    (body : string → G value) : Prop :=
  ∀ name gs st e gs' st',
    body name gs st = Some (Raise e, gs', st') →
    graph_invariant dependencies gs →
    reachable tasks dependencies name →
    (∀ x, x ∈ in_progress gs → tc (depends_on dependencies) x name) →
    graph_error tasks dependencies e.

(** The error of an outcome, if it is one. *)
Definition error_of {A} (r : outcome A) : option exn :=
  match r with Return _ => None | Raise e => Some e end.

(** Invocations [o] (key, unit, outcome) as the calls of a history. *)
Definition attempted (o : list (string * task * outcome value))
    : list (string * outcome value) :=
  (λ x, (task_name x.1.2, x.2)) <$> o.

(** What a resolution does when it invokes [o], in that order, and
    ends with the error [err] or with none, whatever the units do: the
    tasks invoked are looked up under their names, none twice, none
    that was resolved or in progress; those that returned, [good], are
    resolved now; at most one raised, the last one, and its error is
    the one the resolution ends with. *)
Definition attempts_effect (tasks : list (string * task))
    (gs : graph_state) (st : state) (o : list (string * task * outcome value))
    (err : option exn) (gs' : graph_state) (st' : state) : Prop :=
  (∃ tr, trace st' = trace st ++ tr ∧ calls tr = attempted o)
  ∧ Forall (λ x, getitem tasks x.1.1 = Some x.1.2) o
  ∧ NoDup o.*1.*1
  ∧ (∀ k, k ∈ o.*1.*1 → ¬ (k ∈ dom (results gs)) ∧ ¬ (k ∈ in_progress gs))
  ∧ dom (results gs) ⊆ dom (results gs')
  ∧ dom (results gs') ⊆ dom (results gs) ∪ list_to_set o.*1.*1
  ∧ in_progress gs ⊆ in_progress gs'
  ∧ (∃ good bad,
       o = good ++ bad
       ∧ Forall (λ x, is_return x.2 = true ∧ x.1.1 ∈ dom (results gs')) good
       ∧ (bad = [] ∨ ∃ x e, bad = [x] ∧ x.2 = Raise e ∧ err = Some e)).

(** A resolution [body] that comes to an end has done that. *)
Definition attempts_well (tasks : list (string * task))
    (body : string → G value) : Prop :=
  ∀ name gs st r gs' st',
    body name gs st = Some (r, gs', st') →
    ∃ o, attempts_effect tasks gs st o (error_of r) gs' st'.

(** The values of the invocations that returned. *)
Definition returned (rs : list (string * outcome value)) : list value :=
  omap (λ c, match c.2 with Return v => Some v | Raise _ => None end) rs.

(** The line printed once [j] tasks out of [total] are completed. *)
Definition progress_line (total j : Z) : output :=
  OutProgress (progress_bar j total) (inject_Z j / inject_Z total * 100)%Q.

End Orchestrator.

Arguments task : clear implicits.
Arguments state : clear implicits.
Arguments task_info : clear implicits.

(** * Sample units

    Units over a world that counts the invocations, for the examples
    that close the development. *)

Definition noop (name : string) : task nat unit :=
  Task name (λ _ w, (Return VNone, S w)) (λ _ _, 0%Q).

Definition constant (name : string) (v : value) : task nat unit :=
  Task name (λ _ w, (Return v, S w)) (λ _ _, 0%Q).

Definition failing (name msg : string) : task nat unit :=
  Task name (λ _ w, (Raise (UnitError msg), S w)) (λ _ _, 0%Q).

Definition slow (name : string) (d : Q) : task nat unit :=
  Task name (λ _ w, (Return (VInt 1), S w)) (λ _ _, d).

(** A unit that raises at its first [failures] invocations, counted
    by the world, and returns [v] from then on. *)
Definition flaky (name : string) (failures : nat) (v : value) : task nat unit :=
  Task name
    (λ _ w, (if w <? failures then Raise (UnitError "not yet") else Return v, S w))
    (λ _ _, 0%Q).

(** What a unit returns when invoked in the world that has seen no
    invocation. *)
Definition value_of (t : task nat unit) : value :=
  match (call t tt 0).1 with
  | Return v => v
  | Raise _ => VNone
  end.

(** The value each task of the two-task examples is given. *)
Definition one_and_two (k : string) : value :=
  if decide (k = "A") then VInt 1 else VInt 2.

Definition fresh : state nat := State 0 [] [].

(** [{A: [B], B: [A]}] *)
Definition two_cycle : gmap string (list string) :=
  {[ "A" := ["B"]; "B" := ["A"] ]}.

(** [{A: [X, B], B: [A]}] *)
Definition cycle_with_stranger : gmap string (list string) :=
  {[ "A" := ["X"; "B"]; "B" := ["A"] ]}.

(** [{A: [B]}] *)
Definition a_needs_b : gmap string (list string) :=
  {[ "A" := ["B"] ]}.

(** * Properties *)

Section Properties.

Context {World Args : Type}.
Implicit Types (t : task World Args) (st : state World) (args : Args).

Lemma steps_app (tr1 tr2 : list event) : steps (tr1 ++ tr2) = steps tr1 ++ steps tr2.
Proof. apply filter_app. Qed.

Lemma calls_app (tr1 tr2 : list event) : calls (tr1 ++ tr2) = calls tr1 ++ calls tr2.
Proof. apply omap_app. Qed.

Lemma sleeps_app (tr1 tr2 : list event) : sleeps (tr1 ++ tr2) = sleeps tr1 ++ sleeps tr2.
Proof. apply omap_app. Qed.

(** What [run_task] does, by the outcome of the unit. *)
Lemma run_task_return t args st v w :
  call t args (world st) = (Return v, w) →
  run_task t args st
  = (Return v, emit (EvCall (task_name t) (Return v)) (set_world w st)).
Proof. intros H. unfold run_task, to_thread. by rewrite H. Qed.

Lemma run_task_raise t args st e w :
  call t args (world st) = (Raise e, w) →
  run_task t args st
  = (Raise e, emit (EvLog ERROR (MsgErrorInTask (task_name t) e))
                (emit (EvCall (task_name t) (Raise e)) (set_world w st))).
Proof. intros H. unfold run_task, to_thread. by rewrite H. Qed.

Lemma always_fails_call t args w :
  always_fails args t → ∃ e w', call t args w = (Raise e, w').
Proof.
  intros H. specialize (H w). destruct (call t args w) as [[v|e] w']; [done|eauto].
Qed.

Lemma succeeds_call t args w :
  succeeds args t → ∃ v w', call t args w = (Return v, w').
Proof.
  intros H. specialize (H w). destruct (call t args w) as [[v|e] w']; [eauto|done].
Qed.

Lemma bind_log {A} lvl msg (k : M A) st :
  (log lvl msg;; k) st = k (emit (EvLog lvl msg) st).
Proof. reflexivity. Qed.

Lemma bind_sleep {A} d (k : M A) st :
  (sleep d;; k) st = k (emit (EvSleep d) st).
Proof. reflexivity. Qed.

Lemma bind_ret {A B} (a : A) (k : A → M B) st : (ret a ≫= k) st = k a st.
Proof. reflexivity. Qed.

Lemma bind_eq {A B} (m : M A) (k : A → M B) st :
  (m ≫= k) st
  = match m st with
    | (Return a, st') => k a st'
    | (Raise e, st') => (Raise e, st')
    end.
Proof. reflexivity. Qed.

Lemma calls_steps (tr : list event) : calls (steps tr) = calls tr.
Proof.
  induction tr as [|[] tr IH]; try done; unfold steps in *;
    rewrite ?filter_cons_True, ?filter_cons_False by (simpl; done);
    simpl; by rewrite ?IH.
Qed.

Lemma sleeps_steps (tr : list event) : sleeps (steps tr) = sleeps tr.
Proof.
  induction tr as [|[] tr IH]; try done; unfold steps in *;
    rewrite ?filter_cons_True, ?filter_cons_False by (simpl; done);
    simpl; by rewrite ?IH.
Qed.

Lemma calls_cons_call name r (tr : list event) :
  calls (EvCall name r :: tr) = (name, r) :: calls tr.
Proof. reflexivity. Qed.

Lemma calls_call_events {X} (f : X → string) (g : X → outcome value) (l : list X) :
  calls ((λ c, EvCall (f c) (g c)) <$> l) = (λ c, (f c, g c)) <$> l.
Proof.
  induction l as [|c l IH]; [done|].
  rewrite !fmap_cons, calls_cons_call. by rewrite IH.
Qed.

Lemma calls_attempts name d (es : list exn) :
  length (calls (attempts name d es)) = length es.
Proof.
  induction es as [|e es IH]; [done|].
  destruct es as [|e' es]; [done|].
  change (S (length (calls (attempts name d (e' :: es)))) = S (length (e' :: es))).
  by rewrite IH.
Qed.

Lemma sleeps_attempts name d (es : list exn) :
  sleeps (attempts name d es) = replicate (length es - 1) d.
Proof.
  induction es as [|e es IH]; [done|].
  destruct es as [|e' es]; [done|].
  change (d :: sleeps (attempts name d (e' :: es)) = d :: replicate (length es) d).
  rewrite IH. simpl. by rewrite Nat.sub_0_r.
Qed.

(** ** The retry wrapper *)

Lemma retry_loop_S t (N : Z) (d : Q) args (n : nat) (attempt : Z) st :
  retry_loop t N d args (S n) attempt st
  = match run_task t args st with
    | (Return v, st') => (Return v, st')
    | (Raise e, st') =>
        if (attempt =? N - 1)%Z
        then (Raise e, emit (EvLog ERROR (MsgFailedAfter (task_name t) N e)) st')
        else retry_loop t N d args n (attempt + 1)%Z
               (emit (EvSleep d)
                  (emit (EvLog WARNING (MsgRetrying (task_name t) (attempt + 1) N d))
                     st'))
    end.
Proof. reflexivity. Qed.

Lemma retry_loop_always_fails t (N : Z) (d : Q) args :
  always_fails args t →
  ∀ (n : nat) (attempt : Z) st,
    (attempt + Z.of_nat (S n) = N)%Z →
    ∃ es e st',
      retry_loop t N d args (S n) attempt st = (Raise e, st')
      ∧ length es = S n
      ∧ last es = Some e
      ∧ ∃ tr, trace st' = trace st ++ tr
              ∧ steps tr = attempts (task_name t) d es.
Proof.
  intros Hf n. induction n as [|n IH]; intros attempt st Hn.
  - destruct (always_fails_call t args (world st) Hf) as (e & w & Hc).
    exists [e], e. eexists. rewrite retry_loop_S, (run_task_raise _ _ _ _ _ Hc).
    assert ((attempt =? N - 1)%Z = true) as -> by lia.
    split_and!; try done. eexists. split.
    + simpl. rewrite <- !app_assoc. done.
    + done.
  - destruct (always_fails_call t args (world st) Hf) as (e & w & Hc).
    rewrite retry_loop_S, (run_task_raise _ _ _ _ _ Hc).
    assert ((attempt =? N - 1)%Z = false) as -> by lia.
    edestruct (IH (attempt + 1)%Z) as (es & e' & st' & Hr & Hlen & Hlast & tr & Htr & Hsteps);
      [lia|].
    rewrite Hr. exists (e :: es), e', st'. split_and!; try done.
    + simpl. by rewrite Hlen.
    + destruct es; [done|]. done.
    + eexists. split.
      * rewrite Htr. simpl. rewrite <- !app_assoc. done.
      * rewrite !steps_app, Hsteps. destruct es; [done|]. done.
Qed.

(** C5.  A unit that fails on every invocation, retried with
    [max_retries = N >= 1]: the wrapper raises; the unit was invoked
    exactly [N] times, each time failing; a pause of [retry_delay]
    separates consecutive attempts and none follows the last; the error
    raised to the caller is the one of the last attempt. *)
Theorem run_with_retry_always_failing t (N : Z) (retry_delay : Q) args st :
  (1 ≤ N)%Z →
  always_fails args t →
  ∃ es e st',
    run_with_retry t N retry_delay args st = (Raise e, st')
    ∧ Z.of_nat (length es) = N
    ∧ last es = Some e
    ∧ ∃ tr, trace st' = trace st ++ tr
            ∧ steps tr = attempts (task_name t) retry_delay es
            ∧ Z.of_nat (length (calls tr)) = N
            ∧ sleeps tr = replicate (Z.to_nat N - 1) retry_delay.
Proof.
  intros HN Hf. unfold run_with_retry.
  destruct (Z.to_nat N) as [|n] eqn:Hn; [lia|].
  destruct (retry_loop_always_fails t N retry_delay args Hf n 0%Z st)
    as (es & e & st' & Hr & Hlen & Hlast & tr & Htr & Hsteps); [lia|].
  exists es, e, st'. split_and!; [done|lia|done|].
  exists tr. split_and!; [done|done| |].
  - rewrite <- calls_steps, Hsteps, calls_attempts. lia.
  - by rewrite <- sleeps_steps, Hsteps, sleeps_attempts, Hlen.
Qed.

(** ** The timeout wrapper *)

Lemma within_false_of_lt (d timeout : Q) : (timeout < d)%Q → within d timeout = false.
Proof.
  intros H. unfold within.
  destruct (Qle_bool d timeout) eqn:Hle; [|done].
  apply Qle_bool_iff in Hle. exfalso. by eapply Qlt_not_le.
Qed.

Lemma run_with_timeout_expired t (timeout : Q) args st :
  within (duration t args (world st)) timeout = false →
  run_with_timeout t timeout args st
  = (Return VNone,
     emit (EvLog WARNING (MsgTimedOut (task_name t) timeout))
       (emit (EvAbandon (task_name t))
          (if Qle_bool timeout 0 then st
           else set_world (call t args (world st)).2 st))).
Proof. intros H. unfold run_with_timeout, wait_for. by rewrite H. Qed.

(** C6.  A unit that takes longer than the timeout: the wrapper
    returns [None], the value that stands for a timeout, and does not
    raise, whatever the unit goes on to produce; nothing of the unit's
    outcome reaches the history, which gets the abandoned wait and the
    warning. *)
Theorem run_with_timeout_slow t (timeout : Q) args st :
  (timeout < duration t args (world st))%Q →
  ∃ st',
    run_with_timeout t timeout args st = (Return VNone, st')
    ∧ trace st'
      = trace st ++ [EvAbandon (task_name t);
                     EvLog WARNING (MsgTimedOut (task_name t) timeout)]
    ∧ calls (trace st') = calls (trace st).
Proof.
  intros Hslow.
  rewrite (run_with_timeout_expired _ _ _ _ (within_false_of_lt _ _ Hslow)).
  eexists. split; [reflexivity|].
  destruct (Qle_bool timeout 0); simpl; split.
  - by rewrite <- app_assoc.
  - rewrite !calls_app. simpl. by rewrite !app_nil_r.
  - by rewrite <- app_assoc.
  - rewrite !calls_app. simpl. by rewrite !app_nil_r.
Qed.

(** C10.  A unit that is done within the timeout and returns [None],
    and a unit that exceeds the timeout: [run_with_timeout] hands the
    caller the same value, [None], in both cases. *)
Theorem run_with_timeout_none_ambiguous t1 t2 (timeout1 timeout2 : Q)
    args1 args2 st1 st2 :
  within (duration t1 args1 (world st1)) timeout1 = true →
  (call t1 args1 (world st1)).1 = Return VNone →
  (timeout2 < duration t2 args2 (world st2))%Q →
  (run_with_timeout t1 timeout1 args1 st1).1 = Return VNone
  ∧ (run_with_timeout t2 timeout2 args2 st2).1 = Return VNone
  ∧ (run_with_timeout t1 timeout1 args1 st1).1
    = (run_with_timeout t2 timeout2 args2 st2).1.
Proof.
  intros Hin Hnone Hslow.
  assert ((run_with_timeout t1 timeout1 args1 st1).1 = Return VNone) as H1.
  { unfold run_with_timeout, wait_for. rewrite Hin.
    destruct (call t1 args1 (world st1)) as [r w] eqn:Hc. simpl in Hnone. subst r.
    by rewrite (run_task_return _ _ _ _ _ Hc). }
  assert ((run_with_timeout t2 timeout2 args2 st2).1 = Return VNone) as H2.
  { by rewrite (run_with_timeout_expired _ _ _ _ (within_false_of_lt _ _ Hslow)). }
  by rewrite H1, H2.
Qed.

(** ** The priority scheduler *)

Section Sorted.

Context {A : Type} (key : A → Z).

Lemma sorted_insert_perm (reverse : bool) (x : A) (l : list A) :
  sorted_insert key reverse x l ≡ₚ x :: l.
Proof.
  induction l as [|y l IH]; [done|]. simpl.
  destruct (goes_before key reverse x y); [done|].
  rewrite IH. apply Permutation_swap.
Qed.

Lemma sorted_perm (reverse : bool) (l : list A) : sorted l key reverse ≡ₚ l.
Proof.
  induction l as [|x l IH]; [done|].
  unfold sorted in *. simpl. by rewrite sorted_insert_perm, IH.
Qed.

Lemma sorted_insert_descending (x : A) (l : list A) :
  StronglySorted (λ x y, (key y ≤ key x)%Z) l →
  StronglySorted (λ x y, (key y ≤ key x)%Z) (sorted_insert key true x l).
Proof.
  induction 1 as [|y l Hl IH Hy]; simpl.
  - repeat constructor.
  - unfold goes_before. destruct (Z.leb_spec (key y) (key x)) as [Hle|Hlt].
    + constructor; [by constructor|]. constructor; [done|].
      eapply Forall_impl; [exact Hy|]. simpl. intros z Hz. lia.
    + constructor; [done|].
      rewrite sorted_insert_perm. constructor; [lia|done].
Qed.

Lemma sorted_descending (l : list A) :
  StronglySorted (λ x y, (key y ≤ key x)%Z) (sorted l key true).
Proof.
  induction l as [|x l IH]; [constructor|].
  by apply sorted_insert_descending.
Qed.

Lemma sorted_insert_filter (x : A) (l : list A) (p : Z) :
  filter (λ y, key y = p) (sorted_insert key true x l)
  = filter (λ y, key y = p) (x :: l).
Proof.
  induction l as [|y l IH]; [done|]. simpl.
  unfold goes_before. destruct (Z.leb_spec (key y) (key x)) as [Hle|Hlt]; [done|].
  rewrite filter_cons, IH, !filter_cons.
  repeat case_decide; try done. lia.
Qed.

Lemma sorted_stable (l : list A) (p : Z) :
  filter (λ y, key y = p) (sorted l key true) = filter (λ y, key y = p) l.
Proof.
  induction l as [|x l IH]; [done|].
  change (sorted (x :: l) key true) with (sorted_insert key true x (sorted l key true)).
  by rewrite sorted_insert_filter, !filter_cons, IH.
Qed.

Lemma sorted_stable_descending (l : list A) :
  stable_descending key l (sorted l key true).
Proof.
  split_and!; [apply sorted_perm|apply sorted_descending|apply sorted_stable].
Qed.

(** A list has one stable sort by descending key: whatever sorting
    algorithm the interpreter uses, [sorted] gives its result. *)
Lemma stable_descending_unique (l s1 s2 : list A) :
  stable_descending key l s1 → stable_descending key l s2 → s1 = s2.
Proof.
  intros (_ & Hs1 & Hf1) (_ & Hs2 & Hf2).
  assert (∀ p, filter (λ x, key x = p) s1 = filter (λ x, key x = p) s2) as Hf.
  { intros p. by rewrite Hf1, Hf2. }
  clear Hf1 Hf2 l. revert s2 Hs2 Hf.
  induction Hs1 as [|x s1 Hs1 IH Hx]; intros s2 Hs2 Hf.
  - destruct s2 as [|y s2]; [done|].
    specialize (Hf (key y)). rewrite filter_cons_True in Hf by done. done.
  - destruct s2 as [|y s2].
    { specialize (Hf (key x)). rewrite filter_cons_True in Hf by done. done. }
    apply StronglySorted_inv in Hs2 as [Hs2 Hy].
    assert (key x = key y) as Hxy.
    { assert (key y ≤ key x)%Z.
      { pose proof (Hf (key y)) as Hfy. rewrite (filter_cons_True _ y) in Hfy by done.
        assert (y ∈ filter (λ z, key z = key y) (x :: s1)) as Hin by (rewrite Hfy; left).
        apply list_elem_of_filter in Hin as [_ [->|Hin]%elem_of_cons]; [done|].
        eapply Forall_forall in Hx; [|exact Hin]. done. }
      assert (key x ≤ key y)%Z.
      { pose proof (Hf (key x)) as Hfx. rewrite (filter_cons_True _ x) in Hfx by done.
        assert (x ∈ filter (λ z, key z = key x) (y :: s2)) as Hin by (rewrite <- Hfx; left).
        apply list_elem_of_filter in Hin as [_ [->|Hin]%elem_of_cons]; [done|].
        eapply Forall_forall in Hy; [|exact Hin]. done. }
      lia. }
    pose proof (Hf (key x)) as Hhead.
    rewrite (filter_cons_True _ x), (filter_cons_True _ y) in Hhead by done.
    injection Hhead as -> Hhead. f_equal. apply IH; [done|].
    intros p. specialize (Hf p). rewrite !filter_cons in Hf.
    case_decide; [by injection Hf|done].
Qed.
End Sorted.

Lemma priority_loop_succeeds args (l : list (task_info World Args)) :
  Forall (λ info, succeeds args (info_task info)) l →
  ∀ (acc : list value) st,
    ∃ vs st',
      priority_loop args l acc st = (Return (acc ++ vs), st')
      ∧ length vs = length l
      ∧ run_in_order args (info_task <$> l) (world st) = (Return <$> vs, world st')
      ∧ trace st'
        = trace st
          ++ zip_with (λ info v, EvCall (task_name (info_task info)) (Return v)) l vs.
Proof.
  induction 1 as [|info l Hinfo _ IH]; intros acc st.
  - exists [], st. simpl. by rewrite !app_nil_r.
  - destruct (succeeds_call _ args (world st) Hinfo) as (v & w & Hc).
    destruct (IH (acc ++ [v])
                (emit (EvCall (task_name (info_task info)) (Return v)) (set_world w st)))
      as (vs & st' & Hloop & Hlen & Hrun & Htr).
    exists (v :: vs), st'. split_and!.
    + cbn [priority_loop]. rewrite bind_eq, (run_task_return _ _ _ _ _ Hc).
      by rewrite Hloop, <- app_assoc.
    + simpl. by rewrite Hlen.
    + cbn [fmap list_fmap run_in_order]. rewrite Hc.
      change (list_fmap _ _ info_task l) with (info_task <$> l).
      simpl in Hrun. by rewrite Hrun.
    + rewrite Htr. simpl. by rewrite <- app_assoc.
Qed.

(** C7 as amended.  Task descriptors whose units all succeed: the scheduler
    returns; the order of execution is the stable sort of the input by
    descending priority (a permutation of the input, priorities never
    increasing, equal priorities in submission order); the units run
    strictly one after the other in that order, which is all the
    history records; the result list holds what each unit returned, in
    that same order. *)
Theorem run_with_priority_order (tasks : list (task_info World Args)) args st :
  Forall (λ info, succeeds args (info_task info)) tasks →
  ∃ order vs st',
    run_with_priority tasks args st = (Return vs, st')
    ∧ stable_descending priority tasks order
    ∧ length vs = length tasks
    ∧ run_in_order args (info_task <$> order) (world st) = (Return <$> vs, world st')
    ∧ trace st'
      = trace st
        ++ zip_with (λ info v, EvCall (task_name (info_task info)) (Return v)) order vs.
Proof.
  intros Hok. unfold run_with_priority.
  set (order := sorted tasks priority true).
  assert (Forall (λ info, succeeds args (info_task info)) order) as Hok'.
  { subst order. by rewrite sorted_perm. }
  destruct (priority_loop_succeeds args order Hok' [] st)
    as (vs & st' & Hloop & Hlen & Hrun & Htr).
  exists order, vs, st'. split_and!; try done.
  - apply sorted_stable_descending.
  - rewrite Hlen. subst order. by rewrite sorted_perm.
Qed.

(** ** The parallel runner *)

Lemma next_choice_lt (bound : nat) st :
  0 < bound → (next_choice bound st).1 < bound.
Proof.
  intros Hb. unfold next_choice. destruct (choices st) as [|c cs]; simpl; [done|].
  apply Nat.mod_upper_bound. lia.
Qed.

Lemma next_choice_world (bound : nat) st :
  world (next_choice bound st).2 = world st.
Proof. unfold next_choice. by destruct (choices st). Qed.

Lemma next_choice_trace (bound : nat) st :
  trace (next_choice bound st).2 = trace st.
Proof. unfold next_choice. by destruct (choices st). Qed.

Lemma turn_of_spec (choice unstarted running finished woken : nat) (over : bool) :
  match turn_of choice unstarted running finished woken over with
  | Starts => 0 < unstarted
  | Completes j => j < running
  | Resumes j => j < finished ∧ unstarted = 0
  | Enters => 0 < woken ∧ unstarted = 0
  | Returns =>
      over = true ∨ (unstarted = 0 ∧ running = 0 ∧ finished = 0 ∧ woken = 0)
  end.
Proof.
  unfold turn_of. destruct over; repeat case_decide; try lia; auto.
Qed.

Lemma to_thread_eq t args st r w :
  call t args (world st) = (r, w) →
  to_thread t args st = (r, emit (EvCall (task_name t) r) (set_world w st)).
Proof. intros H. unfold to_thread. by rewrite H. Qed.

(** [run_task] is its two steps taken one after the other. *)
Lemma run_task_two_steps t args st :
  run_task t args st
  = run_task_resumed t (to_thread t args st).1 (to_thread t args st).2.
Proof.
  unfold run_task, run_task_resumed.
  by destruct (to_thread t args st) as [[v|e] st'].
Qed.

Lemma run_task_resumed_state t (r : outcome value) st :
  (run_task_resumed t r st).2
  = match r with
    | Return _ => st
    | Raise e => emit (EvLog ERROR (MsgErrorInTask (task_name t) e)) st
    end.
Proof. by destruct r. Qed.

Lemma settle_spec (failed : option exn) (i : nat) (r : outcome value)
    (slots : list (option value)) :
  length (settle failed i r slots).1 = length slots
  ∧ ((settle failed i r slots).2 = None →
     failed = None
     ∧ ∃ v, r = Return v ∧ (settle failed i r slots).1 = <[i := Some v]> slots)
  ∧ (∀ e, (settle failed i r slots).2 = Some e →
          failed = Some e ∨ (failed = None ∧ r = Raise e)).
Proof.
  destruct failed as [e0|], r as [v|e1]; simpl; rewrite ?length_insert;
    split_and!; try done; try (intros e ?; simplify_eq; auto).
  intros _. eauto.
Qed.

Lemma gather_loop_S args (fuel : nat) (running : list (nat * task World Args))
    (finished : list (nat * task World Args * outcome value))
    (slots : list (option value)) (failed : option exn) st :
  gather_loop args (S fuel) running finished slots failed st
  = match turn_of (next_choice (length running + length finished + 2) st).1
            0 (length running) (length finished) 0
            (bool_decide (is_Some failed)) with
    | Completes j =>
        match running !! j with
        | Some (i, t) =>
            gather_loop args fuel (delete j running)
              (finished
               ++ [(i, t, (to_thread t args
                             (next_choice (length running + length finished + 2) st).2).1)])
              slots failed
              (to_thread t args
                 (next_choice (length running + length finished + 2) st).2).2
        | None =>
            (Return slots, (next_choice (length running + length finished + 2) st).2)
        end
    | Resumes j =>
        match finished !! j with
        | Some (i, t, r) =>
            gather_loop args fuel running (delete j finished)
              (settle failed i r slots).1 (settle failed i r slots).2
              (run_task_resumed t r
                 (next_choice (length running + length finished + 2) st).2).2
        | None =>
            (Return slots, (next_choice (length running + length finished + 2) st).2)
        end
    | _ =>
        match failed with
        | Some e =>
            (Raise e, (next_choice (length running + length finished + 2) st).2)
        | None =>
            (Return slots, (next_choice (length running + length finished + 2) st).2)
        end
    end.
Proof.
  cbn [gather_loop].
  destruct (next_choice (length running + length finished + 2) st) as [k st1].
  cbn [fst snd]. destruct (turn_of _ _ _ _ _ _); try done.
  - destruct (running !! k0) as [[i t]|]; [|done].
    by destruct (to_thread t args st1).
  - destruct (finished !! k0) as [[[i t] r]|]; [|done].
    destruct (run_task_resumed t r st1). by destruct (settle failed i r slots).
Qed.

Lemma run_task_trace t args st :
  ∃ tr, trace (run_task t args st).2 = trace st ++ tr.
Proof.
  unfold run_task, to_thread. destruct (call t args (world st)) as [[v|e] w]; simpl.
  - eauto.
  - rewrite <- app_assoc. eauto.
Qed.

(** What running units in order produces is what each one produces in
    some world. *)
Lemma run_in_order_outcomes args (ts : list (task World Args)) :
  ∀ (rs : list (outcome value)) w w',
    run_in_order args ts w = (rs, w') →
    Forall2 (λ t r, ∃ w0, (call t args w0).1 = r) ts rs.
Proof.
  induction ts as [|t ts IH]; intros rs w w' Hrun.
  - simpl in Hrun. simplify_eq. constructor.
  - simpl in Hrun. destruct (call t args w) as [r w1] eqn:Hc.
    destruct (run_in_order args ts w1) as [rs' w2] eqn:Hrest. simplify_eq.
    constructor; [|by eapply IH]. exists w. by rewrite Hc.
Qed.

Lemma record_outcome args (done : list (nat * task World Args * outcome value))
    (w w' : World) (i : nat) t (r : outcome value) :
  run_in_order args done.*1.*2 w = (done.*2, w') →
  (i, t, r) ∈ done →
  ∃ w0, (call t args w0).1 = r.
Proof.
  intros Hord Hin. apply run_in_order_outcomes in Hord.
  apply list_elem_of_lookup in Hin as [j Hj].
  apply (Forall2_lookup_lr _ _ _ j t r Hord).
  - by rewrite !list_lookup_fmap, Hj.
  - by rewrite list_lookup_fmap, Hj.
Qed.

(** A record in which every unit returned is a record of values. *)
Lemma record_returned (done : list (nat * task World Args * outcome value)) :
  Forall (λ c, is_return c.2 = true) done →
  ∃ completed : list (nat * task World Args * value),
    done = (λ c, (c.1, Return c.2)) <$> completed.
Proof.
  induction 1 as [|[c [v|e]] done Hc _ [completed ->]]; [by exists []| |done].
  by exists ((c, v) :: completed).
Qed.

Lemma calls_only (tr : list event) :
  Forall (λ ev, is_call ev = true) tr →
  tr = (λ c, EvCall c.1 c.2) <$> calls tr.
Proof.
  induction 1 as [|[] tr Hev _ IH]; try done. simpl. f_equal. exact IH.
Qed.

Lemma sleeps_none (tr : list event) :
  Forall (λ ev, is_sleep ev = false) tr → sleeps tr = [].
Proof. induction 1 as [|[] tr Hev _ IH]; try done. Qed.

(** The children of a [gather], whatever the units do and whatever the
    scheduling decisions.  [done] records the units whose thread came
    to its end before the awaiting coroutine was resumed, in that
    order. *)
Lemma gather_loop_runs args (fuel : nat) :
  ∀ (running : list (nat * task World Args))
    (finished : list (nat * task World Args * outcome value))
    (slots : list (option value)) (failed : option exn) st,
    2 * length running + length finished < fuel →
    NoDup (running.*1 ++ finished.*1.*1) →
    Forall (λ i, i < length slots) (running.*1 ++ finished.*1.*1) →
    ∃ r st' (done : list (nat * task World Args * outcome value)) tr,
      gather_loop args fuel running finished slots failed st = (r, st')
      ∧ trace st' = trace st ++ tr
      ∧ done.*1 ⊆+ running
      ∧ calls tr = record_calls done
      ∧ run_in_order args done.*1.*2 (world st) = (done.*2, world st')
      ∧ Forall (λ ev, is_call ev = true
                      ∨ ∃ i t e, (i, t, Raise e) ∈ finished ++ done
                                 ∧ ev = EvLog ERROR (MsgErrorInTask (task_name t) e))
          tr
      ∧ (∀ slots', r = Return slots' →
           failed = None
           ∧ done.*1 ≡ₚ running
           ∧ Forall (λ c, is_return c.2 = true) (finished ++ done)
           ∧ length slots' = length slots
           ∧ (∀ i t v, (i, t, Return v) ∈ finished ++ done →
                       slots' !! i = Some (Some v))
           ∧ (∀ i, i ∉ running.*1 ++ finished.*1.*1 → slots' !! i = slots !! i))
      ∧ (∀ e, r = Raise e →
           failed = Some e
           ∨ ∃ i t head tail,
               (i, t, Raise e) ∈ finished ++ done
               ∧ tr = head ++ EvLog ERROR (MsgErrorInTask (task_name t) e) :: tail
               ∧ ((i, t, Raise e) ∈ finished
                  ∨ EvCall (task_name t) (Raise e) ∈ head)).
Proof.
  induction fuel as [|fuel IH]; intros running finished slots failed st Hfuel Hnd Hlt;
    [lia|].
  rewrite gather_loop_S.
  pose proof (next_choice_world (length running + length finished + 2) st) as Hw1.
  pose proof (next_choice_trace (length running + length finished + 2) st) as Ht1.
  destruct (next_choice (length running + length finished + 2) st) as [k st1].
  cbn [fst snd] in *.
  pose proof (turn_of_spec k 0 (length running) (length finished) 0
                (bool_decide (is_Some failed))) as Hturn.
  assert (∃ r st',
            match failed with
            | Some e => (Raise e, st1)
            | None => (@Return (list (option value)) slots, st1)
            end = (r, st')
            ∧ st' = st1 ∧ (∀ slots', r = Return slots' → failed = None ∧ slots' = slots)
            ∧ (∀ e, r = Raise e → failed = Some e)) as Hend.
  { destruct failed as [e|]; eexists _, _; split_and!; try done;
      intros ? ?; by simplify_eq. }
  destruct (turn_of k 0 (length running) (length finished) 0
              (bool_decide (is_Some failed))) as [|j|j| |]; [lia| | |lia|].
  - (* the unit of a running child is done *)
    destruct (lookup_lt_is_Some_2 running j Hturn) as [[i t] Hit]. rewrite Hit.
    destruct (call t args (world st1)) as [r w] eqn:Hc.
    rewrite (to_thread_eq _ _ _ _ _ Hc). cbn [fst snd].
    pose proof (delete_Permutation _ _ _ Hit) as Hperm.
    assert (running.*1 ++ finished.*1.*1
            ≡ₚ (delete j running).*1 ++ (finished ++ [(i, t, r)]).*1.*1) as Hidx.
    { rewrite Hperm at 1. rewrite !fmap_app. simpl.
      rewrite (app_assoc _ _ [i]). by rewrite <- Permutation_cons_append. }
    destruct (IH (delete j running) (finished ++ [(i, t, r)]) slots failed
                (emit (EvCall (task_name t) r) (set_world w st1)))
      as (r' & st' & done & tr & Hloop & Htr & Hsub & Hcalls & Hord & Hev & Hret & Hraise).
    { rewrite length_delete by eauto. rewrite length_app. simpl. lia. }
    { by rewrite <- Hidx. }
    { by rewrite <- Hidx. }
    exists r', st', ((i, t, r) :: done), (EvCall (task_name t) r :: tr). split_and!.
    + done.
    + rewrite Htr. simpl. rewrite Ht1, <- app_assoc. done.
    + rewrite fmap_cons. simpl. rewrite Hperm. by apply submseteq_skip.
    + unfold record_calls. rewrite fmap_cons, calls_cons_call. simpl.
      f_equal. exact Hcalls.
    + rewrite !fmap_cons. cbn [run_in_order fst snd]. rewrite <- Hw1, Hc.
      simpl in Hord. by rewrite Hord.
    + constructor; [by left|]. eapply Forall_impl; [exact Hev|].
      intros ev [?|(i' & t' & e & Hin & ->)]; [by left|].
      right. exists i', t', e. split; [|done]. by rewrite <- app_assoc in Hin.
    + intros slots' ->.
      destruct (Hret slots' eq_refl) as (Hf & Hp & Hall & Hlen & Hdone & Hrest).
      split_and!; try done.
      * rewrite fmap_cons, Hperm. simpl. by rewrite Hp.
      * by rewrite <- app_assoc in Hall.
      * intros i' t' v Hin. apply (Hdone i' t' v). by rewrite <- app_assoc.
      * intros i' Hi'. apply Hrest. by rewrite <- Hidx.
    + intros e ->.
      destruct (Hraise e eq_refl) as [?|(i' & t' & head & tail & Hin & -> & Hwhere)];
        [by left|].
      right. exists i', t', (EvCall (task_name t) r :: head), tail.
      split_and!; [by rewrite <- app_assoc in Hin|done|].
      destruct Hwhere as [[Hf|Hnew]%elem_of_app|Hhead].
      * by left.
      * apply list_elem_of_singleton in Hnew. simplify_eq. right. by left.
      * right. by right.
  - (* a child whose unit is done is resumed *)
    destruct Hturn as [Hj _].
    destruct (lookup_lt_is_Some_2 finished j Hj) as [[[i t] r] Hit]. rewrite Hit.
    pose proof (delete_Permutation _ _ _ Hit) as Hperm.
    assert (running.*1 ++ finished.*1.*1
            ≡ₚ i :: (running.*1 ++ (delete j finished).*1.*1)) as Hidx.
    { rewrite Hperm at 1. rewrite !fmap_cons. simpl. by rewrite Permutation_middle. }
    rewrite Hidx in Hnd, Hlt.
    apply NoDup_cons in Hnd as [Hfresh Hnd]. apply Forall_cons in Hlt as [Hi Hlt].
    destruct (settle_spec failed i r slots) as (Hslen & Hsnone & Hssome).
    rewrite run_task_resumed_state.
    set (logs := match r with
                 | Return _ => []
                 | Raise e => [EvLog ERROR (MsgErrorInTask (task_name t) e)]
                 end).
    set (st2 := match r with
                | Return _ => st1
                | Raise e => emit (EvLog ERROR (MsgErrorInTask (task_name t) e)) st1
                end).
    assert (trace st2 = trace st ++ logs ∧ world st2 = world st) as [Ht2 Hw2].
    { subst st2 logs. destruct r; simpl; rewrite ?app_nil_r; by rewrite ?Ht1, ?Hw1. }
    destruct (IH running (delete j finished) (settle failed i r slots).1
                (settle failed i r slots).2 st2)
      as (r' & st' & done & tr & Hloop & Htr & Hsub & Hcalls & Hord & Hev & Hret & Hraise).
    { rewrite length_delete by eauto. lia. }
    { done. }
    { by rewrite Hslen. }
    assert (∀ c, c ∈ delete j finished ++ done → c ∈ finished ++ done) as Hmem.
    { intros c [Hc|Hc]%elem_of_app; apply elem_of_app; [left|by right].
      rewrite Hperm. by right. }
    assert ((i, t, r) ∈ finished ++ done) as Hhere.
    { apply elem_of_app. left. by eapply list_elem_of_lookup_2. }
    exists r', st', done, (logs ++ tr). split_and!.
    + done.
    + by rewrite Htr, Ht2, <- app_assoc.
    + done.
    + rewrite calls_app, Hcalls. subst logs. by destruct r.
    + by rewrite <- Hw2.
    + apply Forall_app. split.
      * subst logs. destruct r as [v|e]; [constructor|].
        apply Forall_singleton. right. by exists i, t, e.
      * eapply Forall_impl; [exact Hev|].
        intros ev [?|(i' & t' & e & Hin & ->)]; [by left|].
        right. exists i', t', e. split; [by apply Hmem|done].
    + intros slots' ->.
      destruct (Hret slots' eq_refl) as (Hf & Hp & Hall & Hlen & Hdone & Hrest).
      destruct (Hsnone Hf) as (-> & v & -> & Hins).
      rewrite Hins in *. rewrite length_insert in Hlen.
      split_and!; try done.
      * rewrite Hperm. simpl. by constructor.
      * intros i' t' v' [Hin|Hin]%elem_of_app.
        -- rewrite Hperm in Hin. apply elem_of_cons in Hin as [Heq|Hin].
           ++ simplify_eq. rewrite Hrest by done. by apply list_lookup_insert_eq.
           ++ apply (Hdone i' t' v'). apply elem_of_app. by left.
        -- apply (Hdone i' t' v'). apply elem_of_app. by right.
      * intros i' Hi'. rewrite Hidx in Hi'. apply not_elem_of_cons in Hi' as [Hne Hi'].
        rewrite Hrest by done. by apply list_lookup_insert_ne.
    + intros e ->.
      destruct (Hraise e eq_refl) as [Hf|(i' & t' & head & tail & Hin & -> & Hwhere)].
      * destruct (Hssome e Hf) as [?|[-> ->]]; [by left|].
        right. exists i, t, [], tr. split_and!; [done|done|].
        left. by eapply list_elem_of_lookup_2.
      * right. exists i', t', (logs ++ head), tail.
        split_and!; [by apply Hmem|by rewrite <- app_assoc|].
        destruct Hwhere as [Hf|Hhead].
        -- left. rewrite Hperm. by right.
        -- right. apply elem_of_app. by right.
  - (* the awaiting coroutine is resumed *)
    destruct Hend as (r & st' & -> & -> & Hret & Hraise).
    exists r, st1, [], []. rewrite app_nil_r. split_and!; try done.
    + apply submseteq_nil_l.
    + by rewrite Hw1.
    + intros slots' Hr. destruct (Hret slots' Hr) as [-> ->].
      destruct Hturn as [Hover|(_ & Hr0 & Hf0 & _)]; [done|].
      destruct running; [|done]. destruct finished; [|done].
      split_and!; try done. intros ??? H. by apply elem_of_nil in H.
    + intros e Hr. left. by apply Hraise.
Qed.

Lemma slots_all_filled (slots : list (option value)) :
  (∀ i, i < length slots → ∃ v, slots !! i = Some (Some v)) →
  slots = Some <$> omap id slots.
Proof.
  induction slots as [|o slots IH]; intros H; [done|].
  destruct (H 0) as [v Hv]; [simpl; lia|]. simpl in Hv. simplify_eq. simpl.
  f_equal. apply IH. intros i Hi. apply (H (S i)). simpl. lia.
Qed.

Lemma indexed_fst {A} (l : list A) : (imap pair l).*1 = seq 0 (length l).
Proof.
  rewrite fmap_imap.
  rewrite (imap_ext _ (λ j _, j) l) by done.
  by rewrite (imap_seq_0 l (λ j, j)), list_fmap_id.
Qed.

Lemma indexed_snd {A} (l : list A) : (imap pair l).*2 = l.
Proof.
  rewrite fmap_imap.
  rewrite (imap_ext _ (λ _ x, x) l) by done.
  apply list_eq. intros i. rewrite list_lookup_imap. by destruct (l !! i).
Qed.

(** Slots filled by a complete record are the results by position. *)
Lemma slots_gathered args (coros : list (task World Args)) (w : World)
    (completed : list (nat * task World Args * value))
    (slots : list (option value)) (w' : World) :
  length slots = length coros →
  completed.*1 ≡ₚ imap pair coros →
  run_in_order args completed.*1.*2 w = (Return <$> completed.*2, w') →
  (∀ i t v, (i, t, v) ∈ completed → slots !! i = Some (Some v)) →
  gathered args coros w completed (omap id slots) w'.
Proof.
  intros Hlen Hp Hrun Hdone.
  assert (∀ i t, coros !! i = Some t → ∃ v, (i, t, v) ∈ completed
                                            ∧ slots !! i = Some (Some v)) as Hall.
  { intros i t Hit.
    assert ((i, t) ∈ completed.*1) as ([c v] & ? & Hin)%list_elem_of_fmap.
    { rewrite Hp. by apply (elem_of_lookup_imap_2 pair). }
    simpl in *. subst c. eauto. }
  assert (slots = Some <$> omap id slots) as Hslots.
  { apply slots_all_filled. intros i Hi. rewrite Hlen in Hi.
    destruct (lookup_lt_is_Some_2 coros i Hi) as [t Hit].
    destruct (Hall i t Hit) as (v & _ & ?). eauto. }
  assert (∀ i v, slots !! i = Some (Some v) → omap id slots !! i = Some v) as Hget.
  { intros i v Hi. pose proof (f_equal (λ l, l !! i) Hslots) as Hx. simpl in Hx.
    rewrite list_lookup_fmap, Hi in Hx.
    destruct (omap id slots !! i); by simplify_eq/=. }
  unfold gathered. split_and!; try done.
  - rewrite <- Hlen. rewrite Hslots at 2. by rewrite length_fmap.
  - intros i t v Hin. eauto.
  - intros i t Hit. destruct (Hall i t Hit) as (v & ? & ?). eauto.
Qed.

Lemma record_values (completed : list (nat * task World Args * value)) :
  ((λ c : nat * task World Args * value, (c.1, @Return value c.2)) <$> completed).*1
  = completed.*1
  ∧ ((λ c : nat * task World Args * value, (c.1, @Return value c.2)) <$> completed).*2
    = Return <$> completed.*2
  ∧ record_calls ((λ c, (c.1, Return c.2)) <$> completed)
    = (λ c, (task_name c.1.2, Return c.2)) <$> completed.
Proof.
  unfold record_calls. rewrite <- !list_fmap_compose. by split_and!.
Qed.

(** The whole [gather], whatever the units do. *)
Lemma gather_runs args (coros : list (task World Args)) st :
  ∃ r st' (done : list (nat * task World Args * outcome value)) tr,
    gather coros args st = (r, st')
    ∧ trace st' = trace st ++ tr
    ∧ done.*1 ⊆+ imap pair coros
    ∧ calls tr = record_calls done
    ∧ run_in_order args done.*1.*2 (world st) = (done.*2, world st')
    ∧ Forall (λ ev, is_call ev = true
                    ∨ ∃ i t e, (i, t, Raise e) ∈ done
                               ∧ ev = EvLog ERROR (MsgErrorInTask (task_name t) e))
        tr
    ∧ (∀ vs, r = Return vs →
         ∃ completed,
           done = (λ c, (c.1, Return c.2)) <$> completed
           ∧ gathered args coros (world st) completed vs (world st'))
    ∧ (∀ e, r = Raise e →
         ∃ i t head tail,
           (i, t, Raise e) ∈ done
           ∧ tr = head ++ EvLog ERROR (MsgErrorInTask (task_name t) e) :: tail
           ∧ EvCall (task_name t) (Raise e) ∈ head).
Proof.
  unfold gather. rewrite bind_eq.
  destruct (gather_loop_runs args (S (2 * length coros)) (imap pair coros) []
              (replicate (length coros) None) None st)
    as (r & st' & done & tr & Hloop & Htr & Hsub & Hcalls & Hord & Hev & Hret & Hraise).
  { rewrite length_imap. simpl. lia. }
  { rewrite app_nil_r, indexed_fst. apply NoDup_seq. }
  { rewrite app_nil_r, indexed_fst. apply Forall_forall. intros i Hi.
    apply elem_of_seq in Hi. rewrite length_replicate. lia. }
  rewrite Hloop. change ([] ++ done) with done in *. destruct r as [slots|e].
  - eexists _, st', done, tr. split; [reflexivity|].
    split_and!; try done.
    + intros vs ?. simplify_eq.
      destruct (Hret slots eq_refl) as (_ & Hp & Hall & Hlen & Hdone & _).
      simpl in Hall, Hdone. rewrite length_replicate in Hlen.
      destruct (record_returned done Hall) as [completed ->].
      destruct (record_values completed) as (H1 & H2 & _).
      rewrite H1 in Hp, Hord. rewrite H2 in Hord.
      exists completed. split; [done|].
      apply slots_gathered; try done.
      intros i t v Hin. apply (Hdone i t v).
      apply list_elem_of_fmap. by exists (i, t, v).
  - eexists _, st', done, tr. split; [reflexivity|]. split_and!; try done.
    intros e' ?. simplify_eq.
    destruct (Hraise e' eq_refl) as [?|(i & t & head & tail & Hin & -> & Hwhere)];
      [done|].
    exists i, t, head, tail. split_and!; [done|done|].
    destruct Hwhere as [Hnil|?]; [by apply elem_of_nil in Hnil|done].
Qed.

Lemma gather_succeeds args (coros : list (task World Args)) st :
  Forall (succeeds args) coros →
  ∃ completed vs st',
    gather coros args st = (Return vs, st')
    ∧ gathered args coros (world st) completed vs (world st')
    ∧ trace st'
      = trace st ++ ((λ c, EvCall (task_name c.1.2) (Return c.2)) <$> completed).
Proof.
  intros Hok.
  destruct (gather_runs args coros st)
    as (r & st' & done & tr & Hrun & Htr & Hsub & Hcalls & Hord & Hev & Hret & Hraise).
  assert (∀ i t e, (i, t, Raise e) ∈ done → False) as Hnone.
  { intros i t e Hin.
    destruct (record_outcome _ _ _ _ _ _ _ Hord Hin) as (w0 & Hw0).
    assert ((i, t) ∈ imap pair coros) as Hit.
    { eapply elem_of_submseteq; [|exact Hsub].
      apply list_elem_of_fmap. by exists (i, t, Raise e). }
    apply elem_of_lookup_imap in Hit as (j & y & ? & Hy). simplify_eq.
    rewrite Forall_forall in Hok.
    specialize (Hok y (list_elem_of_lookup_2 _ _ _ Hy) w0). by rewrite Hw0 in Hok. }
  destruct r as [vs|e].
  - destruct (Hret vs eq_refl) as (completed & -> & Hg).
    exists completed, vs, st'. split_and!; try done.
    rewrite Htr. f_equal.
    destruct (record_values completed) as (_ & _ & Hrc).
    rewrite Hrc in Hcalls.
    rewrite (calls_only tr), Hcalls.
    + by rewrite <- list_fmap_compose.
    + eapply Forall_impl; [exact Hev|].
      intros ev [?|(i & t & e & Hin & _)]; [done|]. by destruct (Hnone i t e).
  - destruct (Hraise e eq_refl) as (i & t & _ & _ & Hin & _).
    by destruct (Hnone i t e).
Qed.

Lemma run_in_parallel_succeeds args (tasks : list (task World Args)) st :
  Forall (succeeds args) tasks →
  ∃ completed vs st',
    run_in_parallel tasks args st = (Return vs, st')
    ∧ gathered args tasks (world st) completed vs (world st')
    ∧ trace st'
      = trace st
        ++ [EvLog INFO (MsgRunningParallel (length tasks))]
        ++ ((λ c, EvCall (task_name c.1.2) (Return c.2)) <$> completed)
        ++ [EvLog INFO MsgParallelCompleted].
Proof.
  intros Hok. unfold run_in_parallel. rewrite bind_log, bind_eq.
  destruct (gather_succeeds args tasks
              (emit (EvLog INFO (MsgRunningParallel (length tasks))) st) Hok)
    as (completed & vs & st' & Hg & Hgath & Htr).
  rewrite Hg, bind_log. eexists completed, vs, _. split_and!; [done|done|].
  simpl. rewrite Htr. simpl. by rewrite <- !app_assoc.
Qed.

(** C3.  Units that all succeed, whatever the order in which they
    finish: the parallel runner returns a list as long as the input
    whose i-th element is what the i-th unit returned in this run.
    [completed] records the run: each unit once, with its position and
    its result, in order of completion. *)
Theorem run_in_parallel_submission_order args (tasks : list (task World Args)) st :
  Forall (succeeds args) tasks →
  ∃ completed vs st',
    run_in_parallel tasks args st = (Return vs, st')
    ∧ length vs = length tasks
    ∧ completed.*1 ≡ₚ imap pair tasks
    ∧ run_in_order args completed.*1.*2 (world st) = (Return <$> completed.*2, world st')
    ∧ calls (drop (length (trace st)) (trace st'))
      = (λ c, (task_name c.1.2, Return c.2)) <$> completed
    ∧ (∀ i t v, (i, t, v) ∈ completed → vs !! i = Some v)
    ∧ (∀ i t, tasks !! i = Some t → ∃ v, (i, t, v) ∈ completed ∧ vs !! i = Some v).
Proof.
  intros Hok.
  destruct (run_in_parallel_succeeds args tasks st Hok)
    as (completed & vs & st' & Hrun & (Hlen & Hp & Hord & Hdone & Hall) & Htr).
  exists completed, vs, st'. split_and!; try done.
  rewrite Htr, drop_app_length, !calls_app.
  rewrite (calls_call_events (λ c, task_name c.1.2) (λ c, Return c.2)).
  simpl. by rewrite app_nil_r.
Qed.

(** The parallel runner, whatever the units do: the history it leaves
    between its two log entries, the second of which is written only
    when it returns. *)
Lemma run_in_parallel_runs args (tasks : list (task World Args)) st :
  ∃ r st' (done : list (nat * task World Args * outcome value)) tr,
    run_in_parallel tasks args st = (r, st')
    ∧ trace st'
      = trace st ++ EvLog INFO (MsgRunningParallel (length tasks)) :: tr
        ++ (if is_return r then [EvLog INFO MsgParallelCompleted] else [])
    ∧ done.*1 ⊆+ imap pair tasks
    ∧ calls tr = record_calls done
    ∧ run_in_order args done.*1.*2 (world st) = (done.*2, world st')
    ∧ Forall (λ ev, is_call ev = true
                    ∨ ∃ i t e, (i, t, Raise e) ∈ done
                               ∧ ev = EvLog ERROR (MsgErrorInTask (task_name t) e))
        tr
    ∧ (∀ vs, r = Return vs → Forall (λ c, is_return c.2 = true) done)
    ∧ (∀ e, r = Raise e →
         ∃ i t head tail,
           (i, t, Raise e) ∈ done
           ∧ tr = head ++ EvLog ERROR (MsgErrorInTask (task_name t) e) :: tail
           ∧ EvCall (task_name t) (Raise e) ∈ head).
Proof.
  unfold run_in_parallel. rewrite bind_log, bind_eq.
  destruct (gather_runs args tasks
              (emit (EvLog INFO (MsgRunningParallel (length tasks))) st))
    as (r & st' & done & tr & Hrun & Htr & Hsub & Hcalls & Hord & Hev & Hret & Hraise).
  rewrite Hrun. destruct r as [vs|e].
  - rewrite bind_log. eexists _, _, done, tr. split; [reflexivity|].
    split_and!; try done.
    + simpl. rewrite Htr. simpl. by rewrite <- !app_assoc.
    + intros vs' _. destruct (Hret vs eq_refl) as (completed & -> & _).
      apply Forall_fmap. by apply Forall_true.
  - eexists _, _, done, tr. split; [reflexivity|]. split_and!; try done.
    simpl. rewrite Htr. simpl. by rewrite <- !app_assoc, app_nil_r.
Qed.

Lemma record_unit args (tasks : list (task World Args))
    (done : list (nat * task World Args * outcome value)) (w w' : World)
    (i : nat) t (r : outcome value) :
  done.*1 ⊆+ imap pair tasks →
  run_in_order args done.*1.*2 w = (done.*2, w') →
  (i, t, r) ∈ done →
  tasks !! i = Some t ∧ ∃ w0, (call t args w0).1 = r.
Proof.
  intros Hsub Hord Hin. split; [|by eapply record_outcome].
  assert ((i, t) ∈ imap pair tasks) as Hit.
  { eapply elem_of_submseteq; [|exact Hsub].
    apply list_elem_of_fmap. by exists (i, t, r). }
  apply elem_of_lookup_imap in Hit as (j & y & ? & Hy). by simplify_eq.
Qed.

(** With a unit that always fails the runner cannot return. *)
Lemma run_in_parallel_fails args (tasks : list (task World Args)) st :
  Exists (always_fails args) tasks →
  ∃ e st' (failed : task World Args) tr,
    run_in_parallel tasks args st = (Raise e, st')
    ∧ failed ∈ tasks
    ∧ (∃ w, (call failed args w).1 = Raise e)
    ∧ trace st' = trace st ++ tr
    ∧ (∃ head middle tail,
         tr = head ++ EvCall (task_name failed) (Raise e) :: middle
              ++ EvLog ERROR (MsgErrorInTask (task_name failed) e) :: tail)
    ∧ ¬ (EvLog INFO MsgParallelCompleted ∈ tr)
    ∧ length (calls tr) ≤ length tasks.
Proof.
  intros Hex.
  destruct (run_in_parallel_runs args tasks st)
    as (r & st' & done & tr & Hrun & Htr & Hsub & Hcalls & Hord & Hev & Hret & Hraise).
  destruct r as [vs|e].
  - exfalso. specialize (Hret vs eq_refl).
    apply Exists_exists in Hex as (t & Hin & Hbad).
    destruct (gather_runs args tasks
                (emit (EvLog INFO (MsgRunningParallel (length tasks))) st))
      as (r2 & st2 & done2 & tr2 & Hrun2 & _ & _ & _ & _ & _ & Hret2 & _).
    unfold run_in_parallel in Hrun. rewrite bind_log, bind_eq, Hrun2 in Hrun.
    destruct r2 as [vs2|e2]; [|done].
    destruct (Hret2 vs2 eq_refl) as (completed & _ & (_ & Hp & Hord3 & _)).
    apply list_elem_of_lookup in Hin as [i Hi].
    assert ((i, t) ∈ completed.*1) as ([c v] & Heq & Hc)%list_elem_of_fmap.
    { rewrite Hp. by apply (elem_of_lookup_imap_2 pair). }
    simpl in Heq. subst c.
    apply run_in_order_outcomes in Hord3.
    apply list_elem_of_lookup in Hc as [j Hj].
    destruct (Forall2_lookup_lr _ _ _ j t (Return v) Hord3) as (w0 & Hw0).
    { by rewrite !list_lookup_fmap, Hj. }
    { by rewrite !list_lookup_fmap, Hj. }
    specialize (Hbad w0). by rewrite Hw0 in Hbad.
  - destruct (Hraise e eq_refl) as (i & t & head & tail & Hin & -> & Hcall).
    destruct (record_unit _ _ _ _ _ _ _ _ Hsub Hord Hin) as (Hit & Hw).
    apply list_elem_of_split in Hcall as (head1 & head2 & ->).
    simpl in Htr. rewrite app_nil_r in Htr.
    eexists e, st', t, _. split_and!; try done.
    + by eapply list_elem_of_lookup_2.
    + exists (EvLog INFO (MsgRunningParallel (length tasks)) :: head1), head2, tail.
      by rewrite <- !app_assoc.
    + intros [Heq|Hin']%elem_of_cons; [done|].
      rewrite Forall_forall in Hev.
      destruct (Hev _ Hin') as [?|(? & ? & ? & _ & ?)]; done.
    + change (calls (EvLog INFO (MsgRunningParallel (length tasks))
                     :: (head1 ++ EvCall (task_name t) (Raise e) :: head2)
                     ++ EvLog ERROR (MsgErrorInTask (task_name t) e) :: tail))
        with (calls ((head1 ++ EvCall (task_name t) (Raise e) :: head2)
                     ++ EvLog ERROR (MsgErrorInTask (task_name t) e) :: tail)).
      rewrite Hcalls. unfold record_calls. rewrite length_fmap.
      apply submseteq_length in Hsub. by rewrite length_fmap, length_imap in Hsub.
Qed.

(** A wait that returns has seen no child raise. *)
Lemma run_in_parallel_return_calls args (tasks : list (task World Args)) st vs st' :
  run_in_parallel tasks args st = (Return vs, st') →
  ∃ tr, trace st' = trace st ++ tr
        ∧ Forall (λ c, is_return c.2 = true) (calls tr).
Proof.
  intros Hrun.
  destruct (run_in_parallel_runs args tasks st)
    as (r & st2 & done & tr & Hrun2 & Htr & _ & Hcalls & _ & _ & Hret & _).
  rewrite Hrun in Hrun2. simplify_eq. specialize (Hret vs eq_refl).
  eexists. split; [exact Htr|]. cbn [is_return].
  change (calls (EvLog INFO (MsgRunningParallel (length tasks)) :: tr
                 ++ [EvLog INFO MsgParallelCompleted]))
    with (calls (tr ++ [EvLog INFO MsgParallelCompleted])).
  rewrite calls_app, Hcalls. simpl. rewrite app_nil_r.
  unfold record_calls. apply Forall_fmap. done.
Qed.

(** C4.  Whatever the order in which the units finish and whatever
    the other units do: a run that returns a list has seen every
    invocation return, so a run in which a unit raises returns none;
    and with units of which at least one fails the parallel runner
    raises and hands the caller no list.  The error is that of a unit
    of the input, which was invoked and whose failure was logged after
    that; the entry that reports completion is never written; the
    other units may have run to their end meanwhile, no more
    invocations than units, and what they returned is handed to
    nobody. *)
Theorem run_in_parallel_fail_fast args (tasks : list (task World Args)) st :
  (∀ vs st',
     run_in_parallel tasks args st = (Return vs, st') →
     ∃ tr, trace st' = trace st ++ tr
           ∧ Forall (λ c, is_return c.2 = true) (calls tr))
  ∧ (Exists (always_fails args) tasks →
     ∃ e st' (failed : task World Args) tr,
       run_in_parallel tasks args st = (Raise e, st')
       ∧ (∀ vs, (run_in_parallel tasks args st).1 ≠ Return vs)
       ∧ failed ∈ tasks
       ∧ (∃ w, (call failed args w).1 = Raise e)
       ∧ trace st' = trace st ++ tr
       ∧ (∃ head middle tail,
            tr = head ++ EvCall (task_name failed) (Raise e) :: middle
                 ++ EvLog ERROR (MsgErrorInTask (task_name failed) e) :: tail)
       ∧ ¬ (EvLog INFO MsgParallelCompleted ∈ tr)
       ∧ length (calls tr) ≤ length tasks).
Proof.
  split.
  - intros vs st'. apply run_in_parallel_return_calls.
  - intros Hex.
    destruct (run_in_parallel_fails args tasks st Hex)
      as (e & st' & failed & tr & Hrun & H).
    exists e, st', failed, tr. split; [done|]. split; [|done].
    intros vs. by rewrite Hrun.
Qed.

(** ** The rate-limited batcher *)

Lemma steps_call_events (log : list (nat * task World Args * value)) :
  steps (call_events log) = call_events log.
Proof.
  induction log as [|c log IH]; [done|].
  unfold call_events in *. rewrite fmap_cons. unfold steps in *.
  rewrite filter_cons_True by done. by rewrite IH.
Qed.

Lemma slice_succeeds args (tasks : list (task World Args)) (i j : Z) :
  Forall (succeeds args) tasks → Forall (succeeds args) (slice tasks i j).
Proof. intros H. unfold slice. by apply Forall_take, Forall_drop. Qed.

Lemma rate_limit_loop_cons (tasks : list (task World Args)) (B : Z) (P : Q) args
    (i : Z) (indices : list Z) (acc : list value) st :
  rate_limit_loop tasks B P args (i :: indices) acc st
  = match run_in_parallel (slice tasks i (i + B)) args st with
    | (Return batch_results, st1) =>
        rate_limit_loop tasks B P args indices (acc ++ batch_results)
          (if (i + B <? Z.of_nat (length tasks))%Z
           then emit (EvSleep P) (emit (EvLog INFO (MsgRateLimitReached P)) st1)
           else st1)
    | (Raise e, st1) => (Raise e, st1)
    end.
Proof.
  cbn [rate_limit_loop]. rewrite bind_eq.
  destruct (run_in_parallel _ args st) as [[vs|e] st1]; [|done].
  rewrite bind_eq. by destruct (i + B <? Z.of_nat (length tasks))%Z.
Qed.

Lemma rate_limit_loop_succeeds args (tasks : list (task World Args)) (B : Z) (P : Q) :
  Forall (succeeds args) tasks →
  ∀ (indices : list Z) (acc : list value) st,
    (∀ j i, indices !! j = Some i →
            (i + B < Z.of_nat (length tasks))%Z ↔ S j < length indices) →
    ∃ logs vss st' tr,
      rate_limit_loop tasks B P args indices acc st = (Return (acc ++ concat vss), st')
      ∧ batches_gathered args ((λ i, slice tasks i (i + B)%Z) <$> indices)
          (world st) logs vss (world st')
      ∧ trace st' = trace st ++ tr
      ∧ steps tr = paused P (call_events <$> logs).
Proof.
  intros Hok indices. induction indices as [|i indices IH]; intros acc st Hcond.
  - exists [], [], st, []. simpl. by rewrite !app_nil_r.
  - rewrite rate_limit_loop_cons.
    destruct (run_in_parallel_succeeds args (slice tasks i (i + B)) st)
      as (log & vs & st1 & Hrun & Hg & Htr1); [by apply slice_succeeds|].
    rewrite Hrun.
    set (st2 := if (i + B <? Z.of_nat (length tasks))%Z
                then emit (EvSleep P) (emit (EvLog INFO (MsgRateLimitReached P)) st1)
                else st1).
    assert (world st2 = world st1) as Hw2 by (subst st2; by case_match).
    destruct (IH (acc ++ vs) st2) as (logs & vss & st' & tr & Hloop & Hbg & Htr & Hsteps).
    { intros j i' Hj. rewrite (Hcond (S j) i' Hj). simpl. lia. }
    rewrite Hloop.
    exists (log :: logs), (vs :: vss), st'.
    exists ([EvLog INFO (MsgRunningParallel (length (slice tasks i (i + B))))]
            ++ call_events log ++ [EvLog INFO MsgParallelCompleted]
            ++ (if (i + B <? Z.of_nat (length tasks))%Z
                then [EvLog INFO (MsgRateLimitReached P); EvSleep P] else [])
            ++ tr).
    split_and!.
    + simpl. by rewrite <- app_assoc.
    + rewrite fmap_cons. simpl. exists (world st1). split; [done|]. by rewrite <- Hw2.
    + rewrite Htr. subst st2. unfold call_events.
      destruct (i + B <? Z.of_nat (length tasks))%Z; simpl;
        rewrite Htr1, <- !app_assoc; reflexivity.
    + specialize (Hcond 0 i eq_refl). simpl in Hcond.
      rewrite !steps_app, steps_call_events, Hsteps.
      destruct (Z.ltb_spec (i + B) (Z.of_nat (length tasks))) as [Hlt|Hge].
      * apply Hcond in Hlt. destruct indices as [|i' indices]; [simpl in Hlt; lia|].
        destruct logs as [|log' logs]; [by destruct vss|]. done.
      * destruct indices as [|i' indices]; [|simpl in Hcond; lia].
        destruct logs as [|log' logs]; [|by destruct vss]. done.
Qed.

Lemma ceil_div_gt (n B j : Z) :
  (0 < B)%Z → (j < (n + B - 1) / B ↔ j * B < n)%Z.
Proof.
  intros HB. split; intros H.
  - pose proof (Z.mul_div_le (n + B - 1) B HB). nia.
  - assert (j + 1 ≤ (n + B - 1) / B)%Z; [|lia].
    apply Z.div_le_lower_bound; [done|]. nia.
Qed.

Lemma range_len_positive (n B : Z) :
  (0 < B)%Z → (0 ≤ n)%Z → range_len 0 n B = ((n + B - 1) / B)%Z.
Proof.
  intros HB Hn. unfold range_len.
  destruct (Z.ltb_spec 0 B) as [_|?]; [|lia].
  rewrite Z.sub_0_r. apply Z.max_r.
  apply Z.div_le_lower_bound; lia.
Qed.

Lemma range_lookup (n B : Z) (j : nat) (i : Z) :
  (0 < B)%Z → (0 ≤ n)%Z →
  range 0 n B !! j = Some i ↔ (i = Z.of_nat j * B ∧ Z.of_nat j * B < n)%Z.
Proof.
  intros HB Hn. unfold range. rewrite list_lookup_fmap, range_len_positive by done.
  rewrite <- ceil_div_gt by done. split.
  - intros H. destruct (seqZ 0 _ !! j) as [k|] eqn:Hk; [|done].
    apply lookup_seqZ in Hk as [-> ?]. simpl in H. simplify_eq. lia.
  - intros [-> Hj]. rewrite (lookup_seqZ_lt 0 _ j Hj). simpl. f_equal; lia.
Qed.

Lemma range_length (n B : Z) :
  (0 < B)%Z → (0 ≤ n)%Z → Z.of_nat (length (range 0 n B)) = ((n + B - 1) / B)%Z.
Proof.
  intros HB Hn. unfold range.
  rewrite length_fmap, length_seqZ, range_len_positive by done.
  apply Z2Nat.id. apply Z.div_le_lower_bound; lia.
Qed.

(** In the loop the pause is taken at every index but the last. *)
Lemma range_pause_condition (n B : Z) (j : nat) (i : Z) :
  (0 < B)%Z → (0 ≤ n)%Z →
  range 0 n B !! j = Some i →
  (i + B < n)%Z ↔ S j < length (range 0 n B).
Proof.
  intros HB Hn [-> Hj]%range_lookup; [|done..].
  pose proof (range_length n B HB Hn) as Hlen.
  pose proof (ceil_div_gt n B (Z.of_nat (S j)) HB) as Hc. split; intros H.
  - assert (Z.of_nat (S j) < (n + B - 1) / B)%Z; [apply Hc|]; lia.
  - assert (Z.of_nat (S j) * B < n)%Z; [apply Hc|]; lia.
Qed.

(** The groups, by position: the [j]-th one starts at [j * B]. *)
Lemma batches_lookup (tasks : list (task World Args)) (B : Z) (j : nat)
    (b : list (task World Args)) :
  (0 < B)%Z →
  batches tasks B !! j = Some b ↔
  j * Z.to_nat B < length tasks
  ∧ b = take (Z.to_nat B) (drop (j * Z.to_nat B) tasks).
Proof.
  intros HB. unfold batches. rewrite list_lookup_fmap.
  assert (∀ i, range 0 (Z.of_nat (length tasks)) B !! j = Some i ↔
               (i = Z.of_nat j * B ∧ Z.of_nat j * B < Z.of_nat (length tasks))%Z) as Hr.
  { intros i. apply range_lookup; lia. }
  assert (Z.of_nat j * B = Z.of_nat (j * Z.to_nat B))%Z as Heq by nia.
  assert (slice tasks (Z.of_nat j * B) (Z.of_nat j * B + B)
          = take (Z.to_nat B) (drop (j * Z.to_nat B) tasks)) as Hs.
  { unfold slice. rewrite Heq. f_equal; [|f_equal]; lia. }
  split.
  - intros H. destruct (range _ _ _ !! j) as [i|] eqn:Hi; [|done].
    apply range_lookup in Hi as [-> Hlt]; [|lia..].
    simpl in H. simplify_eq. split; [nia|done].
  - intros [Hlt ->].
    assert (range 0 (Z.of_nat (length tasks)) B !! j = Some (Z.of_nat j * B)%Z) as ->.
    { apply Hr. split; [done|]. nia. }
    simpl. by rewrite Hs.
Qed.

Lemma batches_length (tasks : list (task World Args)) (B : Z) :
  (0 < B)%Z →
  Z.of_nat (length (batches tasks B))
  = ((Z.of_nat (length tasks) + B - 1) / B)%Z.
Proof.
  intros HB. unfold batches. rewrite length_fmap. apply range_length; lia.
Qed.

Lemma concat_chunks {X} (l : list X) (b m : nat) :
  concat ((λ k, take b (drop (k * b) l)) <$> seq 0 m) = take (m * b) l.
Proof.
  induction m as [|m IH]; [done|].
  rewrite seq_S, fmap_app, concat_app, IH. simpl. rewrite app_nil_r.
  rewrite take_take_drop. f_equal. lia.
Qed.

(** The groups are consecutive and leave nothing out. *)
Lemma batches_concat (tasks : list (task World Args)) (B : Z) :
  (0 < B)%Z → concat (batches tasks B) = tasks.
Proof.
  intros HB.
  pose proof (batches_length tasks B HB) as Hlen.
  remember (length (batches tasks B)) as m eqn:Hm.
  assert (batches tasks B
          = (λ k, take (Z.to_nat B) (drop (k * Z.to_nat B) tasks)) <$> seq 0 m) as Heq.
  { apply list_eq. intros j. rewrite list_lookup_fmap.
    destruct (decide (j < m)) as [Hj|Hj].
    - rewrite lookup_seq_lt by done. simpl.
      destruct (lookup_lt_is_Some_2 (batches tasks B) j) as [b Hb]; [lia|].
      rewrite Hb. apply batches_lookup in Hb as [_ ->]; done.
    - rewrite lookup_seq_ge by lia. simpl. apply lookup_ge_None. lia. }
  rewrite Heq, concat_chunks. apply take_ge.
  pose proof (ceil_div_gt (Z.of_nat (length tasks)) B (Z.of_nat m) HB) as H2.
  destruct (decide (length tasks ≤ m * Z.to_nat B)); [done|].
  assert (Z.of_nat m * B < Z.of_nat (length tasks))%Z as H by nia.
  apply H2 in H. lia.
Qed.

(** Every group is full but possibly the last, and none is empty. *)
Lemma batches_sizes (tasks : list (task World Args)) (B : Z) (j : nat)
    (b : list (task World Args)) :
  (0 < B)%Z →
  batches tasks B !! j = Some b →
  0 < length b
  ∧ (Z.of_nat (length b) ≤ B)%Z
  ∧ (S j < length (batches tasks B) → Z.of_nat (length b) = B).
Proof.
  intros HB Hb.
  pose proof (batches_length tasks B HB) as Hlen.
  apply batches_lookup in Hb as [Hj ->]; [|done].
  rewrite length_take, length_drop. split_and!; [lia|lia|].
  intros Hlt.
  assert (Z.of_nat (S j) * B < Z.of_nat (length tasks))%Z as H.
  { apply ceil_div_gt; [done|]. lia. }
  nia.
Qed.

Lemma batches_gathered_length args (bs : list (list (task World Args))) :
  ∀ w logs vss w',
    batches_gathered args bs w logs vss w' → length logs = length bs.
Proof.
  induction bs as [|b bs IH]; intros w [|log logs] [|vs vss] w' H; try done.
  destruct H as (w1 & _ & H). simpl. f_equal. by eapply IH.
Qed.

Lemma sleeps_call_events (log : list (nat * task World Args * value)) :
  sleeps (call_events log) = [].
Proof. by induction log. Qed.

Lemma paused_cons_cons (d : Q) (g g' : list event) (gs : list (list event)) :
  paused d (g :: g' :: gs) = g ++ EvSleep d :: paused d (g' :: gs).
Proof. reflexivity. Qed.

Lemma sleeps_paused (d : Q) (logs : list (list (nat * task World Args * value))) :
  sleeps (paused d (call_events <$> logs)) = replicate (length logs - 1) d.
Proof.
  induction logs as [|log logs IH]; [done|].
  destruct logs as [|log' logs].
  - simpl. by rewrite app_nil_r, sleeps_call_events.
  - rewrite !fmap_cons, paused_cons_cons, sleeps_app, sleeps_call_events.
    rewrite !fmap_cons in IH.
    change (d :: sleeps (paused d (call_events log' :: (call_events <$> logs)))
            = d :: replicate (length logs) d).
    rewrite IH. simpl. by rewrite Nat.sub_0_r.
Qed.

(** C8 as amended.  Units that all succeed, a batch size [B >= 1] and
    a pause [P]: the input is cut into consecutive groups that leave
    nothing out, every group full but possibly the last and none
    empty, [ceil(n/B)] of them; the groups run one after the other,
    each gathered; a pause of [P] separates consecutive groups and none
    follows the last, which makes [ceil(n/B) - 1] pauses when there is
    a unit and none when there is none; the result is the
    concatenation of the groups' result lists, in group order, each in
    the order of its group. *)
Theorem run_with_rate_limit_batches args (tasks : list (task World Args))
    (B : Z) (P : Q) st :
  (1 ≤ B)%Z →
  Forall (succeeds args) tasks →
  let n := Z.of_nat (length tasks) in
  let bs := batches tasks B in
  concat bs = tasks
  ∧ Z.of_nat (length bs) = ((n + B - 1) / B)%Z
  ∧ (∀ j b, bs !! j = Some b →
            0 < length b
            ∧ (Z.of_nat (length b) ≤ B)%Z
            ∧ (S j < length bs → Z.of_nat (length b) = B))
  ∧ ∃ logs vss st' tr,
      run_with_rate_limit tasks B P args st = (Return (concat vss), st')
      ∧ batches_gathered args bs (world st) logs vss (world st')
      ∧ trace st' = trace st ++ tr
      ∧ steps tr = paused P (call_events <$> logs)
      ∧ sleeps tr = replicate (length bs - 1) P
      ∧ Z.of_nat (length (sleeps tr)) = Z.max 0 ((n + B - 1) / B - 1).
Proof.
  intros HB Hok n bs.
  assert (0 < B)%Z as HB' by lia.
  pose proof (batches_length tasks B HB') as Hlen.
  split_and!.
  - by apply batches_concat.
  - done.
  - intros j b. by apply batches_sizes.
  - destruct (rate_limit_loop_succeeds args tasks B P Hok
                (range 0 (Z.of_nat (length tasks)) B) [] st)
      as (logs & vss & st' & tr & Hloop & Hbg & Htr & Hsteps).
    { intros j i. apply range_pause_condition; lia. }
    assert (sleeps tr = replicate (length bs - 1) P) as Hsl.
    { rewrite <- sleeps_steps, Hsteps, sleeps_paused.
      by rewrite (batches_gathered_length _ _ _ _ _ _ Hbg). }
    exists logs, vss, st', tr. split_and!; try done.
    + unfold run_with_rate_limit.
      destruct (Z.eqb_spec B 0) as [?|_]; [lia|]. done.
    + rewrite Hsl, length_replicate. subst bs n. lia.
Qed.

(** ** The concurrency-bounded runner *)

Lemma acquires_app (tr1 tr2 : list event) :
  acquires (tr1 ++ tr2) = acquires tr1 ++ acquires tr2.
Proof. apply omap_app. Qed.

Lemma releases_app (tr1 tr2 : list event) :
  releases (tr1 ++ tr2) = releases tr1 ++ releases tr2.
Proof. apply omap_app. Qed.

Lemma in_flight_app (tr1 tr2 : list event) :
  in_flight (tr1 ++ tr2) = (in_flight tr1 + in_flight tr2)%Z.
Proof. unfold in_flight. rewrite acquires_app, releases_app, !length_app. lia. Qed.

Lemma snoc_eq_middle {X} (l before after : list X) (e x : X) :
  l ++ [e] = before ++ x :: after →
  (after = [] ∧ l = before ∧ e = x)
  ∨ ∃ after0, after = after0 ++ [e] ∧ l = before ++ x :: after0.
Proof.
  destruct after as [|y after _] using rev_ind; intros H.
  - left. apply app_inj_tail in H as [-> ->]. done.
  - rewrite app_comm_cons, app_assoc in H. apply app_inj_tail in H as [-> ->].
    right. by exists after.
Qed.

Lemma in_flight_bounded_nil (k : Z) : (0 ≤ k)%Z → in_flight_bounded k [].
Proof.
  intros Hk before after H. symmetry in H. apply app_eq_nil in H as [-> _].
  unfold in_flight. simpl. lia.
Qed.

Lemma in_flight_bounded_snoc (k : Z) (tr : list event) (e : event) :
  in_flight_bounded k tr →
  (0 ≤ in_flight (tr ++ [e]) ≤ k)%Z →
  in_flight_bounded k (tr ++ [e]).
Proof.
  intros Htr He before after H.
  destruct after as [|y after _] using rev_ind.
  - rewrite app_nil_r in H. by subst before.
  - rewrite app_assoc in H. apply app_inj_tail in H as [-> _]. by eapply Htr.
Qed.

Lemma in_flight_eq (tr : list event) (n : nat) :
  length (acquires tr) = length (releases tr) + n → in_flight tr = Z.of_nat n.
Proof. unfold in_flight. lia. Qed.

Lemma in_flight_bounded_last (k : Z) (tr : list event) :
  in_flight_bounded k tr → (0 ≤ in_flight tr ≤ k)%Z.
Proof. intros H. apply (H tr []). by rewrite app_nil_r. Qed.

Lemma inside_block_nil (tasks : list (task World Args)) : inside_block tasks [].
Proof. intros before ev after H. by destruct before. Qed.

Lemma inside_block_snoc (tasks : list (task World Args)) (tr : list event) (e : event) :
  inside_block tasks tr →
  match e with
  | EvCall name r =>
      (∃ i t, tasks !! i = Some t ∧ task_name t = name
              ∧ i ∈ acquires tr ∧ ¬ (i ∈ releases tr))
      ∧ length (calls tr) < length (acquires tr)
  | EvRelease i =>
      i ∈ acquires tr ∧ ¬ (i ∈ releases tr)
      ∧ length (releases tr) < length (calls tr)
  | _ => True
  end →
  inside_block tasks (tr ++ [e]).
Proof.
  intros Htr He before ev after H.
  apply snoc_eq_middle in H as [(-> & -> & ->)|(after0 & -> & ->)]; [done|].
  by eapply Htr.
Qed.

Lemma entered_in_turn_nil (k : nat) : entered_in_turn k [].
Proof. intros before i after H. by destruct before. Qed.

Lemma entered_in_turn_snoc (k : nat) (tr : list event) (e : event) :
  entered_in_turn k tr →
  (∀ i, e = EvAcquire i →
        i = length (acquires tr) ∧ i < k + length (releases tr)) →
  entered_in_turn k (tr ++ [e]).
Proof.
  intros Htr He before i after H.
  apply snoc_eq_middle in H as [(-> & -> & ->)|(after0 & -> & ->)]; [by apply He|].
  by eapply Htr.
Qed.

Lemma acquire_waiters {W} (c : W) (sem : semaphore W) :
  sem_waiters (acquire c sem).1
  = if (acquire c sem).2 then sem_waiters sem else sem_waiters sem ++ [c].
Proof. unfold acquire. by destruct (locked sem). Qed.

Lemma release_waiters {W} (sem : semaphore W) :
  option_list (release sem).2 ++ sem_waiters (release sem).1 = sem_waiters sem.
Proof. unfold release. by destruct (sem_waiters sem). Qed.

(** An entry in the log changes nothing for the semaphore. *)
Lemma semaphore_invariant_log (tasks : list (task World Args)) (k : nat) sem
    (unstarted running : list (nat * task World Args))
    (finished : list (nat * task World Args * outcome value))
    (woken : list (nat * task World Args)) (tr : list event) lvl msg :
  semaphore_invariant tasks k sem unstarted running finished woken tr →
  semaphore_invariant tasks k sem unstarted running finished woken
    (tr ++ [EvLog lvl msg]).
Proof.
  unfold semaphore_invariant.
  rewrite acquires_app, releases_app, calls_app. simpl. rewrite !app_nil_r.
  intros (H1 & H2 & H3 & H4 & H5 & H6 & H7 & H8 & H9 & H10 & H11 & H12 & Hb & Hi & Ha).
  split_and!; try done.
  - apply in_flight_bounded_snoc; [done|].
    rewrite in_flight_app. change (in_flight [EvLog lvl msg]) with 0%Z.
    rewrite Z.add_0_r. by apply in_flight_bounded_last.
  - by apply inside_block_snoc.
  - by apply entered_in_turn_snoc.
Qed.

(** A coroutine for which there is a free slot enters the block: the
    next one in the order of submission. *)
Lemma semaphore_invariant_entry (tasks : list (task World Args)) (k : nat)
    (free free' : nat) (waiters : list (nat * task World Args))
    (unstarted unstarted' running : list (nat * task World Args))
    (finished : list (nat * task World Args * outcome value))
    (woken woken' : list (nat * task World Args)) (tr : list event)
    (c : nat * task World Args) :
  semaphore_invariant tasks k (Semaphore free waiters) unstarted running finished
    woken tr →
  woken.*1 ++ waiters.*1 ++ unstarted.*1
  = c.1 :: woken'.*1 ++ waiters.*1 ++ unstarted'.*1 →
  c ∈ unstarted ++ woken →
  unstarted' ⊆ unstarted → woken' ⊆ woken →
  (unstarted' ≠ [] → woken' = []) →
  free' + 1 + length woken' = free + length woken →
  free' ≤ free →
  semaphore_invariant tasks k (Semaphore free' waiters) unstarted' (running ++ [c])
    finished woken' (tr ++ [EvAcquire c.1]).
Proof.
  unfold semaphore_invariant.
  rewrite acquires_app, releases_app, calls_app. simpl. rewrite !app_nil_r.
  intros (H1 & H2 & H3 & H4 & H5 & H6 & H7 & H8 & H9 & H10 & H11 & H12 & Hb & Hi & Ha)
    Hnext Hc HU HW H5' Hval Hfree.
  rewrite Hnext in H7.
  assert (c.1 = length (acquires tr)
          ∧ length (acquires tr) < length tasks
          ∧ woken'.*1 ++ waiters.*1 ++ unstarted'.*1
            = seq (S (length (acquires tr)))
                (length tasks - S (length (acquires tr)))) as (Hc1 & Hlt & Hrest).
  { destruct (length tasks - length (acquires tr)) as [|m] eqn:Hm; [done|].
    simpl in H7. injection H7 as Hhd Htl. split_and!; [done|lia|].
    rewrite Htl. f_equal. lia. }
  assert (∀ i t, (i, t) ∈ running ++ finished.*1 → i < length (acquires tr)) as Hold.
  { intros i t Hin. destruct (H9 i t Hin) as [Hacq _].
    rewrite H12 in Hacq. apply elem_of_seq in Hacq. lia. }
  assert (¬ (c.1 ∈ releases tr)) as Hfresh.
  { intros Hin. apply H10 in Hin. rewrite H12 in Hin.
    apply elem_of_seq in Hin. lia. }
  rewrite !length_app. simpl. split_and!.
  - lia.
  - done.
  - lia.
  - intros Hq. specialize (H4 Hq). lia.
  - done.
  - lia.
  - rewrite Hrest. f_equal; lia.
  - intros i t Hin. apply H8. clear -Hin Hc HU HW. set_solver.
  - intros i t Hin. rewrite elem_of_app.
    rewrite <- app_assoc in Hin. apply elem_of_app in Hin as [Hin|Hin].
    + destruct (H9 i t) as [? ?]; [apply elem_of_app; by left|]. auto.
    + apply elem_of_app in Hin as [Hin|Hin].
      * apply list_elem_of_singleton in Hin. subst c. simpl in *.
        split; [right; rewrite Hc1; by apply list_elem_of_singleton|done].
      * destruct (H9 i t) as [? ?]; [apply elem_of_app; by right|]. auto.
  - intros i Hin. apply elem_of_app. left. by apply H10.
  - rewrite <- app_assoc, fmap_app. rewrite fmap_app in H11.
    rewrite fmap_app. simpl.
    apply NoDup_app in H11 as (Hr & Hrf & Hf).
    apply NoDup_app. split_and!; [done| |].
    + intros i Hir [Heq|Hin]%elem_of_cons.
      * apply list_elem_of_fmap in Hir as ([i' t] & -> & Hir).
        assert (i' < length (acquires tr)); [|simpl in *; lia].
        apply (Hold i' t). apply elem_of_app. by left.
      * by apply (Hrf i).
    + apply NoDup_cons. split; [|done].
      intros ([i' t] & Heq & Hif)%list_elem_of_fmap.
      assert (i' < length (acquires tr)); [|simpl in *; lia].
      apply (Hold i' t). apply elem_of_app. by right.
  - rewrite Hc1, Nat.add_1_r, seq_S, <- H12. done.
  - apply in_flight_bounded_snoc; [done|].
    rewrite (in_flight_eq _ (length running + length finished + 1)).
    + lia.
    + rewrite acquires_app, releases_app, !length_app. simpl. lia.
  - by apply inside_block_snoc.
  - apply entered_in_turn_snoc; [done|]. intros i ?. simplify_eq. lia.
Qed.

(** The first step of a child: into the block when a slot is free
    and nobody queues, into the queue otherwise. *)
Lemma semaphore_invariant_start (tasks : list (task World Args)) (k : nat) sem
    (unstarted running : list (nat * task World Args))
    (finished : list (nat * task World Args * outcome value))
    (woken : list (nat * task World Args)) (tr : list event)
    (c : nat * task World Args) :
  semaphore_invariant tasks k sem (c :: unstarted) running finished woken tr →
  semaphore_invariant tasks k (acquire c sem).1 unstarted
    (if (acquire c sem).2 then running ++ [c] else running) finished woken
    (if (acquire c sem).2 then tr ++ [EvAcquire c.1] else tr).
Proof.
  intros Hinv.
  assert (woken = []) as ->.
  { destruct Hinv as (_ & _ & _ & _ & H5 & _). by apply H5. }
  destruct sem as [free waiters]. unfold acquire, locked. simpl.
  destruct (Nat.eqb_spec free 0) as [Hv|Hv]; simpl.
  - destruct Hinv
      as (H1 & H2 & H3 & H4 & H5 & H6 & H7 & H8 & H9 & H10 & H11 & H12 & Hb & Hi & Ha).
    simpl in *. unfold semaphore_invariant. simpl.
    split_and!; try done.
    + by rewrite fmap_app, <- app_assoc.
    + intros i t Hin. apply H8. clear -Hin. set_solver.
  - case_bool_decide as Hq; simpl.
    + subst waiters.
      eapply (semaphore_invariant_entry tasks k free (free - 1) [] (c :: unstarted)
                unstarted running finished [] []); try done.
      * apply elem_of_app. left. by left.
      * set_solver.
      * simpl. lia.
      * lia.
    + destruct Hinv as (_ & _ & _ & H4 & _). simpl in H4. by specialize (H4 Hq).
Qed.

(** A coroutine woken by a release enters the block. *)
Lemma semaphore_invariant_enter (tasks : list (task World Args)) (k : nat) sem
    (unstarted running : list (nat * task World Args))
    (finished : list (nat * task World Args * outcome value))
    (woken : list (nat * task World Args)) (tr : list event)
    (c : nat * task World Args) :
  semaphore_invariant tasks k sem unstarted running finished (c :: woken) tr →
  semaphore_invariant tasks k sem unstarted (running ++ [c]) finished woken
    (tr ++ [EvAcquire c.1]).
Proof.
  intros Hinv.
  assert (unstarted = []) as ->.
  { destruct Hinv as (_ & _ & _ & _ & H5 & _).
    destruct unstarted; [done|]. by specialize (H5 ltac:(done)). }
  destruct sem as [free waiters].
  eapply (semaphore_invariant_entry tasks k free free waiters [] []
            running finished (c :: woken) woken); try done.
  - apply elem_of_app. right. by left.
  - set_solver.
  - simpl. lia.
Qed.

(** The unit of a child inside the block comes to its end. *)
Lemma semaphore_invariant_complete (tasks : list (task World Args)) (k : nat) sem
    (unstarted running : list (nat * task World Args))
    (finished : list (nat * task World Args * outcome value))
    (woken : list (nat * task World Args)) (tr : list event)
    (j i : nat) t (r : outcome value) :
  semaphore_invariant tasks k sem unstarted running finished woken tr →
  running !! j = Some (i, t) →
  semaphore_invariant tasks k sem unstarted (delete j running)
    (finished ++ [(i, t, r)]) woken (tr ++ [EvCall (task_name t) r]).
Proof.
  unfold semaphore_invariant.
  rewrite acquires_app, releases_app, calls_app. simpl. rewrite !app_nil_r.
  intros (H1 & H2 & H3 & H4 & H5 & H6 & H7 & H8 & H9 & H10 & H11 & H12 & Hb & Hi & Ha)
    Hj.
  pose proof (delete_Permutation _ _ _ Hj) as Hperm.
  pose proof (lookup_lt_Some _ _ _ Hj) as Hlt.
  assert (delete j running ++ (finished ++ [(i, t, r)]).*1 ≡ₚ running ++ finished.*1)
    as Hsame.
  { rewrite Hperm at 2. rewrite fmap_app. simpl. solve_Permutation. }
  assert ((i, t) ∈ running ++ finished.*1) as Hin.
  { apply elem_of_app. left. by eapply list_elem_of_lookup_2. }
  rewrite !length_app, length_delete by eauto. simpl.
  split_and!; try done; try lia.
  - intros i' t' Hin'. apply H8.
    assert (delete j running ⊆ running) as Hsub.
    { intros x Hx. rewrite Hperm. by right. }
    assert ((i, t) ∈ running) as HinR by (by eapply list_elem_of_lookup_2).
    rewrite fmap_app in Hin'. simpl in Hin'. clear -Hin' Hsub HinR. set_solver.
  - intros i' t' Hin'. apply (H9 i' t'). by rewrite <- Hsame.
  - by rewrite Hsame.
  - apply in_flight_bounded_snoc; [done|].
    rewrite in_flight_app. change (in_flight [EvCall (task_name t) r]) with 0%Z.
    rewrite Z.add_0_r. by apply in_flight_bounded_last.
  - apply inside_block_snoc; [done|].
    destruct (H9 i t Hin) as [Hacq Hrel]. split; [|lia].
    exists i, t. split_and!; try done.
    apply H8. rewrite !elem_of_app. right. left. by eapply list_elem_of_lookup_2.
  - by apply entered_in_turn_snoc.
Qed.

(** A child whose unit is done is resumed and leaves the block: the
    slot goes to the first coroutine of the queue, which is woken, or
    becomes free. *)
Lemma semaphore_invariant_resume (tasks : list (task World Args)) (k : nat) sem
    (running : list (nat * task World Args))
    (finished : list (nat * task World Args * outcome value))
    (woken : list (nat * task World Args)) (tr : list event)
    (j i : nat) t (r : outcome value) :
  semaphore_invariant tasks k sem [] running finished woken tr →
  finished !! j = Some (i, t, r) →
  semaphore_invariant tasks k (release sem).1 [] running (delete j finished)
    (woken ++ option_list (release sem).2) (tr ++ [EvRelease i]).
Proof.
  unfold semaphore_invariant.
  rewrite acquires_app, releases_app, calls_app. simpl. rewrite !app_nil_r.
  intros (H1 & H2 & H3 & H4 & H5 & H6 & H7 & H8 & H9 & H10 & H11 & H12 & Hb & Hi & Ha)
    Hj.
  pose proof (delete_Permutation _ _ _ Hj) as Hperm.
  pose proof (lookup_lt_Some _ _ _ Hj) as Hlt.
  assert ((running ++ finished.*1).*1 ≡ₚ i :: (running ++ (delete j finished).*1).*1)
    as Hsame.
  { rewrite Hperm at 1. rewrite !fmap_app, !fmap_cons. simpl. solve_Permutation. }
  assert ((i, t) ∈ running ++ finished.*1) as Hin.
  { apply elem_of_app. right. apply list_elem_of_fmap. exists (i, t, r).
    split; [done|]. by eapply list_elem_of_lookup_2. }
  destruct (H9 i t Hin) as [Hacq Hrel].
  rewrite Hsame in H11. apply NoDup_cons in H11 as [Hfresh H11].
  assert (∀ i' t', (i', t') ∈ running ++ (delete j finished).*1 →
                   (i', t') ∈ running ++ finished.*1 ∧ i' ≠ i) as Hless.
  { intros i' t' Hin'. split.
    - apply elem_of_app in Hin' as [?|Hin']; apply elem_of_app; [by left|right].
      rewrite Hperm, fmap_cons. by right.
    - intros ->. apply Hfresh. apply list_elem_of_fmap. by exists (i, t'). }
  assert (woken.*1 ++ (sem_waiters sem).*1
          = (woken ++ option_list (release sem).2).*1
            ++ (sem_waiters (release sem).1).*1) as Hqueue.
  { rewrite <- (release_waiters sem) at 1. by rewrite !fmap_app, app_assoc. }
  rewrite !length_app, length_delete by eauto. simpl.
  split_and!; try done; try lia.
  - unfold release. destruct (sem_waiters sem); simpl; lia.
  - unfold release. destruct (sem_waiters sem) as [|c q] eqn:Hq; simpl; [done|].
    intros _. specialize (H4 ltac:(done)). lia.
  - rewrite <- Hqueue, <- H7. simpl. by rewrite ?app_nil_r.
  - intros i' t' Hin'. apply H8.
    assert ((delete j finished).*1 ⊆ finished.*1) as Hsub.
    { intros x Hx. rewrite Hperm, fmap_cons. by right. }
    rewrite <- (release_waiters sem). clear -Hin' Hsub. set_solver.
  - intros i' t' Hin'. destruct (Hless i' t' Hin') as [Hold Hne].
    destruct (H9 i' t' Hold) as [? ?]. split; [done|].
    intros [?|Hx]%elem_of_app; [done|].
    apply list_elem_of_singleton in Hx. done.
  - intros i' [?|Hx]%elem_of_app; [auto|].
    apply list_elem_of_singleton in Hx. by subst i'.
  - apply in_flight_bounded_snoc; [done|].
    rewrite (in_flight_eq _ (length running + (length finished - 1))).
    + apply in_flight_bounded_last in Hb.
      rewrite (in_flight_eq _ (length running + length finished)) in Hb by lia. lia.
    + rewrite acquires_app, releases_app, !length_app. simpl. lia.
  - apply inside_block_snoc; [done|]. split_and!; [done|done|lia].
  - by apply entered_in_turn_snoc.
Qed.

Lemma semaphore_invariant_initial (tasks : list (task World Args)) (k : nat) :
  semaphore_invariant tasks k (Semaphore k []) (imap pair tasks) [] [] [] [].
Proof.
  unfold semaphore_invariant. simpl. rewrite indexed_fst, Nat.sub_0_r.
  split_and!; try done; try lia.
  - intros i t [Hin|Hin]%elem_of_app; [|by apply elem_of_nil in Hin].
    apply elem_of_lookup_imap in Hin as (j & y & ? & Hy). by simplify_eq.
  - intros i t Hin. by apply elem_of_nil in Hin.
  - constructor.
  - apply in_flight_bounded_nil. lia.
  - apply inside_block_nil.
  - apply entered_in_turn_nil.
Qed.

Lemma semaphore_loop_S args (fuel : nat) sem
    (unstarted running : list (nat * task World Args))
    (finished : list (nat * task World Args * outcome value))
    (woken : list (nat * task World Args))
    (slots : list (option value)) (failed : option exn) st :
  semaphore_loop args (S fuel) sem unstarted running finished woken slots failed st
  = match turn_of (next_choice (length running + length finished + 2) st).1
            (length unstarted) (length running) (length finished) (length woken)
            (bool_decide (is_Some failed)) with
    | Starts =>
        match unstarted with
        | c :: unstarted' =>
            semaphore_loop args fuel (acquire c sem).1 unstarted'
              (if (acquire c sem).2 then running ++ [c] else running)
              finished woken slots failed
              (if (acquire c sem).2
               then emit (EvAcquire c.1)
                      (next_choice (length running + length finished + 2) st).2
               else (next_choice (length running + length finished + 2) st).2)
        | [] => Blocked (next_choice (length running + length finished + 2) st).2
        end
    | Completes j =>
        match running !! j with
        | Some (i, t) =>
            semaphore_loop args fuel sem unstarted (delete j running)
              (finished
               ++ [(i, t, (to_thread t args
                             (next_choice (length running + length finished + 2) st).2).1)])
              woken slots failed
              (to_thread t args
                 (next_choice (length running + length finished + 2) st).2).2
        | None => Blocked (next_choice (length running + length finished + 2) st).2
        end
    | Resumes j =>
        match finished !! j with
        | Some (i, t, r) =>
            semaphore_loop args fuel (release sem).1 unstarted running
              (delete j finished) (woken ++ option_list (release sem).2)
              (settle failed i r slots).1 (settle failed i r slots).2
              (emit (EvRelease i)
                 (run_task_resumed t r
                    (next_choice (length running + length finished + 2) st).2).2)
        | None => Blocked (next_choice (length running + length finished + 2) st).2
        end
    | Enters =>
        match woken with
        | c :: woken' =>
            semaphore_loop args fuel sem unstarted (running ++ [c]) finished woken'
              slots failed
              (emit (EvAcquire c.1)
                 (next_choice (length running + length finished + 2) st).2)
        | [] => Blocked (next_choice (length running + length finished + 2) st).2
        end
    | Returns =>
        match failed with
        | Some e =>
            Ended (Raise e) (next_choice (length running + length finished + 2) st).2
        | None =>
            if bool_decide (sem_waiters sem = [])
            then Ended (Return slots)
                   (next_choice (length running + length finished + 2) st).2
            else Blocked (next_choice (length running + length finished + 2) st).2
        end
    end.
Proof.
  cbn [semaphore_loop].
  destruct (next_choice (length running + length finished + 2) st) as [k st1].
  cbn [fst snd]. destruct (turn_of _ _ _ _ _ _); try done.
  - destruct unstarted as [|c unstarted']; [done|].
    by destruct (acquire c sem) as [sem' [|]].
  - destruct (running !! k0) as [[i t]|]; [|done].
    by destruct (to_thread t args st1).
  - destruct (finished !! k0) as [[[i t] r]|]; [|done].
    destruct (run_task_resumed t r st1). destruct (release sem).
    by destruct (settle failed i r slots).
Qed.

(** A bounded run with a bound of at least one comes to an end, and
    its history is that of units kept inside the block, never more
    than [k] of them. *)
Lemma semaphore_loop_invariant args (tasks : list (task World Args)) (k : nat)
    (base : list event) :
  0 < k →
  ∀ (fuel : nat) sem (unstarted running : list (nat * task World Args))
    (finished : list (nat * task World Args * outcome value))
    (woken : list (nat * task World Args))
    (slots : list (option value)) (failed : option exn) st tr,
    trace st = base ++ tr →
    semaphore_invariant tasks k sem unstarted running finished woken tr →
    4 * length unstarted + 3 * length (sem_waiters sem) + 3 * length woken
    + 2 * length running + length finished < fuel →
    ∃ r st' tr',
      semaphore_loop args fuel sem unstarted running finished woken slots failed st
      = Ended r st'
      ∧ trace st' = base ++ tr'
      ∧ in_flight_bounded (Z.of_nat k) tr'
      ∧ inside_block tasks tr'
      ∧ entered_in_turn k tr'
      ∧ acquires tr' = seq 0 (length (acquires tr'))
      ∧ (∀ slots', r = Return slots' →
           length (acquires tr') = length tasks
           ∧ length (calls tr') = length tasks
           ∧ length (releases tr') = length tasks).
Proof.
  intros Hk. induction fuel as [|fuel IH];
    intros sem unstarted running finished woken slots failed st tr Htr Hinv Hfuel;
    [lia|].
  rewrite semaphore_loop_S.
  pose proof (next_choice_trace (length running + length finished + 2) st) as Ht1.
  destruct (next_choice (length running + length finished + 2) st) as [choice st1].
  cbn [fst snd] in *. rewrite Htr in Ht1.
  pose proof (turn_of_spec choice (length unstarted) (length running) (length finished)
                (length woken) (bool_decide (is_Some failed))) as Hturn.
  destruct (turn_of choice (length unstarted) (length running) (length finished)
              (length woken) (bool_decide (is_Some failed))) as [|j|j| |].
  - (* a child takes its first step *)
    destruct unstarted as [|c unstarted]; [simpl in Hturn; lia|].
    apply semaphore_invariant_start in Hinv.
    pose proof (acquire_waiters c sem) as Hw.
    eapply IH; [|exact Hinv|].
    + destruct (acquire c sem).2; [|done]. simpl. by rewrite Ht1, <- app_assoc.
    + rewrite Hw. destruct (acquire c sem).2; rewrite ?length_app; simpl in *; lia.
  - (* the unit of a child inside the block is done *)
    destruct (lookup_lt_is_Some_2 running j Hturn) as [[i t] Hit]. rewrite Hit.
    destruct (call t args (world st1)) as [r w] eqn:Hc.
    rewrite (to_thread_eq _ _ _ _ _ Hc). cbn [fst snd].
    eapply IH; [|by apply semaphore_invariant_complete|].
    + simpl. by rewrite Ht1, <- app_assoc.
    + rewrite length_delete by eauto. rewrite length_app. simpl. lia.
  - (* a child whose unit is done is resumed and leaves the block *)
    destruct Hturn as [Hj HU]. destruct unstarted; [|done].
    destruct (lookup_lt_is_Some_2 finished j Hj) as [[[i t] r] Hit]. rewrite Hit.
    rewrite run_task_resumed_state.
    pose proof (f_equal (@length _) (release_waiters sem)) as Hw.
    rewrite length_app in Hw.
    destruct r as [v|e].
    + eapply IH; [|by eapply semaphore_invariant_resume|].
      * simpl. by rewrite Ht1, <- app_assoc.
      * rewrite length_delete by eauto. rewrite length_app. simpl. lia.
    + eapply IH; [|eapply semaphore_invariant_resume;
                    [by apply semaphore_invariant_log|done]|].
      * simpl. by rewrite Ht1, <- !app_assoc.
      * rewrite length_delete by eauto. rewrite length_app. simpl. lia.
  - (* a coroutine that was woken enters the block *)
    destruct woken as [|c woken]; [simpl in Hturn; lia|].
    eapply IH; [|by apply semaphore_invariant_enter|].
    + simpl. by rewrite Ht1, <- app_assoc.
    + rewrite length_app. simpl in *. lia.
  - (* the awaiting coroutine is resumed *)
    destruct Hinv
      as (H1 & H2 & H3 & H4 & H5 & H6 & H7 & H8 & H9 & H10 & H11 & H12 & Hb & Hi & Ha).
    destruct failed as [e|].
    + exists (Raise e), st1, tr. split_and!; try done.
    + destruct Hturn as [?|(HU & HR & HF & HW)]; [done|].
      assert (sem_waiters sem = []) as Hq.
      { destruct (sem_waiters sem) eqn:Hq; [done|]. specialize (H4 ltac:(done)). lia. }
      rewrite bool_decide_eq_true_2 by done.
      exists (Return slots), st1, tr. split_and!; try done.
      intros _ _.
      destruct unstarted; [|done]. destruct woken; [|done].
      rewrite Hq in H7. simpl in H7.
      assert (length tasks - length (acquires tr) = 0).
      { destruct (length tasks - length (acquires tr)); [done|done]. }
      lia.
Qed.


(** ** The dependency graph runner *)

Scheme visit_mut := Minimality for visit Sort Prop
  with visits_mut := Minimality for visits Sort Prop.

(** The map and the set of resolved tasks fix the order of a
    resolution. *)
Lemma visit_deterministic (dependencies : gmap string (list string)) :
  ∀ done d o1, visit dependencies done d o1 →
  ∀ o2, visit dependencies done d o2 → o1 = o2.
Proof.
  apply (visit_mut dependencies
           (λ done d o1, ∀ o2, visit dependencies done d o2 → o1 = o2)
           (λ done ds bs1, ∀ bs2, visits dependencies done ds bs2 → bs1 = bs2)).
  - intros done d Hd o2 H2. by inversion H2.
  - intros done d blocks Hd _ IH o2 H2. inversion H2 as [|? ? blocks2 _ Hv]; subst; [done|].
    by rewrite (IH _ Hv).
  - intros done bs2 H2. by inversion H2.
  - intros done d ds block blocks _ IH1 _ IH2 bs2 H2.
    inversion H2 as [|? ? ? block2 blocks2 Hv Hvs]; subst.
    rewrite <- (IH1 _ Hv) in Hvs. by rewrite (IH1 _ Hv), (IH2 _ Hvs).
Qed.

Section Graph.

Context (tasks : list (string * task World Args)).
Context (dependencies : gmap string (list string)).
Context (args : Args).

Local Abbreviation effect := (resolution_effect tasks dependencies args).
Local Abbreviation resolve := (run_task_with_deps tasks dependencies args).
Local Abbreviation returns_well := (returns_well tasks dependencies args).
Local Abbreviation all_names := (names tasks dependencies).
Local Abbreviation ends_within := (ends_within tasks dependencies).
Local Abbreviation raises_cycle := (raises_cycle tasks dependencies).

Lemma run_in_order_app (ts1 ts2 : list (task World Args)) (w : World) :
  run_in_order args (ts1 ++ ts2) w
  = ((run_in_order args ts1 w).1
       ++ (run_in_order args ts2 (run_in_order args ts1 w).2).1,
     (run_in_order args ts2 (run_in_order args ts1 w).2).2).
Proof.
  revert w. induction ts1 as [|t ts1 IH]; intros w; simpl.
  - by destruct (run_in_order args ts2 w).
  - destruct (call t args w) as [r w1]. rewrite IH.
    destruct (run_in_order args ts1 w1) as [rs1 w2]. simpl.
    by destruct (run_in_order args ts2 w2).
Qed.

Lemma effect_nil (cache : gmap string value) st : effect cache st [] cache st.
Proof.
  unfold resolution_effect, invoked. simpl. rewrite app_nil_r.
  split_and!; try done.
  - set_solver.
  - intros x Hx. by apply elem_of_nil in Hx.
  - constructor.
  - intros k Hk. by apply elem_of_nil in Hk.
  - intros before x after d H. by destruct before.
Qed.

Lemma effect_app (c0 c1 c2 : gmap string value) st0 st1 st2
    (o1 o2 : list (string * task World Args * value)) :
  effect c0 st0 o1 c1 st1 →
  effect c1 st1 o2 c2 st2 →
  effect c0 st0 (o1 ++ o2) c2 st2.
Proof.
  intros (Ht1 & Hr1 & Hg1 & Hd1 & Hs1 & Hl1 & Hn1 & Hf1 & Hp1)
         (Ht2 & Hr2 & Hg2 & Hd2 & Hs2 & Hl2 & Hn2 & Hf2 & Hp2).
  unfold resolution_effect, invoked. rewrite !fmap_app. split_and!.
  - rewrite Ht2, Ht1. unfold invoked. by rewrite <- app_assoc.
  - rewrite run_in_order_app, Hr1. simpl. by rewrite Hr2.
  - by apply Forall_app.
  - rewrite Hd2, Hd1, list_to_set_app_L. set_solver.
  - by etrans.
  - intros x [Hx|Hx]%elem_of_app; [|by apply Hl2].
    eapply lookup_weaken; [by apply Hl1|done].
  - apply NoDup_app. split_and!; try done.
    intros k Hk1 Hk2. apply (Hf2 k Hk2). rewrite Hd1. set_solver.
  - intros k [Hk|Hk]%elem_of_app; [by apply Hf1|].
    intros Hin. apply (Hf2 k Hk). rewrite Hd1. set_solver.
  - intros before x after d Ho Hd.
    apply app_eq_inv in Ho as [(k & Ho1 & Ho2)|(k & Ho1 & Ho2)].
    + destruct k as [|y k].
      * rewrite app_nil_r in Ho1. simpl in Ho2.
        destruct (Hp2 [] x after d) as [Hin|Hin]; [by symmetry|done| |].
        -- rewrite Hd1, Ho1 in Hin. set_solver.
        -- by apply elem_of_nil in Hin.
      * simpl in Ho2. injection Ho2 as <- ->.
        destruct (Hp1 before x k d) as [Hin|Hin]; [done|done|by left|by right].
    + subst before.
      destruct (Hp2 k x after d) as [Hin|Hin]; [done|done| |].
      * rewrite Hd1 in Hin. set_solver.
      * right. set_solver.
Qed.

Lemma effect_one (cache : gmap string value) st (name : string)
    (t : task World Args) (v : value) (w : World) :
  getitem tasks name = Some t →
  call t args (world st) = (Return v, w) →
  name ∉ dom cache →
  (∀ d, depends_on dependencies name d → d ∈ dom cache) →
  effect cache st [(name, t, v)] (<[name := v]> cache)
    (emit (EvCall (task_name t) (Return v)) (set_world w st)).
Proof.
  intros Hget Hcall Hfresh Hdeps.
  unfold resolution_effect, invoked. simpl. rewrite Hcall. split_and!; try done.
  - by repeat constructor.
  - rewrite dom_insert_L. set_solver.
  - apply insert_subseteq. by apply not_elem_of_dom.
  - intros x ->%list_elem_of_singleton. simpl. by rewrite lookup_insert_eq.
  - apply NoDup_singleton.
  - by intros k ->%list_elem_of_singleton.
  - intros before x after d Ho Hd. destruct before as [|y before].
    + simpl in Ho. simplify_eq. left. by apply Hdeps.
    + simpl in Ho. by destruct before.
Qed.

Lemma keys_concat (os : list (list (string * task World Args * value))) :
  (concat os).*1.*1 = concat ((λ o, o.*1.*1) <$> os).
Proof.
  induction os as [|o os IH]; [done|].
  simpl. by rewrite !fmap_app, IH.
Qed.

Lemma closed_rtc (done : gset string) (x y : string) :
  (∀ a b, a ∈ done → depends_on dependencies a b → b ∈ done) →
  rtc (depends_on dependencies) x y → x ∈ done → y ∈ done.
Proof. intros Hclosed. induction 1; eauto. Qed.

Lemma resolve_S (depth : nat) (name : string) gs st :
  resolve (S depth) name gs st
  = match results gs !! name with
    | Some v => Some (Return v, gs, st)
    | None =>
        if decide (name ∈ in_progress gs)
        then Some (Raise (circular name), gs, st)
        else
          match for_each (resolve depth) (default [] (dependencies !! name))
                  (GraphState (results gs) (in_progress gs ∪ {[name]})) st with
          | None => None
          | Some (Raise e, gs2, st2) => Some (Raise e, gs2, st2)
          | Some (Return _, gs2, st2) =>
              match getitem tasks name with
              | None => Some (Raise (KeyError name), gs2, st2)
              | Some task =>
                  match run_task task args st2 with
                  | (Raise e, st3) => Some (Raise e, gs2, st3)
                  | (Return result, st3) =>
                      Some (Return result,
                            GraphState (<[name := result]> (results gs2))
                                       (in_progress gs2 ∖ {[name]}),
                            st3)
                  end
              end
          end
    end.
Proof. reflexivity. Qed.

Lemma for_each_return (body : string → G value) :
  returns_well body →
  ∀ (ds : list string) gs st u gs' st',
    for_each body ds gs st = Some (Return u, gs', st') →
    graph_invariant dependencies gs →
    ∃ os,
      effect (results gs) st (concat os) (results gs') st'
      ∧ graph_invariant dependencies gs'
      ∧ in_progress gs' = in_progress gs
      ∧ (∀ d, d ∈ ds → d ∈ dom (results gs'))
      ∧ visits dependencies (dom (results gs)) ds ((λ o, o.*1.*1) <$> os).
Proof.
  intros Hbody ds. induction ds as [|d ds IH]; intros gs st u gs' st' Hrun Hinv.
  - simpl in Hrun. simplify_eq. exists []. split_and!; try done.
    + apply effect_nil.
    + intros d Hd. by apply elem_of_nil in Hd.
    + constructor.
  - cbn [for_each] in Hrun.
    destruct (body d gs st) as [[[[v|e] gs1] st1]|] eqn:Hd; [|done..].
    destruct (Hbody _ _ _ _ _ _ Hd Hinv) as (o & Ho & Hinv1 & Hip1 & Hv & Hvisit).
    destruct (IH _ _ _ _ _ Hrun Hinv1) as (os & Hos & Hinv' & Hip' & Hall & Hvisits).
    exists (o :: os). split_and!; try done.
    + simpl. by eapply effect_app.
    + congruence.
    + intros d' [->|Hd']%elem_of_cons; [|by apply Hall].
      destruct Hos as (_ & _ & _ & _ & Hsub & _).
      apply elem_of_dom. exists v. by eapply lookup_weaken.
    + rewrite fmap_cons. constructor; [done|].
      destruct Ho as (_ & _ & _ & Hdom & _). by rewrite <- Hdom.
Qed.

Lemma resolve_return (depth : nat) : returns_well (resolve depth).
Proof.
  induction depth as [|depth IH]; intros name gs st v gs' st' Hrun Hinv; [done|].
  rewrite resolve_S in Hrun.
  destruct (results gs !! name) as [v0|] eqn:Hcached.
  - simplify_eq. exists []. split_and!; try done.
    + apply effect_nil.
    + constructor. apply elem_of_dom. eauto.
  - destruct (decide (name ∈ in_progress gs)) as [|Hfree]; [done|].
    apply not_elem_of_dom in Hcached.
    destruct Hinv as (Hdisj & Hclosed & Hacyc).
    destruct (for_each _ _ _ st) as [[[[u|e] gs2] st2]|] eqn:Hloop; [|done..].
    apply (for_each_return _ IH) in Hloop
      as (os & Hos & (Hdisj2 & Hclosed2 & Hacyc2) & Hip2 & Hall & Hvisits);
      [|split_and!; simpl; [set_solver|done..]].
    simpl in *.
    destruct (getitem tasks name) as [t|] eqn:Hget; [|done].
    destruct (call t args (world st2)) as [[v'|e] w] eqn:Hcall.
    2:{ by rewrite (run_task_raise _ _ _ _ _ Hcall) in Hrun. }
    rewrite (run_task_return _ _ _ _ _ Hcall) in Hrun. simplify_eq. simpl.
    assert (name ∉ dom (results gs2)) as Hfresh by set_solver.
    assert (∀ d, depends_on dependencies name d → d ∈ dom (results gs2)) as Hdeps.
    { intros d Hd. by apply Hall. }
    exists (concat os ++ [(name, t, v)]). split_and!.
    + eapply effect_app; [done|]. by apply effect_one.
    + unfold graph_invariant. simpl. rewrite dom_insert_L. split_and!.
      * set_solver.
      * intros x y [->%elem_of_singleton|Hx]%elem_of_union Hxy.
        -- apply elem_of_union. right. by apply Hdeps.
        -- apply elem_of_union. right. by eapply Hclosed2.
      * intros x [->%elem_of_singleton|Hx]%elem_of_union; [|by apply Hacyc2].
        intros Hcyc. apply Hfresh. unfold on_cycle in Hcyc.
        inversion Hcyc as [? ? Hd|? y ? Hd Hrest]; subst.
        -- by apply Hdeps.
        -- eapply closed_rtc; [done|by apply tc_rtc|by apply Hdeps].
    + rewrite Hip2. set_solver.
    + by rewrite lookup_insert_eq.
    + rewrite !fmap_app, keys_concat. simpl. by constructor.
Qed.

Lemma depends_on_names (x d : string) :
  depends_on dependencies x d → d ∈ all_names.
Proof.
  unfold depends_on, names. intros Hd.
  destruct (dependencies !! x) as [ds|] eqn:Hx; simpl in Hd;
    [|by apply elem_of_nil in Hd].
  apply elem_of_union. right. apply elem_of_union_list.
  exists (list_to_set ds). split; [|by apply elem_of_list_to_set].
  apply list_elem_of_fmap. exists ds. split; [done|].
  apply list_elem_of_fmap. exists (x, ds). split; [done|].
  by apply elem_of_map_to_list.
Qed.

Lemma key_names (k : string) : k ∈ tasks.*1 → k ∈ all_names.
Proof.
  intros Hk. unfold names. apply elem_of_union. left.
  by apply elem_of_list_to_set.
Qed.

Lemma for_each_ends (depth : nat) (body : string → G value) :
  ends_within depth body →
  ∀ (ds : list string) gs st,
    (∀ d, d ∈ ds → d ∈ all_names) →
    size (all_names ∖ in_progress gs) < depth →
    ∃ r gs' st',
      for_each body ds gs st = Some (r, gs', st')
      ∧ (is_return r = true → in_progress gs' = in_progress gs).
Proof.
  intros Hbody ds. induction ds as [|d ds IH]; intros gs st Hds Hsize.
  - by exists (Return ()), gs, st.
  - cbn [for_each].
    destruct (Hbody d gs st) as ([v|e] & gs1 & st1 & -> & Hip); [set_solver|done| |].
    + specialize (Hip eq_refl).
      destruct (IH gs1 st1) as (r & gs' & st' & -> & Hip'); [set_solver|by rewrite Hip|].
      exists r, gs', st'. split; [done|]. intros Hr. rewrite Hip' by done. done.
    + by exists (Raise e), gs1, st1.
Qed.

Lemma resolve_ends (depth : nat) : ends_within depth (resolve depth).
Proof.
  induction depth as [|depth IH]; intros name gs st Hname Hsize; [lia|].
  rewrite resolve_S.
  destruct (results gs !! name) as [v0|]; [by eexists _, _, _|].
  destruct (decide (name ∈ in_progress gs)) as [|Hfree]; [by eexists _, _, _|].
  assert (size (all_names ∖ (in_progress gs ∪ {[name]})) < depth) as Hsize'.
  { assert (all_names ∖ (in_progress gs ∪ {[name]}) ⊂ all_names ∖ in_progress gs)
      as Hsub%subset_size; [|lia].
    split; [set_solver|]. intros Hsub. specialize (Hsub name). set_solver. }
  destruct (for_each_ends depth _ IH (default [] (dependencies !! name))
              (GraphState (results gs) (in_progress gs ∪ {[name]})) st)
    as ([u|e] & gs2 & st2 & -> & Hip); [|done| |].
  { intros d Hd. by eapply depends_on_names. }
  - specialize (Hip eq_refl). simpl in Hip.
    destruct (getitem tasks name) as [t|]; [|by eexists _, _, _].
    destruct (run_task t args st2) as [[v|e] st3]; [|by eexists _, _, _].
    eexists _, _, _. split; [done|]. intros _. simpl. rewrite Hip. set_solver.
  - by eexists _, _, _.
Qed.

Lemma getitem_Some (k : string) (t : task World Args) :
  getitem tasks k = Some t → (k, t) ∈ tasks.
Proof.
  induction tasks as [|[k' t'] l IH]; [done|]. simpl.
  case_decide; intros Hg; simplify_eq; [left|right; by apply IH].
Qed.

Lemma getitem_key (k : string) : k ∈ tasks.*1 → is_Some (getitem tasks k).
Proof.
  induction tasks as [|[k' t'] l IH]; [by intros ?%elem_of_nil|]. simpl.
  intros [->|Hk]%elem_of_cons; case_decide; eauto. done.
Qed.

Lemma for_each_raise (body : string → G value) :
  returns_well body →
  raises_cycle body →
  ∀ (ds : list string) gs st e gs' st',
    for_each body ds gs st = Some (Raise e, gs', st') →
    graph_invariant dependencies gs →
    (∀ d, d ∈ ds → d ∈ tasks.*1) →
    (∀ d x, d ∈ ds → x ∈ in_progress gs → tc (depends_on dependencies) x d) →
    ∃ x, e = circular x ∧ on_cycle dependencies x ∧ x ∈ tasks.*1.
Proof.
  intros Hret Hraise ds.
  induction ds as [|d ds IH]; intros gs st e gs' st' Hrun Hinv Hkeys Hstack; [done|].
  cbn [for_each] in Hrun.
  destruct (body d gs st) as [[[[v|e1] gs1] st1]|] eqn:Hd; [| |done].
  - destruct (Hret _ _ _ _ _ _ Hd Hinv) as (o & _ & Hinv1 & Hip1 & _).
    apply (IH _ _ _ _ _ Hrun Hinv1).
    + intros d' Hd'. apply Hkeys. by right.
    + intros d' x Hd' Hx. rewrite Hip1 in Hx. apply Hstack; [by right|done].
  - simplify_eq. apply (Hraise _ _ _ _ _ _ Hd Hinv).
    + apply Hkeys. by left.
    + intros x Hx. apply Hstack; [by left|done].
Qed.

Lemma resolve_raise (depth : nat) :
  Forall (λ kt, succeeds args kt.2) tasks →
  names_are_keys tasks dependencies →
  raises_cycle (resolve depth).
Proof.
  intros Hok Hnames.
  induction depth as [|depth IH]; intros name gs st e gs' st' Hrun Hinv Hkey Hstack;
    [done|].
  rewrite resolve_S in Hrun.
  destruct (results gs !! name) as [v0|] eqn:Hcached; [done|].
  destruct (decide (name ∈ in_progress gs)) as [Hin|Hfree].
  - simplify_eq. exists name. split_and!; [done| |done]. by apply Hstack.
  - apply not_elem_of_dom in Hcached.
    destruct Hinv as (Hdisj & Hclosed & Hacyc).
    assert (graph_invariant dependencies
              (GraphState (results gs) (in_progress gs ∪ {[name]}))) as Hinv1.
    { split_and!; simpl; [set_solver|done..]. }
    destruct (for_each _ _ _ st) as [[[[u|e1] gs2] st2]|] eqn:Hloop; [| |done].
    + destruct (getitem_key name Hkey) as [t Hget]. rewrite Hget in Hrun.
      apply getitem_Some in Hget.
      assert (succeeds args t) as Ht.
      { eapply Forall_forall in Hok; [|exact Hget]. done. }
      destruct (succeeds_call t args (world st2) Ht) as (v & w & Hcall).
      by rewrite (run_task_return _ _ _ _ _ Hcall) in Hrun.
    + simplify_eq.
      apply (for_each_raise _ (resolve_return depth) IH _ _ _ _ _ _ Hloop Hinv1).
      * intros d Hd. by eapply Hnames.
      * simpl. intros d x Hd [Hx| ->%elem_of_singleton]%elem_of_union.
        -- eapply tc_r; [by apply Hstack|done].
        -- by apply tc_once.
Qed.

Lemma empty_graph_invariant : graph_invariant dependencies (GraphState ∅ ∅).
Proof. split_and!; simpl; set_solver. Qed.

(** The loop of the entry point, by its outcome. *)
Lemma run_with_dependency_graph_cases st :
  ∃ r gs st',
    for_each (resolve (S (size all_names))) tasks.*1 (GraphState ∅ ∅) st
    = Some (r, gs, st')
    ∧ run_with_dependency_graph tasks dependencies args st
      = Some (match r with
              | Return _ => Return (results gs)
              | Raise e => Raise e
              end, st').
Proof.
  destruct (for_each_ends _ _ (resolve_ends (S (size all_names))) tasks.*1
              (GraphState ∅ ∅) st) as (r & gs & st' & Hrun & _).
  { intros d Hd. by apply key_names. }
  { simpl. assert (size (all_names ∖ ∅) ≤ size all_names); [|lia].
    apply subseteq_size. set_solver. }
  exists r, gs, st'. split; [done|].
  unfold run_with_dependency_graph. rewrite Hrun. by destruct r.
Qed.

Lemma run_with_dependency_graph_return st res st' :
  run_with_dependency_graph tasks dependencies args st = Some (Return res, st') →
  ∃ os,
    effect ∅ st (concat os) res st'
    ∧ graph_invariant dependencies (GraphState res ∅)
    ∧ (∀ k, k ∈ tasks.*1 → k ∈ dom res)
    ∧ visits dependencies ∅ tasks.*1 ((λ o, o.*1.*1) <$> os).
Proof.
  intros Hrun.
  destruct (run_with_dependency_graph_cases st) as (r & gs & st1 & Hloop & Hrun').
  rewrite Hrun in Hrun'. destruct r as [u|e]; [|done]. simplify_eq.
  apply (for_each_return _ (resolve_return _)) in Hloop
    as (os & Hos & Hinv & Hip & Hall & Hvisits); [|apply empty_graph_invariant].
  simpl in *. rewrite dom_empty_L in Hvisits.
  exists os. split_and!; try done. destruct gs as [res ip]. simpl in *. by subst ip.
Qed.

Lemma run_with_dependency_graph_raise st e st' :
  Forall (λ kt, succeeds args kt.2) tasks →
  names_are_keys tasks dependencies →
  run_with_dependency_graph tasks dependencies args st = Some (Raise e, st') →
  ∃ x, e = circular x ∧ on_cycle dependencies x ∧ x ∈ tasks.*1.
Proof.
  intros Hok Hnames Hrun.
  destruct (run_with_dependency_graph_cases st) as (r & gs & st1 & Hloop & Hrun').
  rewrite Hrun in Hrun'. destruct r as [u|e1]; [done|]. simplify_eq.
  apply (for_each_raise _ (resolve_return _) (resolve_raise _ Hok Hnames)
           _ _ _ _ _ _ Hloop empty_graph_invariant); [done|].
  simpl. intros d x _ Hx. set_solver.
Qed.

(** A cycle within reach of a key keeps the run from returning. *)
Lemma run_with_dependency_graph_cycle st (t c : string) :
  t ∈ tasks.*1 →
  rtc (depends_on dependencies) t c →
  on_cycle dependencies c →
  ∃ e st', run_with_dependency_graph tasks dependencies args st = Some (Raise e, st').
Proof.
  intros Ht Htc Hc.
  destruct (run_with_dependency_graph_cases st) as (r & gs & st1 & Hloop & Hrun).
  destruct r as [u|e]; [|by eexists _, _].
  apply run_with_dependency_graph_return in Hrun as (os & _ & Hinv & Hall & _).
  destruct Hinv as (_ & Hclosed & Hacyc). simpl in *.
  destruct (Hacyc c); [|done].
  eapply closed_rtc; [done..|]. by apply Hall.
Qed.

(** C1 as amended.  A cycle within reach of a key of the task
    mapping: the run raises, whatever the units do, and so returns no
    mapping; when moreover every unit succeeds and every prerequisite
    listed is a key, the error raised is the cycle error, and the task
    it names is a key that lies on a cycle. *)
Theorem run_with_dependency_graph_cycle_detected st (t c : string) :
  t ∈ tasks.*1 →
  rtc (depends_on dependencies) t c →
  on_cycle dependencies c →
  ∃ e st',
    run_with_dependency_graph tasks dependencies args st = Some (Raise e, st')
    ∧ (Forall (λ kt, succeeds args kt.2) tasks →
       names_are_keys tasks dependencies →
       ∃ x, e = circular x ∧ on_cycle dependencies x ∧ x ∈ tasks.*1).
Proof.
  intros Ht Htc Hc.
  destruct (run_with_dependency_graph_cycle st t c Ht Htc Hc) as (e & st' & Hrun).
  exists e, st'. split; [done|]. intros Hok Hnames.
  by eapply run_with_dependency_graph_raise.
Qed.

(** C2 as amended.  An acyclic dependency map whose listed names
    are keys of the task mapping, units that all succeed: the run
    returns a mapping whose keys are exactly the task names.  [o] is
    the sequence of invocations: every task once, each with the unit
    stored under its name, each after all its prerequisites; the value
    cached for a task is what its unit returned.  [blocks] gives the
    shape of the order: the entry point resolves the task names in the
    order of the mapping, and resolving a task that is not done
    resolves its prerequisites one after the other in listed order,
    then invokes the task, while a task that is done adds nothing. *)
Theorem run_with_dependency_graph_order st :
  NoDup tasks.*1 →
  acyclic dependencies →
  names_are_keys tasks dependencies →
  Forall (λ kt, succeeds args kt.2) tasks →
  ∃ (o : list (string * task World Args * value)) (blocks : list (list string))
    res st',
    run_with_dependency_graph tasks dependencies args st = Some (Return res, st')
    ∧ dom res = list_to_set tasks.*1
    ∧ o.*1.*1 ≡ₚ tasks.*1
    ∧ Forall (λ x, getitem tasks x.1.1 = Some x.1.2) o
    ∧ (∀ x, x ∈ o → res !! x.1.1 = Some x.2)
    ∧ trace st' = trace st ++ invoked o
    ∧ run_in_order args o.*1.*2 (world st) = (Return <$> o.*2, world st')
    ∧ prerequisites_first dependencies ∅ o.*1.*1
    ∧ visits dependencies ∅ tasks.*1 blocks
    ∧ o.*1.*1 = concat blocks.
Proof.
  intros Hnodup Hacyc Hnames Hok.
  destruct (run_with_dependency_graph_cases st) as (r & gs & st' & _ & Hrun).
  destruct r as [u|e].
  2:{ apply run_with_dependency_graph_raise in Hrun as (x & _ & Hx & _); [|done..].
      by destruct (Hacyc x). }
  destruct (run_with_dependency_graph_return _ _ _ Hrun)
    as (os & (Htr & Hw & Hget & Hdom & _ & Hlook & Hnd & _ & Hfirst) & _ & Hall & Hvisits).
  rewrite dom_empty_L in Hdom, Hfirst. rewrite (left_id_L ∅ union) in Hdom.
  assert (∀ k, k ∈ (concat os).*1.*1 ↔ k ∈ tasks.*1) as Hsame.
  { intros k. split.
    - intros ([k' t] & -> & ([kt v] & -> & Hin)%list_elem_of_fmap)%list_elem_of_fmap.
      simpl.
      eapply Forall_forall in Hget; [|exact Hin]. simpl in Hget.
      destruct kt as [key unit]. simpl in *.
      apply getitem_Some in Hget. apply list_elem_of_fmap. by exists (key, unit).
    - intros Hk. apply Hall in Hk. rewrite Hdom in Hk.
      by apply elem_of_list_to_set in Hk. }
  exists (concat os), ((λ o, o.*1.*1) <$> os), (results gs), st'.
  split_and!; try done.
  - rewrite Hdom. apply set_eq. intros k. rewrite !elem_of_list_to_set. apply Hsame.
  - by apply NoDup_Permutation.
  - apply keys_concat.
Qed.

End Graph.

End Properties.

(** * The properties on sample inputs *)

Lemma two_cycle_depends (x d : string) :
  depends_on two_cycle x d ↔ (x = "A" ∧ d = "B") ∨ (x = "B" ∧ d = "A").
Proof.
  unfold depends_on, two_cycle. split.
  - destruct (two_cycle !! x) as [ds|] eqn:Hx; unfold two_cycle in Hx; rewrite Hx.
    + apply lookup_insert_Some in Hx as [[<- <-]|[_ Hx]].
      * intros ->%list_elem_of_singleton. by left.
      * apply lookup_singleton_Some in Hx as [<- <-].
        intros ->%list_elem_of_singleton. by right.
    + by intros ?%elem_of_nil.
  - intros [[-> ->]|[-> ->]]; vm_compute; by left.
Qed.

Lemma two_cycle_on_cycle : on_cycle two_cycle "A".
Proof.
  apply tc_l with "B"; [|apply tc_once]; apply two_cycle_depends; auto.
Qed.

Lemma a_needs_b_depends (x d : string) :
  depends_on a_needs_b x d ↔ x = "A" ∧ d = "B".
Proof.
  unfold depends_on, a_needs_b. split.
  - destruct (a_needs_b !! x) as [ds|] eqn:Hx; unfold a_needs_b in Hx; rewrite Hx.
    + apply lookup_singleton_Some in Hx as [<- <-].
      by intros ->%list_elem_of_singleton.
    + by intros ?%elem_of_nil.
  - intros [-> ->]. vm_compute. by left.
Qed.

Lemma a_needs_b_acyclic : acyclic a_needs_b.
Proof.
  intros x Hx. unfold on_cycle in Hx.
  inversion Hx as [? ? H1|? y ? H1 H2]; subst;
    apply a_needs_b_depends in H1 as [-> ?]; [done|subst y].
  inversion H2 as [? ? H3|? z ? H3 _]; subst;
    by apply a_needs_b_depends in H3 as [? _].
Qed.

Lemma noop_succeeds (name : string) : succeeds tt (noop name).
Proof. by intros w. Qed.

Lemma constant_succeeds (name : string) (v : value) : succeeds tt (constant name v).
Proof. by intros w. Qed.

Lemma failing_always_fails (name msg : string) : always_fails tt (failing name msg).
Proof. by intros w. Qed.

(** C5 on a unit that always fails, three attempts half a second
    apart. *)
Lemma run_with_retry_always_failing_witness :
  (1 ≤ 3)%Z
  ∧ always_fails tt (failing "f" "boom")
  ∧ ∃ es e st',
      run_with_retry (failing "f" "boom") 3 (1 # 2)%Q tt fresh = (Raise e, st')
      ∧ Z.of_nat (length es) = 3%Z
      ∧ last es = Some e
      ∧ ∃ tr, trace st' = trace fresh ++ tr
              ∧ steps tr = attempts "f" (1 # 2)%Q es
              ∧ Z.of_nat (length (calls tr)) = 3%Z
              ∧ sleeps tr = replicate (Z.to_nat 3 - 1) (1 # 2)%Q.
Proof.
  split; [lia|]. split; [apply failing_always_fails|].
  apply (run_with_retry_always_failing (failing "f" "boom") 3 (1 # 2)%Q tt fresh);
    [lia|apply failing_always_fails].
Defined.

(** C6 on a unit that takes five seconds under a timeout of two. *)
Lemma run_with_timeout_slow_witness :
  (2 < duration (slow "s" 5) tt (world fresh))%Q
  ∧ ∃ st',
      run_with_timeout (slow "s" 5) 2 tt fresh = (Return VNone, st')
      ∧ trace st'
        = trace fresh ++ [EvAbandon "s"; EvLog WARNING (MsgTimedOut "s" 2)]
      ∧ calls (trace st') = calls (trace fresh).
Proof.
  split; [reflexivity|].
  apply (run_with_timeout_slow (slow "s" 5) 2 tt fresh). reflexivity.
Defined.

(** C10 on a unit that returns [None] at once and a unit that takes
    five seconds, both under a timeout of two. *)
Lemma run_with_timeout_none_ambiguous_witness :
  (run_with_timeout (noop "n") 2 tt fresh).1 = Return VNone
  ∧ (run_with_timeout (slow "s" 5) 2 tt fresh).1 = Return VNone
  ∧ (run_with_timeout (noop "n") 2 tt fresh).1
    = (run_with_timeout (slow "s" 5) 2 tt fresh).1.
Proof.
  apply (run_with_timeout_none_ambiguous (noop "n") (slow "s" 5) 2 2 tt tt fresh fresh);
    reflexivity.
Defined.

(** C3 on three units that finish in reverse order. *)
Lemma run_in_parallel_submission_order_witness :
  Forall (succeeds tt)
    [constant "a" (VInt 1); constant "b" (VInt 2); constant "c" (VInt 3)]
  ∧ ∃ vs st',
      run_in_parallel
        [constant "a" (VInt 1); constant "b" (VInt 2); constant "c" (VInt 3)]
        tt (State 0 [] [2; 1; 0])
      = (Return vs, st')
      ∧ length vs = 3.
Proof.
  assert (Forall (succeeds tt)
            [constant "a" (VInt 1); constant "b" (VInt 2); constant "c" (VInt 3)])
    as Hok by (repeat constructor; apply constant_succeeds).
  split; [exact Hok|].
  destruct (run_in_parallel_submission_order tt _ (State 0 [] [2; 1; 0]) Hok)
    as (completed & vs & st' & Hrun & Hlen & _).
  by exists vs, st'.
Defined.

(** C4 on a unit that returns and a unit that fails. *)
Lemma run_in_parallel_fail_fast_witness :
  Exists (always_fails tt) [constant "a" (VInt 1); failing "b" "boom"]
  ∧ ∃ e st',
      run_in_parallel [constant "a" (VInt 1); failing "b" "boom"] tt fresh
      = (Raise e, st')
      ∧ ∀ vs, (run_in_parallel [constant "a" (VInt 1); failing "b" "boom"] tt fresh).1
              ≠ Return vs.
Proof.
  assert (Exists (always_fails tt) [constant "a" (VInt 1); failing "b" "boom"])
    as Hex by (right; left; apply failing_always_fails).
  split; [exact Hex|].
  destruct (run_in_parallel_fail_fast tt
              [constant "a" (VInt 1); failing "b" "boom"] fresh) as [_ Hfail].
  destruct (Hfail Hex) as (e & st' & failed & tr & Hrun & Hno & _).
  by exists e, st'.
Defined.

(** Two units that fail, both done before the awaiting caller is
    resumed: both failures are logged, the caller gets the first. *)
Example run_in_parallel_two_failures :
  run_in_parallel [failing "a" "boom"; failing "b" "bang"] tt fresh
  = (Raise (UnitError "boom"),
     State 2
       [EvLog INFO (MsgRunningParallel 2);
        EvCall "a" (Raise (UnitError "boom"));
        EvCall "b" (Raise (UnitError "bang"));
        EvLog ERROR (MsgErrorInTask "a" (UnitError "boom"));
        EvLog ERROR (MsgErrorInTask "b" (UnitError "bang"))]
       []).
Proof. reflexivity. Qed.

(** The same units, the caller resumed as soon as the first failure
    was seen, while the other unit still runs. *)
Example run_in_parallel_first_failure :
  run_in_parallel [failing "a" "boom"; failing "b" "bang"] tt (State 0 [] [0; 1; 2])
  = (Raise (UnitError "boom"),
     State 1
       [EvLog INFO (MsgRunningParallel 2);
        EvCall "a" (Raise (UnitError "boom"));
        EvLog ERROR (MsgErrorInTask "a" (UnitError "boom"))]
       []).
Proof. reflexivity. Qed.


(** The instance of the design: of [X] with priority 1 and [Y] with
    priority 5, [Y] runs first. *)
Example run_with_priority_two :
  run_with_priority
    [TaskInfo (constant "X" (VInt 1)) 1; TaskInfo (constant "Y" (VInt 2)) 5]
    tt fresh
  = (Return [VInt 2; VInt 1],
     State 2 [EvCall "Y" (Return (VInt 2)); EvCall "X" (Return (VInt 1))] []).
Proof. reflexivity. Qed.

(** C7 as amended, on the two descriptors above. *)
Lemma run_with_priority_order_witness :
  Forall (λ info, succeeds tt (info_task info))
    [TaskInfo (constant "X" (VInt 1)) 1; TaskInfo (constant "Y" (VInt 2)) 5]
  ∧ ∃ order vs st',
      run_with_priority
        [TaskInfo (constant "X" (VInt 1)) 1; TaskInfo (constant "Y" (VInt 2)) 5]
        tt fresh
      = (Return vs, st')
      ∧ stable_descending priority
          [TaskInfo (constant "X" (VInt 1)) 1; TaskInfo (constant "Y" (VInt 2)) 5]
          order
      ∧ length vs = 2
      ∧ run_in_order tt (info_task <$> order) (world fresh)
        = (Return <$> vs, world st')
      ∧ trace st'
        = trace fresh
          ++ zip_with (λ info v, EvCall (task_name (info_task info)) (Return v))
               order vs.
Proof.
  assert (Forall (λ info, succeeds tt (info_task info))
            [TaskInfo (constant "X" (VInt 1)) 1; TaskInfo (constant "Y" (VInt 2)) 5])
    as Hok by (repeat constructor; apply constant_succeeds).
  split; [exact Hok|].
  exact (run_with_priority_order _ tt fresh Hok).
Defined.

(** C7 as stated fails.  The descriptor of highest priority holds a
    unit that raises: the scheduler raises that error instead of
    returning results, and the unit of lower priority is never run. *)
Lemma run_with_priority_failing_unit :
  run_with_priority
    [TaskInfo (constant "X" (VInt 1)) 1; TaskInfo (failing "Y" "boom") 5] tt fresh
  = (Raise (UnitError "boom"),
     State 1 [EvCall "Y" (Raise (UnitError "boom"));
              EvLog ERROR (MsgErrorInTask "Y" (UnitError "boom"))] [])
  ∧ ¬ ∃ vs st',
        run_with_priority
          [TaskInfo (constant "X" (VInt 1)) 1; TaskInfo (failing "Y" "boom") 5]
          tt fresh
        = (Return vs, st').
Proof.
  split; [reflexivity|]. intros (vs & st' & H). vm_compute in H. discriminate H.
Qed.

(** The instance of the design: five units in batches of two make
    two pauses, after the first and the second batch. *)
Example run_with_rate_limit_five :
  steps (trace (run_with_rate_limit
                  [noop "a"; noop "b"; noop "c"; noop "d"; noop "e"] 2 3 tt fresh).2)
  = [EvCall "a" (Return VNone); EvCall "b" (Return VNone); EvSleep 3;
     EvCall "c" (Return VNone); EvCall "d" (Return VNone); EvSleep 3;
     EvCall "e" (Return VNone)].
Proof. reflexivity. Qed.

(** C8 as amended, on five units in batches of two. *)
Lemma run_with_rate_limit_batches_witness :
  (1 ≤ 2)%Z
  ∧ Forall (succeeds tt) [noop "a"; noop "b"; noop "c"; noop "d"; noop "e"]
  ∧ concat (batches [noop "a"; noop "b"; noop "c"; noop "d"; noop "e"] 2)
    = [noop "a"; noop "b"; noop "c"; noop "d"; noop "e"]
  ∧ ∃ vs st' tr,
      run_with_rate_limit [noop "a"; noop "b"; noop "c"; noop "d"; noop "e"]
        2 3 tt fresh
      = (Return vs, st')
      ∧ trace st' = trace fresh ++ tr
      ∧ sleeps tr = [3%Q; 3%Q].
Proof.
  assert (Forall (succeeds tt) [noop "a"; noop "b"; noop "c"; noop "d"; noop "e"])
    as Hok by (repeat constructor; apply noop_succeeds).
  split; [lia|]. split; [exact Hok|].
  destruct (run_with_rate_limit_batches tt _ 2 3 fresh ltac:(lia) Hok)
    as (Hconcat & _ & _ & logs & vss & st' & tr & Hrun & _ & Htr & _ & Hsleeps & _).
  split; [exact Hconcat|].
  exists (concat vss), st', tr. split; [exact Hrun|]. split; [exact Htr|].
  exact Hsleeps.
Defined.

(** C8 as stated fails.  With no unit there is no pause, where
    [ceil(0/1) - 1] is [-1]; and with a unit that raises in the first
    of three batches the batcher raises without a pause, where the
    claim has two pauses and a result list. *)
Lemma run_with_rate_limit_no_pause :
  (run_with_rate_limit [] 1 3 tt fresh = (Return [], fresh)
   ∧ Z.of_nat (length (sleeps (trace (run_with_rate_limit [] 1 3 tt fresh).2)))
     ≠ ((0 + 1 - 1) / 1 - 1)%Z)
  ∧ (run_with_rate_limit [failing "a" "boom"; noop "b"; noop "c"] 1 3 tt fresh
     = (Raise (UnitError "boom"),
        State 1 [EvLog INFO (MsgRunningParallel 1);
                 EvCall "a" (Raise (UnitError "boom"));
                 EvLog ERROR (MsgErrorInTask "a" (UnitError "boom"))] [])
     ∧ Z.of_nat (length (sleeps (trace
         (run_with_rate_limit [failing "a" "boom"; noop "b"; noop "c"]
            1 3 tt fresh).2)))
       ≠ ((3 + 1 - 1) / 1 - 1)%Z).
Proof.
  split; (split; [reflexivity|vm_compute; discriminate]).
Qed.

Lemma two_cycle_names_are_keys (a b : task nat unit) :
  names_are_keys [("A", a); ("B", b)] two_cycle.
Proof.
  intros x d [[_ ->]|[_ ->]]%two_cycle_depends; simpl; set_solver.
Qed.

Lemma a_needs_b_names_are_keys (a b : task nat unit) :
  names_are_keys [("A", a); ("B", b)] a_needs_b.
Proof.
  intros x d [_ ->]%a_needs_b_depends. simpl. set_solver.
Qed.

(** The instance of the design: [{A: noop, B: noop}] with
    [{A: [B], B: [A]}] raises the cycle error, which names [A]. *)
Example run_with_dependency_graph_two_cycle :
  run_with_dependency_graph [("A", noop "A"); ("B", noop "B")] two_cycle tt fresh
  = Some (Raise (ValueError "Circular dependency detected for task A"), fresh).
Proof. reflexivity. Qed.

(** C1 as amended, on that instance. *)
Lemma run_with_dependency_graph_cycle_detected_witness :
  "A" ∈ [("A", noop "A"); ("B", noop "B")].*1
  ∧ rtc (depends_on two_cycle) "A" "A"
  ∧ on_cycle two_cycle "A"
  ∧ ∃ x st',
      run_with_dependency_graph [("A", noop "A"); ("B", noop "B")] two_cycle tt fresh
      = Some (Raise (circular x), st')
      ∧ on_cycle two_cycle x
      ∧ x ∈ [("A", noop "A"); ("B", noop "B")].*1.
Proof.
  assert ("A" ∈ [("A", noop "A"); ("B", noop "B")].*1) as Hkey by (simpl; set_solver).
  split; [exact Hkey|]. split; [apply rtc_refl|]. split; [apply two_cycle_on_cycle|].
  destruct (run_with_dependency_graph_cycle_detected
              [("A", noop "A"); ("B", noop "B")] two_cycle tt fresh "A" "A"
              Hkey (rtc_refl _ _) two_cycle_on_cycle)
    as (e & st' & Hrun & Hcycle).
  destruct Hcycle as (x & -> & Hx & Hin).
  - repeat constructor; apply noop_succeeds.
  - apply two_cycle_names_are_keys.
  - by exists x, st'.
Defined.

Lemma cycle_with_stranger_on_cycle : on_cycle cycle_with_stranger "A".
Proof.
  apply tc_l with "B"; [|apply tc_once]; unfold depends_on; vm_compute.
  - right. left.
  - left.
Qed.

(** C1 as stated fails.  The cycle between [A] and [B] is within
    reach of the key [A] in both runs.  In the first the unit of [C],
    resolved before [A], raises: the run raises the error of that
    unit.  In the second [A] lists [X], which is no task, before [B]:
    the run raises the [KeyError] of the lookup.  Neither is the cycle
    error. *)
Lemma run_with_dependency_graph_other_error_first :
  ("A" ∈ [("C", failing "C" "boom"); ("A", noop "A"); ("B", noop "B")].*1
   ∧ on_cycle two_cycle "A"
   ∧ run_with_dependency_graph
       [("C", failing "C" "boom"); ("A", noop "A"); ("B", noop "B")] two_cycle tt fresh
     = Some (Raise (UnitError "boom"),
             State 1 [EvCall "C" (Raise (UnitError "boom"));
                      EvLog ERROR (MsgErrorInTask "C" (UnitError "boom"))] [])
   ∧ ∀ x, UnitError "boom" ≠ circular x)
  ∧ ("A" ∈ [("A", noop "A"); ("B", noop "B")].*1
     ∧ on_cycle cycle_with_stranger "A"
     ∧ run_with_dependency_graph
         [("A", noop "A"); ("B", noop "B")] cycle_with_stranger tt fresh
       = Some (Raise (KeyError "X"), fresh)
     ∧ ∀ x, KeyError "X" ≠ circular x).
Proof.
  split; split_and!.
  - simpl. set_solver.
  - apply two_cycle_on_cycle.
  - reflexivity.
  - done.
  - simpl. set_solver.
  - apply cycle_with_stranger_on_cycle.
  - reflexivity.
  - done.
Qed.

(** The instance of the design: [{A: noop, B: noop}] with [{A: [B]}]
    runs [B] before [A]. *)
Example run_with_dependency_graph_b_before_a :
  ∃ res,
    run_with_dependency_graph [("A", noop "A"); ("B", noop "B")] a_needs_b tt fresh
    = Some (Return res,
            State 2 [EvCall "B" (Return VNone); EvCall "A" (Return VNone)] [])
    ∧ res !! "A" = Some VNone ∧ res !! "B" = Some VNone.
Proof. eexists. split; [vm_compute; reflexivity|]. by vm_compute. Qed.

(** C2 as amended, on that instance. *)
Lemma run_with_dependency_graph_order_witness :
  NoDup [("A", noop "A"); ("B", noop "B")].*1
  ∧ acyclic a_needs_b
  ∧ names_are_keys [("A", noop "A"); ("B", noop "B")] a_needs_b
  ∧ Forall (λ kt, succeeds tt kt.2) [("A", noop "A"); ("B", noop "B")]
  ∧ ∃ (o : list (string * task nat unit * value)) res st',
      run_with_dependency_graph [("A", noop "A"); ("B", noop "B")] a_needs_b tt fresh
      = Some (Return res, st')
      ∧ dom res = list_to_set [("A", noop "A"); ("B", noop "B")].*1
      ∧ o.*1.*1 ≡ₚ [("A", noop "A"); ("B", noop "B")].*1
      ∧ trace st' = trace fresh ++ invoked o
      ∧ prerequisites_first a_needs_b ∅ o.*1.*1.
Proof.
  assert (NoDup [("A", noop "A"); ("B", noop "B")].*1) as Hnd.
  { simpl. repeat (constructor; [set_solver|]). constructor. }
  assert (Forall (λ kt, succeeds tt kt.2) [("A", noop "A"); ("B", noop "B")]) as Hok.
  { repeat constructor; apply noop_succeeds. }
  split; [exact Hnd|]. split; [apply a_needs_b_acyclic|].
  split; [apply a_needs_b_names_are_keys|]. split; [exact Hok|].
  destruct (run_with_dependency_graph_order
              [("A", noop "A"); ("B", noop "B")] a_needs_b tt fresh
              Hnd a_needs_b_acyclic (a_needs_b_names_are_keys _ _) Hok)
    as (o & blocks & res & st' & Hrun & Hdom & Hperm & _ & _ & Htr & _ & Hfirst & _).
  by exists o, res, st'.
Defined.

(** C2 as stated fails.  The map is acyclic and its names are keys,
    but the unit of [B] raises: the run raises that error and returns
    no mapping, and the unit of [A] is not invoked at all. *)
Lemma run_with_dependency_graph_failing_unit :
  acyclic a_needs_b
  ∧ names_are_keys [("A", noop "A"); ("B", failing "B" "boom")] a_needs_b
  ∧ run_with_dependency_graph
      [("A", noop "A"); ("B", failing "B" "boom")] a_needs_b tt fresh
    = Some (Raise (UnitError "boom"),
            State 1 [EvCall "B" (Raise (UnitError "boom"));
                     EvLog ERROR (MsgErrorInTask "B" (UnitError "boom"))] [])
  ∧ ¬ ∃ res st',
        run_with_dependency_graph
          [("A", noop "A"); ("B", failing "B" "boom")] a_needs_b tt fresh
        = Some (Return res, st').
Proof.
  split_and!.
  - apply a_needs_b_acyclic.
  - apply a_needs_b_names_are_keys.
  - reflexivity.
  - intros (res & st' & H). vm_compute in H. discriminate H.
Qed.

(** * Further properties of the module *)

Section Further.

Context {World Args : Type}.
Implicit Types (t : task World Args) (st : state World) (args : Args).

(** ** The retry wrapper, whatever the unit does *)

Lemma retry_loop_bounded t (N : Z) (d : Q) args :
  ∀ (n : nat) (attempt : Z) st,
    (attempt + Z.of_nat (S n) = N)%Z →
    ∃ tr,
      trace (retry_loop t N d args (S n) attempt st).2 = trace st ++ tr
      ∧ 1 ≤ length (calls tr) ≤ S n
      ∧ sleeps tr = replicate (length (calls tr) - 1) d
      ∧ last (calls tr)
        = Some (task_name t, (retry_loop t N d args (S n) attempt st).1)
      ∧ (is_return (retry_loop t N d args (S n) attempt st).1 = false →
         length (calls tr) = S n).
Proof.
  intros n. induction n as [|n IH]; intros attempt st Hn; rewrite retry_loop_S.
  - assert ((attempt =? N - 1)%Z = true) as Hlast by lia.
    destruct (call t args (world st)) as [[v|e] w] eqn:Hc.
    + rewrite (run_task_return _ _ _ _ _ Hc). eexists. simpl.
      split; [reflexivity|]. simpl. split_and!; try done; lia.
    + rewrite (run_task_raise _ _ _ _ _ Hc), Hlast. eexists. simpl.
      rewrite <- !app_assoc. split; [reflexivity|]. simpl.
      split_and!; try done; lia.
  - assert ((attempt =? N - 1)%Z = false) as Hlast by lia.
    destruct (call t args (world st)) as [[v|e] w] eqn:Hc.
    + rewrite (run_task_return _ _ _ _ _ Hc). eexists. simpl.
      split; [reflexivity|]. simpl. split_and!; try done; lia.
    + rewrite (run_task_raise _ _ _ _ _ Hc), Hlast.
      edestruct (IH (attempt + 1)%Z) as (tr & Htr & Hlen & Hsl & Hlst & Hfail); [lia|].
      set (head := [EvCall (task_name t) (Raise e);
                    EvLog ERROR (MsgErrorInTask (task_name t) e);
                    EvLog WARNING (MsgRetrying (task_name t) (attempt + 1) N d);
                    EvSleep d]).
      assert (calls (head ++ tr) = (task_name t, Raise e) :: calls tr) as Hcalls
        by (by rewrite calls_app).
      assert (sleeps (head ++ tr) = d :: sleeps tr) as Hsleeps
        by (by rewrite sleeps_app).
      exists (head ++ tr). rewrite Hcalls, Hsleeps. split_and!.
      * rewrite Htr. simpl. by rewrite <- !app_assoc.
      * simpl. lia.
      * simpl. lia.
      * rewrite Hsl. simpl.
        destruct (length (calls tr)) as [|k]; [lia|]. simpl. by rewrite Nat.sub_0_r.
      * destruct (calls tr) as [|c cs] eqn:Hcs; [simpl in Hlen; lia|].
        exact Hlst.
      * intros Hr. simpl. by rewrite Hfail.
Qed.

(** X1.  Whatever the unit does and whatever [max_retries] is: the
    unit is invoked at most [max_retries] times; a pause of
    [retry_delay] follows every invocation but the last; what the
    wrapper returns or raises is what the last invocation returned or
    raised, and it raises only once all [max_retries] attempts are
    used; with [max_retries <= 0] the unit is not invoked at all and
    the wrapper returns [None]. *)
Theorem run_with_retry_bounded t (N : Z) (retry_delay : Q) args st :
  ∃ tr,
    trace (run_with_retry t N retry_delay args st).2 = trace st ++ tr
    ∧ (Z.of_nat (length (calls tr)) ≤ Z.max 0 N)%Z
    ∧ sleeps tr = replicate (length (calls tr) - 1) retry_delay
    ∧ ((1 ≤ N)%Z →
       last (calls tr)
       = Some (task_name t, (run_with_retry t N retry_delay args st).1))
    ∧ (∀ e, (run_with_retry t N retry_delay args st).1 = Raise e →
            Z.of_nat (length (calls tr)) = N)
    ∧ ((N ≤ 0)%Z →
       run_with_retry t N retry_delay args st = (Return VNone, st)).
Proof.
  unfold run_with_retry. destruct (Z.to_nat N) as [|n] eqn:Hn.
  - exists []. simpl. rewrite app_nil_r. split_and!; try done; lia.
  - destruct (retry_loop_bounded t N retry_delay args n 0%Z st)
      as (tr & Htr & Hlen & Hsl & Hlst & Hfail); [lia|].
    exists tr. split_and!; try done; try lia.
    intros e He. rewrite Hfail; [lia|]. by rewrite He.
Qed.

Lemma run_in_order_cons_inv args t (ts : list (task World Args)) (w w' : World)
    (r : outcome value) (rs : list (outcome value)) :
  run_in_order args (t :: ts) w = (r :: rs, w') →
  ∃ w1, call t args w = (r, w1) ∧ run_in_order args ts w1 = (rs, w').
Proof.
  simpl. destruct (call t args w) as [r1 w1].
  destruct (run_in_order args ts w1) as [rs1 w2] eqn:Hrest. intros H.
  injection H as -> -> ->. by exists w1.
Qed.

(** The invocations and pauses of a retry that gets through after
    the failures [es]. *)
Lemma retry_loop_recovers t (N : Z) (d : Q) args (v : value) (w' : World) :
  ∀ (es : list exn) (n : nat) (attempt : Z) st,
    length es ≤ n →
    (attempt + Z.of_nat (S n) = N)%Z →
    run_in_order args (replicate (S (length es)) t) (world st)
    = ((Raise <$> es) ++ [Return v], w') →
    ∃ st' tr,
      retry_loop t N d args (S n) attempt st = (Return v, st')
      ∧ world st' = w'
      ∧ trace st' = trace st ++ tr
      ∧ steps tr
        = (es ≫= λ e, [EvCall (task_name t) (Raise e); EvSleep d])
          ++ [EvCall (task_name t) (Return v)].
Proof.
  intros es. induction es as [|e es IH]; intros n attempt st Hlen Hn Hrun;
    rewrite retry_loop_S;
    apply run_in_order_cons_inv in Hrun as (w1 & Hc & Hrest).
  - simpl in Hrest. injection Hrest as ->.
    rewrite (run_task_return _ _ _ _ _ Hc).
    eexists _, [EvCall (task_name t) (Return v)]. by split_and!.
  - rewrite (run_task_raise _ _ _ _ _ Hc).
    destruct n as [|n]; [simpl in Hlen; lia|].
    assert ((attempt =? N - 1)%Z = false) as -> by lia.
    destruct (IH n (attempt + 1)%Z
                (emit (EvSleep d)
                   (emit (EvLog WARNING (MsgRetrying (task_name t) (attempt + 1) N d))
                      (emit (EvLog ERROR (MsgErrorInTask (task_name t) e))
                         (emit (EvCall (task_name t) (Raise e)) (set_world w1 st))))))
      as (st' & tr & Hloop & Hw & Htr & Hsteps);
      [simpl in Hlen; lia|lia|exact Hrest|].
    rewrite Hloop.
    set (head := [EvCall (task_name t) (Raise e);
                  EvLog ERROR (MsgErrorInTask (task_name t) e);
                  EvLog WARNING (MsgRetrying (task_name t) (attempt + 1) N d);
                  EvSleep d]).
    exists st', (head ++ tr). split_and!; [done|done| |].
    + rewrite Htr. simpl. by rewrite <- !app_assoc.
    + by rewrite steps_app, Hsteps.
Qed.

(** X2.  A unit that fails [k] times in a row from the world at hand
    and returns [v] at the next invocation, with [k < max_retries]:
    the wrapper returns [v]; the unit was invoked [k + 1] times and no
    more; a pause of [retry_delay] follows each failure, [k] pauses in
    all; later attempts are not made. *)
Theorem run_with_retry_recovers t (N : Z) (retry_delay : Q) args st
    (es : list exn) (v : value) (w' : World) :
  (Z.of_nat (length es) < N)%Z →
  run_in_order args (replicate (S (length es)) t) (world st)
  = ((Raise <$> es) ++ [Return v], w') →
  ∃ st' tr,
    run_with_retry t N retry_delay args st = (Return v, st')
    ∧ world st' = w'
    ∧ trace st' = trace st ++ tr
    ∧ steps tr
      = (es ≫= λ e, [EvCall (task_name t) (Raise e); EvSleep retry_delay])
        ++ [EvCall (task_name t) (Return v)]
    ∧ length (calls tr) = S (length es)
    ∧ sleeps tr = replicate (length es) retry_delay.
Proof.
  intros HN Hrun. unfold run_with_retry.
  destruct (Z.to_nat N) as [|n] eqn:Hn; [lia|].
  destruct (retry_loop_recovers t N retry_delay args v w' es n 0%Z st)
    as (st' & tr & Hloop & Hw & Htr & Hsteps); [lia|lia|done|].
  exists st', tr. split_and!; try done.
  - rewrite <- calls_steps, Hsteps, calls_app. simpl.
    rewrite length_app. simpl.
    assert (length (calls (es ≫= λ e, [EvCall (task_name t) (Raise e);
                                        EvSleep retry_delay])) = length es) as ->; [|lia].
    clear. induction es as [|e es IH]; [done|]. simpl. f_equal. exact IH.
  - rewrite <- sleeps_steps, Hsteps, sleeps_app. simpl. rewrite app_nil_r.
    clear. induction es as [|e es IH]; [done|]. simpl. f_equal. exact IH.
Qed.

(** ** The timeout wrapper, whatever the unit does *)

(** X3.  Whatever the unit and the timeout: the wrapper never raises
    [TimeoutError]; an error it raises is the unit's own, raised
    within the timeout; a value other than [None] it returns is what
    the unit returned within the timeout. *)
Theorem run_with_timeout_outcomes t (timeout : Q) args st :
  (run_with_timeout t timeout args st).1 ≠ Raise TimeoutError
  ∧ (∀ e, (run_with_timeout t timeout args st).1 = Raise e →
          within (duration t args (world st)) timeout = true
          ∧ (call t args (world st)).1 = Raise e)
  ∧ (∀ v, (run_with_timeout t timeout args st).1 = Return v →
          v ≠ VNone →
          within (duration t args (world st)) timeout = true
          ∧ (call t args (world st)).1 = Return v).
Proof.
  destruct (within (duration t args (world st)) timeout) eqn:Hin.
  - unfold run_with_timeout, wait_for. rewrite Hin.
    destruct (call t args (world st)) as [[v|e] w] eqn:Hc.
    + rewrite (run_task_return _ _ _ _ _ Hc). simpl.
      split_and!; [done|done|]. intros v' Hv _. by simplify_eq.
    + rewrite (run_task_raise _ _ _ _ _ Hc). simpl.
      destruct e; simpl; split_and!; try done; intros e' He; by simplify_eq.
  - rewrite (run_with_timeout_expired _ _ _ _ Hin). simpl.
    split_and!; [done|done|]. intros v Hv Hne. by simplify_eq.
Qed.

(** ** The rate-limited batcher at its edges *)

Lemma range_negative_step (n step : Z) :
  (0 ≤ n)%Z → (step < 0)%Z → range 0 n step = [].
Proof.
  intros Hn Hstep. unfold range, range_len.
  destruct (Z.ltb_spec 0 step) as [?|_]; [lia|].
  assert ((0 - n - step - 1) / - step ≤ 0)%Z as Hle.
  { assert ((0 - n - step - 1) / - step < 1)%Z; [|lia].
    apply Z.div_lt_upper_bound; lia. }
  rewrite Z.max_l by lia. done.
Qed.

(** X4.  A rate limit that is not positive, whatever the tasks: with
    zero the batcher raises the [ValueError] of [range], with a
    negative one it returns the empty list; in both cases no unit is
    invoked and nothing is logged, the tasks are dropped. *)
Theorem run_with_rate_limit_non_positive (tasks : list (task World Args))
    (rate_limit : Z) (time_period : Q) args st :
  (rate_limit ≤ 0)%Z →
  run_with_rate_limit tasks rate_limit time_period args st
  = (if (rate_limit =? 0)%Z
     then Raise (ValueError "range() arg 3 must not be zero")
     else Return [],
     st).
Proof.
  intros Hle. unfold run_with_rate_limit.
  destruct (Z.eqb_spec rate_limit 0) as [->|Hne]; [done|].
  rewrite range_negative_step by lia. done.
Qed.

Lemma range_single (n step : Z) :
  (1 ≤ n ≤ step)%Z → range 0 n step = [0%Z].
Proof.
  intros Hn. unfold range. rewrite range_len_positive by lia.
  assert ((n + step - 1) / step = 1)%Z as ->.
  { symmetry. apply Z.div_unique with (n - 1)%Z; lia. }
  done.
Qed.

(** X5.  A rate limit that is at least the number of tasks, with at
    least one task: there is one batch and no pause, and the batcher
    does exactly what the parallel runner does on the same tasks, the
    same result or error and the same history, whatever the units do. *)
Theorem run_with_rate_limit_single_batch (tasks : list (task World Args))
    (rate_limit : Z) (time_period : Q) args st :
  (1 ≤ Z.of_nat (length tasks) ≤ rate_limit)%Z →
  run_with_rate_limit tasks rate_limit time_period args st
  = run_in_parallel tasks args st.
Proof.
  intros Hn. unfold run_with_rate_limit.
  destruct (Z.eqb_spec rate_limit 0) as [?|_]; [lia|].
  rewrite range_single by done. rewrite rate_limit_loop_cons.
  assert (slice tasks 0 (0 + rate_limit) = tasks) as ->.
  { unfold slice. simpl. apply take_ge. lia. }
  destruct (run_in_parallel tasks args st) as [[vs|e] st1]; [|done].
  destruct (Z.ltb_spec (0 + rate_limit) (Z.of_nat (length tasks))) as [?|_]; [lia|].
  done.
Qed.

(** A gathering invokes each child at most once and takes no pause,
    however it ends. *)
Lemma run_in_parallel_events args (tasks : list (task World Args)) st :
  ∃ tr, trace (run_in_parallel tasks args st).2 = trace st ++ tr
        ∧ length (calls tr) ≤ length tasks
        ∧ sleeps tr = [].
Proof.
  destruct (run_in_parallel_runs args tasks st)
    as (r & st' & done & tr & Hrun & Htr & Hsub & Hcalls & _ & Hev & _).
  rewrite Hrun. simpl. eexists. split; [exact Htr|].
  assert (sleeps tr = []) as Hsleeps.
  { apply sleeps_none. eapply Forall_impl; [exact Hev|].
    intros ev [?|(? & ? & ? & _ & ->)]; [by destruct ev|done]. }
  change (EvLog INFO (MsgRunningParallel (length tasks))
          :: tr ++ (if is_return r then [EvLog INFO MsgParallelCompleted] else []))
    with ([EvLog INFO (MsgRunningParallel (length tasks))]
          ++ tr ++ (if is_return r then [EvLog INFO MsgParallelCompleted] else [])).
  rewrite !calls_app, !sleeps_app, Hsleeps, Hcalls. split.
  - apply submseteq_length in Hsub. rewrite length_fmap, length_imap in Hsub.
    unfold record_calls. destruct (is_return r); simpl;
      rewrite ?app_nil_r, length_fmap; done.
  - by destruct (is_return r).
Qed.

Lemma calls_elem_of (tr : list event) (name : string) (r : outcome value) :
  (name, r) ∈ calls tr → ∃ head tail, tr = head ++ EvCall name r :: tail.
Proof.
  induction tr as [|ev tr IH]; intros Hin; [by apply elem_of_nil in Hin|].
  destruct ev as [name' r'| | | | |];
    try (destruct (IH Hin) as (head & tail & ->);
         eexists (_ :: head), tail; reflexivity).
  change (calls (EvCall name' r' :: tr)) with ((name', r') :: calls tr) in Hin.
  apply elem_of_cons in Hin as [Heq|Hin].
  - simplify_eq. by exists [], tr.
  - destruct (IH Hin) as (head & tail & ->).
    eexists (_ :: head), tail; reflexivity.
Qed.

(** ** A failing unit under the rate limit *)

Lemma rate_limit_loop_fails args (tasks : list (task World Args)) (B : Z) (P : Q) :
  ∀ (before : list Z) (i : Z) (after : list Z) (acc : list value) st,
    Forall (λ i', Forall (succeeds args) (slice tasks i' (i' + B))
                  ∧ (i' + B < Z.of_nat (length tasks))%Z) before →
    Exists (always_fails args) (slice tasks i (i + B)) →
    ∃ e st' tr (failed : task World Args),
      rate_limit_loop tasks B P args (before ++ i :: after) acc st = (Raise e, st')
      ∧ trace st' = trace st ++ tr
      ∧ sleeps tr = replicate (length before) P
      ∧ length (calls tr)
        ≤ length (concat ((λ i', slice tasks i' (i' + B)%Z) <$> before))
          + length (slice tasks i (i + B))
      ∧ failed ∈ slice tasks i (i + B)
      ∧ (∃ w, (call failed args w).1 = Raise e)
      ∧ ∃ head tail,
          tr = head ++ EvCall (task_name failed) (Raise e) :: tail
          ∧ sleeps head = replicate (length before) P
          ∧ sleeps tail = []
          ∧ EvLog ERROR (MsgErrorInTask (task_name failed) e) ∈ tail.
Proof.
  induction before as [|i' before IH]; intros i after acc st Hok Hbad.
  - rewrite app_nil_l, rate_limit_loop_cons.
    destruct (run_in_parallel_runs args (slice tasks i (i + B)) st)
      as (r & st' & done & tr & Hrun & Htr & Hsub & Hcalls & Hord & Hev & Hret & Hraise).
    destruct (run_in_parallel_fails args (slice tasks i (i + B)) st Hbad)
      as (e & st2 & _ & _ & Hrun2 & _).
    rewrite Hrun in Hrun2. simplify_eq. rewrite Hrun.
    destruct (Hraise e eq_refl) as (j & failed & head & tail & Hin & Hsplit & Hcall).
    destruct (record_unit _ _ _ _ _ _ _ _ Hsub Hord Hin) as (Hit & Hw).
    destruct (run_in_parallel_events args (slice tasks i (i + B)) st)
      as (tr' & Htr' & Hbound & Hsleeps).
    rewrite Hrun in Htr'. simpl in Htr'. simpl in Htr. rewrite app_nil_r in Htr.
    assert (tr' = EvLog INFO (MsgRunningParallel (length (slice tasks i (i + B)))) :: tr)
      as -> by (apply (app_inv_head (trace st)); congruence).
    apply list_elem_of_split in Hcall as (head1 & head2 & ->).
    eexists e, st2, _, failed. split; [reflexivity|]. split_and!; try done.
    { by eapply list_elem_of_lookup_2. }
    exists (EvLog INFO (MsgRunningParallel (length (slice tasks i (i + B)))) :: head1),
      (head2 ++ EvLog ERROR (MsgErrorInTask (task_name failed) e) :: tail).
    rewrite Hsplit, <- !app_assoc in Hsleeps |- *.
    change (sleeps (EvLog INFO (MsgRunningParallel (length (slice tasks i (i + B))))
                    :: head1 ++ (EvCall (task_name failed) (Raise e) :: head2)
                       ++ EvLog ERROR (MsgErrorInTask (task_name failed) e) :: tail))
      with (sleeps (head1 ++ [EvCall (task_name failed) (Raise e)]
                    ++ head2 ++ EvLog ERROR (MsgErrorInTask (task_name failed) e) :: tail))
      in Hsleeps.
    rewrite !sleeps_app in Hsleeps.
    apply app_eq_nil in Hsleeps as [Hs1 Hs2].
    change (sleeps [EvCall (task_name failed) (Raise e)]) with (@nil Q) in Hs2.
    rewrite app_nil_l, <- sleeps_app in Hs2.
    split_and!; [done|exact Hs1|exact Hs2|].
    apply elem_of_app. right. by left.
  - apply Forall_cons in Hok as [[Hbatch Hpause] Hok].
    rewrite <- app_comm_cons, rate_limit_loop_cons.
    destruct (run_in_parallel_succeeds args (slice tasks i' (i' + B)) st Hbatch)
      as (log & vs & st1 & Hrun & _ & _).
    destruct (run_in_parallel_events args (slice tasks i' (i' + B)) st)
      as (tr1 & Htr1 & Hbound1 & Hsleeps1).
    rewrite Hrun in Htr1 |- *. simpl in Htr1.
    destruct (Z.ltb_spec (i' + B) (Z.of_nat (length tasks))) as [_|?]; [|lia].
    destruct (IH i after (acc ++ vs)
                (emit (EvSleep P) (emit (EvLog INFO (MsgRateLimitReached P)) st1))
                Hok Hbad)
      as (e & st' & tr & failed & Hloop & Htr & Hsleeps & Hbound & Hin & Hw
          & head & tail & Hsplit & Hhead & Htail & Hlog).
    exists e, st', (tr1 ++ [EvLog INFO (MsgRateLimitReached P); EvSleep P] ++ tr), failed.
    split_and!; try done.
    + rewrite Htr. simpl. rewrite Htr1, <- !app_assoc. done.
    + rewrite !sleeps_app, Hsleeps1, Hsleeps. done.
    + rewrite !calls_app, !length_app, fmap_cons. simpl.
      rewrite length_app. lia.
    + exists (tr1 ++ [EvLog INFO (MsgRateLimitReached P); EvSleep P] ++ head), tail.
      split_and!; try done.
      * rewrite Hsplit, <- !app_assoc. done.
      * rewrite !sleeps_app, Hsleeps1, Hhead. done.
Qed.

(** X6.  A unit that always fails, under a positive rate limit, when
    the units of the batches before its own succeed: those batches are
    gathered, each followed by a pause, then the batch of the failing
    unit raises the error of one of its units; the batcher hands that
    error on, returns no value and takes no further pause; the unit
    whose error it is was invoked after the last pause and its failure
    logged; no more units were invoked than the batches up to this one
    hold. *)
Theorem run_with_rate_limit_fail_fast (tasks : list (task World Args))
    (rate_limit : Z) (time_period : Q)
    (before : list (list (task World Args))) (bad : list (task World Args))
    (after : list (list (task World Args))) args st :
  (1 ≤ rate_limit)%Z →
  batches tasks rate_limit = before ++ bad :: after →
  Forall (Forall (succeeds args)) before →
  Exists (always_fails args) bad →
  ∃ e st' tr (failed : task World Args),
    run_with_rate_limit tasks rate_limit time_period args st = (Raise e, st')
    ∧ trace st' = trace st ++ tr
    ∧ sleeps tr = replicate (length before) time_period
    ∧ length (calls tr) ≤ length (concat before) + length bad
    ∧ failed ∈ bad
    ∧ (∃ w, (call failed args w).1 = Raise e)
    ∧ ∃ head tail,
        tr = head ++ EvCall (task_name failed) (Raise e) :: tail
        ∧ sleeps head = replicate (length before) time_period
        ∧ sleeps tail = []
        ∧ EvLog ERROR (MsgErrorInTask (task_name failed) e) ∈ tail.
Proof.
  intros HB Hsplit Hok Hbad. unfold run_with_rate_limit.
  destruct (Z.eqb_spec rate_limit 0) as [?|_]; [lia|].
  unfold batches in Hsplit.
  apply fmap_app_inv in Hsplit as (ixb & ixr & Hb & Hr & Hrange).
  symmetry in Hr. apply fmap_cons_inv in Hr as (i & ixa & Hi & Ha & ->).
  subst before bad after. rewrite Hrange.
  destruct (rate_limit_loop_fails args tasks rate_limit time_period ixb i ixa [] st)
    as (e & st' & tr & failed & Hloop & Htr & Hsleeps & Hbound & Hin & Hw & Hlast);
    [|done|].
  { apply Forall_forall. intros i' Hi'. split.
    - eapply Forall_forall in Hok; [exact Hok|]. apply list_elem_of_fmap. eauto.
    - apply list_elem_of_lookup in Hi' as [j Hj].
      assert (range 0 (Z.of_nat (length tasks)) rate_limit !! j = Some i') as Hj'.
      { rewrite Hrange. by apply lookup_app_l_Some. }
      apply (range_pause_condition _ _ j); [lia|lia|done|].
      rewrite Hrange, length_app. simpl.
      apply lookup_lt_Some in Hj. lia. }
  exists e, st', tr, failed. rewrite length_fmap. split_and!; done.
Qed.

(** ** The bounded runner: results, errors, degenerate bounds *)

Lemma run_record_pool args (pool pool' : list (nat * task World Args))
    (finished : list (nat * task World Args * outcome value))
    (slots : list (option value)) (failed : option exn) st r st' :
  pool' ≡ₚ pool →
  run_record args pool' finished slots failed st r st' →
  run_record args pool finished slots failed st r st'.
Proof.
  intros Hp (done & tr & Htr & Hsub & Hcalls & Hord & Hret & Hraise).
  exists done, tr. split_and!; try done.
  - by rewrite <- Hp.
  - intros slots' Hr. destruct (Hret slots' Hr) as (? & ? & ? & ? & ? & Hrest).
    split_and!; try done.
    + by rewrite <- Hp.
    + intros i Hi. apply Hrest. by rewrite Hp.
Qed.

(** A turn that invokes no unit and resumes no child. *)
Lemma run_record_quiet args (pool : list (nat * task World Args))
    (finished : list (nat * task World Args * outcome value))
    (slots : list (option value)) (failed : option exn) st st2
    (pre : list event) r st' :
  world st2 = world st →
  trace st2 = trace st ++ pre →
  calls pre = [] →
  run_record args pool finished slots failed st2 r st' →
  run_record args pool finished slots failed st r st'.
Proof.
  intros Hw Ht Hpre (done & tr & Htr & Hsub & Hcalls & Hord & Hret & Hraise).
  exists done, (pre ++ tr). split_and!; try done.
  - by rewrite Htr, Ht, <- app_assoc.
  - by rewrite calls_app, Hpre.
  - by rewrite <- Hw.
  - intros e Hr.
    destruct (Hraise e Hr) as [?|(i & t & head & tail & Hin & -> & Hwhere)]; [by left|].
    right. exists i, t, (pre ++ head), tail. split_and!; [done|by rewrite <- app_assoc|].
    destruct Hwhere as [?|?]; [by left|right]. apply elem_of_app. by right.
Qed.

(** The turn at which the unit of a child comes to its end. *)
Lemma run_record_complete args (pool pool' : list (nat * task World Args))
    (finished : list (nat * task World Args * outcome value))
    (slots : list (option value)) (failed : option exn) st
    (i : nat) t (r0 : outcome value) (w : World) st2 r st' :
  pool ≡ₚ (i, t) :: pool' →
  call t args (world st) = (r0, w) →
  world st2 = w →
  trace st2 = trace st ++ [EvCall (task_name t) r0] →
  run_record args pool' (finished ++ [(i, t, r0)]) slots failed st2 r st' →
  run_record args pool finished slots failed st r st'.
Proof.
  intros Hp Hc Hw Ht (done & tr & Htr & Hsub & Hcalls & Hord & Hret & Hraise).
  assert (pool.*1 ++ finished.*1.*1
          ≡ₚ pool'.*1 ++ (finished ++ [(i, t, r0)]).*1.*1) as Hidx.
  { rewrite Hp, !fmap_app. simpl. solve_Permutation. }
  exists ((i, t, r0) :: done), (EvCall (task_name t) r0 :: tr). split_and!.
  - rewrite Htr, Ht, <- app_assoc. done.
  - rewrite fmap_cons. simpl. rewrite Hp. by apply submseteq_skip.
  - unfold record_calls. rewrite fmap_cons, calls_cons_call. simpl.
    f_equal. exact Hcalls.
  - rewrite !fmap_cons. cbn [run_in_order fst snd]. rewrite Hc.
    rewrite Hw in Hord. by rewrite Hord.
  - intros slots' Hr.
    destruct (Hret slots' Hr) as (Hf & Hpd & Hall & Hlen & Hdone & Hrest).
    split_and!; try done.
    + rewrite fmap_cons, Hp. simpl. by rewrite Hpd.
    + by rewrite <- app_assoc in Hall.
    + intros i' t' v Hin. apply (Hdone i' t' v). by rewrite <- app_assoc.
    + intros i' Hi'. apply Hrest. by rewrite <- Hidx.
  - intros e Hr.
    destruct (Hraise e Hr) as [?|(i' & t' & head & tail & Hin & -> & Hwhere)];
      [by left|].
    right. exists i', t', (EvCall (task_name t) r0 :: head), tail.
    split_and!; [by rewrite <- app_assoc in Hin|done|].
    destruct Hwhere as [[Hf|Hnew]%elem_of_app|Hhead].
    + by left.
    + apply list_elem_of_singleton in Hnew. simplify_eq. right. by left.
    + right. by right.
Qed.

(** The turn at which a child whose unit is done is resumed. *)
Lemma run_record_resume args (pool : list (nat * task World Args))
    (finished finished' : list (nat * task World Args * outcome value))
    (slots : list (option value)) (failed : option exn) st
    (i : nat) t (r0 : outcome value) st2 r st' :
  finished ≡ₚ (i, t, r0) :: finished' →
  ¬ (i ∈ pool.*1 ++ finished'.*1.*1) →
  i < length slots →
  world st2 = world st →
  trace st2
  = trace st
    ++ match r0 with
       | Return _ => []
       | Raise e => [EvLog ERROR (MsgErrorInTask (task_name t) e)]
       end
    ++ [EvRelease i] →
  run_record args pool finished' (settle failed i r0 slots).1
    (settle failed i r0 slots).2 st2 r st' →
  run_record args pool finished slots failed st r st'.
Proof.
  intros Hp Hfresh Hi Hw Ht (done & tr & Htr & Hsub & Hcalls & Hord & Hret & Hraise).
  destruct (settle_spec failed i r0 slots) as (Hslen & Hsnone & Hssome).
  set (logs := match r0 with
               | Return _ => []
               | Raise e => [EvLog ERROR (MsgErrorInTask (task_name t) e)]
               end) in *.
  assert (calls (logs ++ [EvRelease i]) = []) as Hquiet.
  { subst logs. by destruct r0. }
  assert (∀ c, c ∈ finished' ++ done → c ∈ finished ++ done) as Hmem.
  { intros c [Hc|Hc]%elem_of_app; apply elem_of_app; [left|by right].
    rewrite Hp. by right. }
  assert ((i, t, r0) ∈ finished) as Hhere by (rewrite Hp; by left).
  exists done, ((logs ++ [EvRelease i]) ++ tr). split_and!; try done.
  - by rewrite Htr, Ht, <- !app_assoc.
  - by rewrite calls_app, Hquiet.
  - by rewrite <- Hw.
  - intros slots' Hr.
    destruct (Hret slots' Hr) as (Hf & Hpd & Hall & Hlen & Hdone & Hrest).
    destruct (Hsnone Hf) as (-> & v & -> & Hins).
    rewrite Hins in *. rewrite length_insert in Hlen.
    split_and!; try done.
    + rewrite Hp. simpl. by constructor.
    + intros i' t' v' [Hin|Hin]%elem_of_app.
      * rewrite Hp in Hin. apply elem_of_cons in Hin as [Heq|Hin].
        -- simplify_eq. rewrite Hrest by done. by apply list_lookup_insert_eq.
        -- apply (Hdone i' t' v'). apply elem_of_app. by left.
      * apply (Hdone i' t' v'). apply elem_of_app. by right.
    + intros i' Hi'.
      assert (i' ≠ i ∧ ¬ (i' ∈ pool.*1 ++ finished'.*1.*1)) as [Hne Hi''].
      { rewrite Hp in Hi'. rewrite !fmap_cons in Hi'. simpl in Hi'.
        rewrite elem_of_app, elem_of_cons in Hi'. rewrite elem_of_app.
        split; [intros ->|]; tauto. }
      rewrite Hrest by done. by apply list_lookup_insert_ne.
  - intros e Hr.
    destruct (Hraise e Hr) as [Hf|(i' & t' & head & tail & Hin & -> & Hwhere)].
    + destruct (Hssome e Hf) as [?|[-> ->]]; [by left|].
      right. exists i, t, [], tr. split_and!; [|done|by left].
      apply elem_of_app. by left.
    + right. exists i', t', ((logs ++ [EvRelease i]) ++ head), tail.
      split_and!; [by apply Hmem|by rewrite <- !app_assoc|].
      destruct Hwhere as [Hf|Hhead].
      * left. rewrite Hp. by right.
      * right. apply elem_of_app. by right.
Qed.

(** However a bounded run ends, this is how it came there. *)
Lemma semaphore_loop_record args (fuel : nat) :
  ∀ sem (unstarted running : list (nat * task World Args))
    (finished : list (nat * task World Args * outcome value))
    (woken : list (nat * task World Args))
    (slots : list (option value)) (failed : option exn) st r st',
    semaphore_loop args fuel sem unstarted running finished woken slots failed st
    = Ended r st' →
    NoDup ((unstarted ++ running ++ woken ++ sem_waiters sem).*1 ++ finished.*1.*1) →
    Forall (λ i, i < length slots)
      ((unstarted ++ running ++ woken ++ sem_waiters sem).*1 ++ finished.*1.*1) →
    run_record args (unstarted ++ running ++ woken ++ sem_waiters sem) finished
      slots failed st r st'.
Proof.
  induction fuel as [|fuel IH];
    intros sem unstarted running finished woken slots failed st r st' Hrun Hnd Hlt;
    [done|].
  rewrite semaphore_loop_S in Hrun.
  pose proof (next_choice_world (length running + length finished + 2) st) as Hw1.
  pose proof (next_choice_trace (length running + length finished + 2) st) as Ht1.
  destruct (next_choice (length running + length finished + 2) st) as [choice st1].
  cbn [fst snd] in *.
  pose proof (turn_of_spec choice (length unstarted) (length running) (length finished)
                (length woken) (bool_decide (is_Some failed))) as Hturn.
  destruct (turn_of choice (length unstarted) (length running) (length finished)
              (length woken) (bool_decide (is_Some failed))) as [|j|j| |].
  - (* a child takes its first step *)
    destruct unstarted as [|c unstarted]; [done|].
    assert (unstarted
            ++ (if (acquire c sem).2 then running ++ [c] else running)
            ++ woken ++ sem_waiters (acquire c sem).1
            ≡ₚ (c :: unstarted) ++ running ++ woken ++ sem_waiters sem) as Hp.
    { rewrite acquire_waiters. destruct (acquire c sem).2; solve_Permutation. }
    apply (run_record_pool _ _ _ _ _ _ _ _ _ Hp).
    apply IH in Hrun; [|by rewrite Hp..].
    eapply (run_record_quiet _ _ _ _ _ _ _
              (if (acquire c sem).2 then [EvAcquire c.1] else [])); [| | |exact Hrun].
    + destruct (acquire c sem).2; simpl; by rewrite ?Hw1.
    + destruct (acquire c sem).2; simpl; by rewrite ?Ht1, ?app_nil_r.
    + by destruct (acquire c sem).2.
  - (* the unit of a child inside the block is done *)
    destruct (running !! j) as [[i t]|] eqn:Hit; [|done].
    destruct (call t args (world st1)) as [r0 w] eqn:Hc.
    rewrite (to_thread_eq _ _ _ _ _ Hc) in Hrun. cbn [fst snd] in Hrun.
    pose proof (delete_Permutation _ _ _ Hit) as Hperm.
    assert (unstarted ++ running ++ woken ++ sem_waiters sem
            ≡ₚ (i, t) :: unstarted ++ delete j running ++ woken ++ sem_waiters sem)
      as Hp.
    { rewrite Hperm at 1. solve_Permutation. }
    assert ((unstarted ++ running ++ woken ++ sem_waiters sem).*1 ++ finished.*1.*1
            ≡ₚ (unstarted ++ delete j running ++ woken ++ sem_waiters sem).*1
               ++ (finished ++ [(i, t, r0)]).*1.*1) as Hidx.
    { rewrite Hp, fmap_cons, !fmap_app. simpl. solve_Permutation. }
    apply IH in Hrun; [|by rewrite <- Hidx..].
    eapply (run_record_complete _ _ _ _ _ _ _ _ _ _ _ _ _ _ Hp); [| | |exact Hrun].
    + by rewrite <- Hw1.
    + done.
    + simpl. by rewrite Ht1.
  - (* a child whose unit is done is resumed and leaves the block *)
    destruct (finished !! j) as [[[i t] r0]|] eqn:Hit; [|done].
    pose proof (delete_Permutation _ _ _ Hit) as Hperm.
    assert (unstarted ++ running ++ (woken ++ option_list (release sem).2)
            ++ sem_waiters (release sem).1
            ≡ₚ unstarted ++ running ++ woken ++ sem_waiters sem) as Hp.
    { pose proof (release_waiters sem) as Hq.
      generalize dependent (sem_waiters sem). intros q _ _ <-.
      solve_Permutation. }
    assert ((unstarted ++ running ++ woken ++ sem_waiters sem).*1 ++ finished.*1.*1
            ≡ₚ i :: (unstarted ++ running ++ woken ++ sem_waiters sem).*1
                    ++ (delete j finished).*1.*1) as Hidx.
    { rewrite Hperm at 1. rewrite !fmap_cons. simpl. solve_Permutation. }
    rewrite Hidx in Hnd, Hlt.
    apply NoDup_cons in Hnd as [Hfresh Hnd]. apply Forall_cons in Hlt as [Hi Hlt].
    destruct (settle_spec failed i r0 slots) as (Hslen & _).
    apply IH in Hrun; [|by rewrite Hp|by rewrite Hp, Hslen].
    apply (run_record_pool _ _ _ _ _ _ _ _ _ Hp) in Hrun.
    eapply (run_record_resume _ _ _ _ _ _ _ _ _ _ _ _ _ Hperm Hfresh Hi);
      [| |exact Hrun].
    + simpl. rewrite run_task_resumed_state. by destruct r0.
    + simpl. rewrite run_task_resumed_state.
      destruct r0; simpl; by rewrite Ht1, <- ?app_assoc.
  - (* a coroutine that was woken enters the block *)
    destruct woken as [|c woken]; [done|].
    assert (unstarted ++ (running ++ [c]) ++ woken ++ sem_waiters sem
            ≡ₚ unstarted ++ running ++ (c :: woken) ++ sem_waiters sem) as Hp
      by solve_Permutation.
    apply (run_record_pool _ _ _ _ _ _ _ _ _ Hp).
    apply IH in Hrun; [|by rewrite Hp..].
    eapply (run_record_quiet _ _ _ _ _ _ _ [EvAcquire c.1]); [| | |exact Hrun].
    + done.
    + simpl. by rewrite Ht1.
    + done.
  - (* the awaiting coroutine is resumed *)
    assert (r = match failed with Some e => Raise e | None => Return slots end
            ∧ st' = st1
            ∧ (failed = None →
               unstarted ++ running ++ woken ++ sem_waiters sem = []
               ∧ finished = [])) as (-> & -> & Hnone).
    { destruct failed as [e|]; [by simplify_eq|].
      destruct (decide (sem_waiters sem = [])) as [Hq|Hq];
        [rewrite bool_decide_eq_true_2 in Hrun by done
        |by rewrite bool_decide_eq_false_2 in Hrun by done].
      simplify_eq.
      destruct Hturn as [?|(HU & HR & HF & HW)]; [done|].
      destruct unstarted, running, finished, woken; try done. }
    exists [], []. rewrite app_nil_r. split_and!; try done.
    + apply submseteq_nil_l.
    + by rewrite Hw1.
    + intros slots' Hr. destruct failed; [done|]. simplify_eq.
      destruct (Hnone eq_refl) as [-> ->].
      split_and!; try done. intros ??? H. by apply elem_of_nil in H.
    + intros e Hr. left. destruct failed; by simplify_eq.
Qed.

(** The record of a whole bounded run. *)
Lemma gather_with_semaphore_record (tasks : list (task World Args)) (k : nat)
    args st r st' :
  gather_with_semaphore tasks k args st = Ended r st' →
  ∃ (done : list (nat * task World Args * outcome value)) tr,
    trace st' = trace st ++ tr
    ∧ done.*1 ⊆+ imap pair tasks
    ∧ calls tr = record_calls done
    ∧ run_in_order args done.*1.*2 (world st) = (done.*2, world st')
    ∧ (∀ vs, r = Return vs →
         ∃ completed,
           done = (λ c, (c.1, Return c.2)) <$> completed
           ∧ gathered args tasks (world st) completed vs (world st'))
    ∧ (∀ e, r = Raise e →
         ∃ i t head tail,
           (i, t, Raise e) ∈ done
           ∧ tr = head ++ EvLog ERROR (MsgErrorInTask (task_name t) e)
                       :: EvRelease i :: tail
           ∧ EvCall (task_name t) (Raise e) ∈ head).
Proof.
  unfold gather_with_semaphore. intros Hrun.
  destruct (semaphore_loop args (S (4 * length tasks)) (Semaphore k [])
              (imap pair tasks) [] [] [] (replicate (length tasks) None) None st)
    as [r0 st0|st0] eqn:Hloop; [|done].
  apply semaphore_loop_record in Hloop.
  - simpl in Hloop. rewrite !app_nil_r in Hloop.
    destruct Hloop as (done & tr & Htr & Hsub & Hcalls & Hord & Hret & Hraise).
    destruct r0 as [slots|e]; simplify_eq.
    + exists done, tr. split_and!; try done.
      intros vs ?. simplify_eq.
      destruct (Hret slots eq_refl) as (_ & Hp & Hall & Hlen & Hdone & _).
      simpl in Hall, Hdone. rewrite length_replicate in Hlen.
      destruct (record_returned done Hall) as [completed ->].
      destruct (record_values completed) as (H1 & H2 & _).
      rewrite H1 in Hp, Hord. rewrite H2 in Hord.
      exists completed. split; [done|].
      apply slots_gathered; try done.
      intros i t v Hin. apply (Hdone i t v).
      apply list_elem_of_fmap. by exists (i, t, v).
    + exists done, tr. split_and!; try done.
      intros e' ?. simplify_eq.
      destruct (Hraise e' eq_refl) as [?|(i & t & head & tail & Hin & -> & Hwhere)];
        [done|].
      exists i, t, head, tail. split_and!; [done|done|].
      destruct Hwhere as [Hnil|?]; [by apply elem_of_nil in Hnil|done].
  - simpl. rewrite !app_nil_r, indexed_fst. apply NoDup_seq.
  - simpl. rewrite !app_nil_r, indexed_fst. apply Forall_forall. intros i Hi.
    apply elem_of_seq in Hi. rewrite length_replicate. lia.
Qed.

(** No unit of a bounded run that returns a list has raised, and no
    bounded run invents an error. *)
Lemma gather_with_semaphore_units (tasks : list (task World Args)) (k : nat)
    args st r st' :
  gather_with_semaphore tasks k args st = Ended r st' →
  (∀ vs, r = Return vs → ¬ Exists (always_fails args) tasks)
  ∧ (∀ e, r = Raise e → ∃ t w, t ∈ tasks ∧ (call t args w).1 = Raise e).
Proof.
  intros Hrun.
  destruct (gather_with_semaphore_record tasks k args st r st' Hrun)
    as (done & tr & Htr & Hsub & Hcalls & Hord & Hret & Hraise).
  split.
  - intros vs Hr (t & Hin & Hbad)%Exists_exists.
    destruct (Hret vs Hr) as (completed & _ & (_ & Hp & Hord3 & _)).
    apply list_elem_of_lookup in Hin as [i Hi].
    assert ((i, t) ∈ completed.*1) as ([c v] & Heq & Hc)%list_elem_of_fmap.
    { rewrite Hp. by apply (elem_of_lookup_imap_2 pair). }
    simpl in Heq. subst c.
    apply run_in_order_outcomes in Hord3.
    apply list_elem_of_lookup in Hc as [j Hj].
    destruct (Forall2_lookup_lr _ _ _ j t (Return v) Hord3) as (w0 & Hw0).
    { by rewrite !list_lookup_fmap, Hj. }
    { by rewrite !list_lookup_fmap, Hj. }
    specialize (Hbad w0). by rewrite Hw0 in Hbad.
  - intros e Hr. destruct (Hraise e Hr) as (i & t & _ & _ & Hin & _).
    destruct (record_unit _ _ _ _ _ _ _ _ Hsub Hord Hin) as (Hit & w0 & Hw0).
    exists t, w0. split; [by eapply list_elem_of_lookup_2|done].
Qed.

(** A bounded run with a bound of at least one comes to an end. *)
Lemma gather_with_semaphore_ends (tasks : list (task World Args)) (k : nat) args st :
  0 < k →
  ∃ r st' tr,
    gather_with_semaphore tasks k args st = Ended r st'
    ∧ trace st' = trace st ++ tr
    ∧ (is_return r = true →
       length (acquires tr) = length tasks ∧ length (releases tr) = length tasks).
Proof.
  intros Hk. unfold gather_with_semaphore.
  destruct (semaphore_loop_invariant args tasks k (trace st) Hk
              (S (4 * length tasks)) (Semaphore k []) (imap pair tasks)
              [] [] [] (replicate (length tasks) None) None st [])
    as (r & st' & tr & Hloop & Htr & _ & _ & _ & _ & Hret).
  { by rewrite app_nil_r. }
  { apply semaphore_invariant_initial. }
  { rewrite length_imap. simpl. lia. }
  rewrite Hloop. destruct r as [slots|e].
  - eexists _, st', tr. split_and!; try done.
    intros _. by destruct (Hret slots eq_refl) as (? & _ & ?).
  - eexists _, st', tr. by split_and!.
Qed.

Lemma run_with_resource_management_gathered (tasks : list (task World Args))
    (max_concurrent : Z) args st :
  (1 ≤ max_concurrent)%Z →
  Forall (succeeds args) tasks →
  ∃ completed vs st' tr,
    run_with_resource_management tasks max_concurrent args st = Some (Return vs, st')
    ∧ gathered args tasks (world st) completed vs (world st')
    ∧ trace st' = trace st ++ tr
    ∧ calls tr = (λ c, (task_name c.1.2, Return c.2)) <$> completed
    ∧ length (acquires tr) = length tasks
    ∧ length (releases tr) = length tasks.
Proof.
  intros Hk Hok. unfold run_with_resource_management.
  destruct (Z.ltb_spec max_concurrent 0) as [?|_]; [lia|].
  destruct (gather_with_semaphore_ends tasks (Z.to_nat max_concurrent) args st
              ltac:(lia)) as (r & st' & tr & Hrun & Htr & Hcount).
  destruct (gather_with_semaphore_record _ _ _ _ _ _ Hrun)
    as (done & tr2 & Htr2 & Hsub & Hcalls & Hord & Hret & Hraise).
  assert (tr2 = tr) as -> by (apply (app_inv_head (trace st)); congruence).
  rewrite Hrun. destruct r as [vs|e].
  - destruct (Hret vs eq_refl) as (completed & -> & Hg).
    destruct (record_values completed) as (_ & _ & Hrc). rewrite Hrc in Hcalls.
    destruct (Hcount eq_refl) as [? ?].
    by exists completed, vs, st', tr.
  - exfalso.
    destruct (gather_with_semaphore_units _ _ _ _ _ _ Hrun) as [_ Hunit].
    destruct (Hunit e eq_refl) as (t & w & Hin & Hw).
    rewrite Forall_forall in Hok. specialize (Hok t Hin w). by rewrite Hw in Hok.
Qed.

(** X7.  Units that all succeed, run with a bound of at least one,
    whatever the order in which they finish: the bounded runner returns
    a list as long as the input whose i-th element is what the i-th
    unit returned; [completed] records the run, each unit once in
    order of completion; every unit entered the block and left it, so
    that no slot of the semaphore stays taken. *)
Theorem run_with_resource_management_succeeds (tasks : list (task World Args))
    (max_concurrent : Z) args st :
  (1 ≤ max_concurrent)%Z →
  Forall (succeeds args) tasks →
  ∃ completed vs st' tr,
    run_with_resource_management tasks max_concurrent args st = Some (Return vs, st')
    ∧ length vs = length tasks
    ∧ completed.*1 ≡ₚ imap pair tasks
    ∧ run_in_order args completed.*1.*2 (world st) = (Return <$> completed.*2, world st')
    ∧ (∀ i t, tasks !! i = Some t → ∃ v, (i, t, v) ∈ completed ∧ vs !! i = Some v)
    ∧ trace st' = trace st ++ tr
    ∧ calls tr = (λ c, (task_name c.1.2, Return c.2)) <$> completed
    ∧ length (acquires tr) = length tasks
    ∧ length (releases tr) = length tasks.
Proof.
  intros Hk Hok.
  destruct (run_with_resource_management_gathered tasks max_concurrent args st Hk Hok)
    as (completed & vs & st' & tr & Hrun & (Hlen & Hp & Hord & _ & Hall) & Hrest).
  exists completed, vs, st', tr. split_and!; try done; apply Hrest.
Qed.


(** With no slot at all every coroutine queues and nothing happens. *)
Lemma semaphore_loop_zero args (fuel : nat) :
  ∀ (waiters unstarted : list (nat * task World Args))
    (slots : list (option value)) st,
    unstarted ++ waiters ≠ [] →
    ∃ st',
      semaphore_loop args fuel (Semaphore 0 waiters) unstarted [] [] [] slots None st
      = Blocked st'
      ∧ world st' = world st
      ∧ trace st' = trace st.
Proof.
  induction fuel as [|fuel IH]; intros waiters unstarted slots st Hsome.
  - by exists st.
  - rewrite semaphore_loop_S.
    pose proof (next_choice_world (length ([] : list (nat * task World Args))
                                   + length ([] : list (nat * task World Args
                                                        * outcome value)) + 2) st)
      as Hw1.
    pose proof (next_choice_trace (length ([] : list (nat * task World Args))
                                   + length ([] : list (nat * task World Args
                                                        * outcome value)) + 2) st)
      as Ht1.
    destruct (next_choice _ st) as [choice st1]. cbn [fst snd] in *.
    pose proof (turn_of_spec choice (length unstarted) 0 0 0
                  (bool_decide (is_Some (None : option exn)))) as Hturn.
    cbn [length].
    destruct (turn_of choice (length unstarted) 0 0 0
                (bool_decide (is_Some (None : option exn)))) as [|j|j| |];
      try (simpl in Hturn; lia).
    + destruct unstarted as [|c unstarted]; [simpl in Hturn; lia|].
      change (acquire c (Semaphore 0 waiters))
        with (Semaphore 0 (waiters ++ [c]), false).
      cbn [fst snd].
      destruct (IH (waiters ++ [c]) unstarted slots st1) as (st' & -> & Hw & Ht).
      { intros [_ Hq]%app_eq_nil. by destruct waiters. }
      exists st'. split_and!; [done|congruence|congruence].
    + destruct Hturn as [Hover|(HU & _)]; [by rewrite bool_decide_eq_false_2 in Hover
                                            by (by intros [? ?])|].
      destruct unstarted; [|done]. simpl in Hsome.
      cbn [sem_waiters]. rewrite bool_decide_eq_false_2 by done.
      by exists st1.
Qed.

(** X9.  A bound that is not positive.  With a negative one the
    bounded runner raises the [ValueError] of the semaphore, the state
    untouched: no unit is invoked.  With zero and at least one task
    the caller gets nothing: the call never ends, every coroutine
    waiting for a semaphore nobody can release, and up to there no unit
    was invoked and nothing was written to the log.  With zero and no
    task it returns the empty list. *)
Theorem run_with_resource_management_non_positive (tasks : list (task World Args))
    (max_concurrent : Z) args st :
  (max_concurrent ≤ 0)%Z →
  if (max_concurrent <? 0)%Z
  then run_with_resource_management tasks max_concurrent args st
       = Some (Raise (ValueError "Semaphore initial value must be >= 0"), st)
  else match tasks with
       | [] =>
           ∃ st', run_with_resource_management tasks max_concurrent args st
                  = Some (Return [], st')
                  ∧ world st' = world st ∧ trace st' = trace st
       | _ :: _ =>
           run_with_resource_management tasks max_concurrent args st = None
           ∧ ∃ st', gather_with_semaphore tasks 0 args st = Blocked st'
                    ∧ world st' = world st ∧ trace st' = trace st
       end.
Proof.
  intros Hle. unfold run_with_resource_management.
  destruct (Z.ltb_spec max_concurrent 0) as [?|Hge]; [done|].
  assert (max_concurrent = 0%Z) as -> by lia.
  change (Z.to_nat 0) with 0.
  destruct tasks as [|t tasks].
  - unfold gather_with_semaphore.
    change (length ([] : list (task World Args))) with 0.
    change (4 * 0) with 0. rewrite semaphore_loop_S.
    pose proof (next_choice_world 2 st) as Hw1.
    pose proof (next_choice_trace 2 st) as Ht1.
    cbn [length imap replicate Nat.add] in *.
    destruct (next_choice 2 st) as [choice st1]. cbn [fst snd] in *.
    pose proof (turn_of_spec choice 0 0 0 0
                  (bool_decide (is_Some (None : option exn)))) as Hturn.
    destruct (turn_of choice 0 0 0 0 (bool_decide (is_Some (None : option exn))))
      as [|j|j| |]; try lia.
    by exists st1.
  - destruct (semaphore_loop_zero args (S (4 * length (t :: tasks))) []
                (imap pair (t :: tasks)) (replicate (length (t :: tasks)) None) st)
      as (st' & Hloop & Hw & Ht); [done|].
    unfold gather_with_semaphore. rewrite Hloop. split; [done|]. by exists st'.
Qed.

(** ** The dependency run: its errors, and when it returns *)

Section GraphErrors.

Context (tasks : list (string * task World Args)).
Context (dependencies : gmap string (list string)).
Context (args : Args).

Lemma for_each_graph_error (body : string → G value) :
  returns_well tasks dependencies args body →
  raises_graph_error tasks dependencies body →
  ∀ (ds : list string) gs st e gs' st',
    for_each body ds gs st = Some (Raise e, gs', st') →
    graph_invariant dependencies gs →
    (∀ d, d ∈ ds → reachable tasks dependencies d) →
    (∀ d x, d ∈ ds → x ∈ in_progress gs → tc (depends_on dependencies) x d) →
    graph_error tasks dependencies e.
Proof.
  intros Hret Hraise ds.
  induction ds as [|d ds IH]; intros gs st e gs' st' Hrun Hinv Hreach Hstack; [done|].
  cbn [for_each] in Hrun.
  destruct (body d gs st) as [[[[v|e1] gs1] st1]|] eqn:Hd; [| |done].
  - destruct (Hret _ _ _ _ _ _ Hd Hinv) as (o & _ & Hinv1 & Hip1 & _).
    apply (IH _ _ _ _ _ Hrun Hinv1).
    + intros d' Hd'. apply Hreach. by right.
    + intros d' x Hd' Hx. rewrite Hip1 in Hx. apply Hstack; [by right|done].
  - simplify_eq. apply (Hraise _ _ _ _ _ _ Hd Hinv).
    + apply Hreach. by left.
    + intros x Hx. apply Hstack; [by left|done].
Qed.

Lemma resolve_graph_error (depth : nat) :
  Forall (λ kt, succeeds args kt.2) tasks →
  raises_graph_error tasks dependencies
    (run_task_with_deps tasks dependencies args depth).
Proof.
  intros Hok.
  induction depth as [|depth IH]; intros name gs st e gs' st' Hrun Hinv Hreach Hstack;
    [done|].
  rewrite resolve_S in Hrun.
  destruct (results gs !! name) as [v0|] eqn:Hcached; [done|].
  destruct (decide (name ∈ in_progress gs)) as [Hin|Hfree].
  - simplify_eq. left. exists name. split_and!; [done| |done]. by apply Hstack.
  - apply not_elem_of_dom in Hcached.
    destruct Hinv as (Hdisj & Hclosed & Hacyc).
    assert (graph_invariant dependencies
              (GraphState (results gs) (in_progress gs ∪ {[name]}))) as Hinv1.
    { split_and!; simpl; [set_solver|done..]. }
    destruct (for_each _ _ _ st) as [[[[u|e1] gs2] st2]|] eqn:Hloop; [| |done].
    + destruct (getitem tasks name) as [t|] eqn:Hget.
      * apply getitem_Some in Hget.
        assert (succeeds args t) as Ht.
        { rewrite Forall_forall in Hok. apply (Hok (name, t) Hget). }
        destruct (succeeds_call t args (world st2) Ht) as (v & w & Hcall).
        by rewrite (run_task_return _ _ _ _ _ Hcall) in Hrun.
      * simplify_eq. right. exists name. split_and!; [done| |done].
        intros Hkey. apply (getitem_key tasks) in Hkey as [t Ht]. congruence.
    + simplify_eq.
      apply (for_each_graph_error _ (resolve_return tasks dependencies args depth) IH
               _ _ _ _ _ _ Hloop Hinv1).
      * intros d Hd. destruct Hreach as (key & Hkey & Hpath).
        exists key. split; [done|]. by eapply rtc_r.
      * simpl. intros d x Hd [Hx| ->%elem_of_singleton]%elem_of_union.
        -- eapply tc_r; [by apply Hstack|done].
        -- by apply tc_once.
Qed.

Lemma run_with_dependency_graph_raise_error st e st' :
  Forall (λ kt, succeeds args kt.2) tasks →
  run_with_dependency_graph tasks dependencies args st = Some (Raise e, st') →
  graph_error tasks dependencies e.
Proof.
  intros Hok Hrun.
  destruct (run_with_dependency_graph_cases tasks dependencies args st)
    as (r & gs & st1 & Hloop & Hrun').
  rewrite Hrun in Hrun'. destruct r as [u|e1]; [done|]. simplify_eq.
  apply (for_each_graph_error _ (resolve_return tasks dependencies args _)
           (resolve_graph_error _ Hok) _ _ _ _ _ _ Hloop
           (empty_graph_invariant dependencies)).
  - intros d Hd. by exists d.
  - simpl. intros d x _ Hx. set_solver.
Qed.

Lemma run_with_dependency_graph_return_reach st res st' :
  run_with_dependency_graph tasks dependencies args st = Some (Return res, st') →
  ∀ name, reachable tasks dependencies name →
          name ∈ tasks.*1 ∧ ¬ on_cycle dependencies name.
Proof.
  intros Hrun name (key & Hkey & Hpath).
  destruct (run_with_dependency_graph_return _ _ _ _ _ _ Hrun)
    as (os & (_ & _ & Hget & Hdom & _) & (_ & Hclosed & Hacyc) & Hall & _).
  simpl in *.
  assert (name ∈ dom res) as Hname.
  { eapply closed_rtc; [exact Hclosed|exact Hpath|]. by apply Hall. }
  split; [|by apply Hacyc].
  rewrite Hdom, dom_empty_L, (left_id_L ∅ union) in Hname.
  apply elem_of_list_to_set in Hname.
  apply list_elem_of_fmap in Hname as ([k' t] & -> & Hin).
  apply list_elem_of_fmap in Hin as ([kt v] & -> & Hin).
  rewrite Forall_forall in Hget. specialize (Hget _ Hin). simpl in Hget.
  destruct kt as [k unit]. simpl in *.
  apply getitem_Some in Hget. apply list_elem_of_fmap. by exists (k, unit).
Qed.

(** X10.  The dependency run over units that all succeed comes to an
    end, and when it raises the error is one of two: the cycle error,
    naming a task that lies on a cycle, or the [KeyError] of the task
    mapping, naming a prerequisite that is no task; either names
    something within reach of the task mapping. *)
Theorem run_with_dependency_graph_errors st :
  Forall (λ kt, succeeds args kt.2) tasks →
  ∃ r st',
    run_with_dependency_graph tasks dependencies args st = Some (r, st')
    ∧ ∀ e, r = Raise e → graph_error tasks dependencies e.
Proof.
  intros Hok.
  destruct (run_with_dependency_graph_cases tasks dependencies args st)
    as (r & gs & st' & _ & Hrun).
  eexists _, st'. split; [exact Hrun|]. intros e He.
  destruct r as [u|e1]; [done|]. simplify_eq.
  by eapply run_with_dependency_graph_raise_error.
Qed.

(** X11.  When every unit succeeds the dependency run returns a
    mapping exactly when everything within reach of the task mapping
    is a task and lies on no cycle. *)
Theorem run_with_dependency_graph_returns_iff st :
  Forall (λ kt, succeeds args kt.2) tasks →
  (∃ res st',
     run_with_dependency_graph tasks dependencies args st = Some (Return res, st'))
  ↔ (∀ name, reachable tasks dependencies name →
             name ∈ tasks.*1 ∧ ¬ on_cycle dependencies name).
Proof.
  intros Hok. split.
  - intros (res & st' & Hrun). by eapply run_with_dependency_graph_return_reach.
  - intros Hgood.
    destruct (run_with_dependency_graph_cases tasks dependencies args st)
      as (r & gs & st' & _ & Hrun).
    destruct r as [u|e]; [by eexists _, _|].
    destruct (run_with_dependency_graph_raise_error _ _ _ Hok Hrun)
      as [(x & _ & Hcyc & Hx)|(k & _ & Hk & Hr)].
    + by destruct (Hgood x Hx).
    + by destruct (Hgood k Hr).
Qed.

Lemma run_in_order_values (ts : list (task World Args)) :
  ∀ (vs : list value) w w',
    run_in_order args ts w = (Return <$> vs, w') →
    Forall2 (λ t v, ∃ w0, (call t args w0).1 = Return v) ts vs.
Proof.
  induction ts as [|t ts IH]; intros vs w w' Hrun.
  - simpl in Hrun. destruct vs; [constructor|done].
  - simpl in Hrun. destruct (call t args w) as [r w1] eqn:Hc.
    destruct (run_in_order args ts w1) as [rs w2] eqn:Hrest.
    destruct vs as [|v vs]; [done|]. rewrite fmap_cons in Hrun. simplify_eq.
    constructor; [|by eapply IH].
    exists w. by rewrite Hc.
Qed.

(** The mapping returned when the unit stored under each name [k]
    returns [f k] whatever the world. *)
Lemma run_with_dependency_graph_values (f : string → value) st res st' :
  (∀ k t, (k, t) ∈ tasks → returns args t (f k)) →
  run_with_dependency_graph tasks dependencies args st = Some (Return res, st') →
  ∀ k, res !! k = if decide (k ∈ tasks.*1) then Some (f k) else None.
Proof.
  intros Hf Hrun k.
  destruct (run_with_dependency_graph_return _ _ _ _ _ _ Hrun)
    as (os & (_ & Hord & Hget & Hdom & _ & Hlook & _) & _ & Hall & _).
  rewrite dom_empty_L, (left_id_L ∅ union) in Hdom.
  apply run_in_order_values in Hord.
  rewrite Forall_forall in Hget.
  case_decide as Hk.
  - apply Hall in Hk. rewrite Hdom in Hk. apply elem_of_list_to_set in Hk.
    apply list_elem_of_fmap in Hk as ([k' t] & -> & Hin).
    apply list_elem_of_fmap in Hin as ([kt v] & Heq & Hin).
    destruct kt as [k0 unit]. simpl in Heq. simplify_eq. simpl.
    pose proof (Hlook _ Hin) as Hv. simpl in Hv. rewrite Hv. f_equal.
    pose proof (Hget _ Hin) as Hunit. simpl in Hunit. apply getitem_Some in Hunit.
    apply list_elem_of_lookup in Hin as [j Hj].
    destruct (Forall2_lookup_lr _ _ _ j unit v Hord) as (w0 & Hw0).
    { by rewrite !list_lookup_fmap, Hj. }
    { by rewrite list_lookup_fmap, Hj. }
    specialize (Hf _ _ Hunit w0). congruence.
  - apply not_elem_of_dom. rewrite Hdom. intros Hin. apply Hk.
    apply elem_of_list_to_set in Hin.
    apply list_elem_of_fmap in Hin as ([k' t] & -> & Hin).
    apply list_elem_of_fmap in Hin as ([kt v] & Heq & Hin).
    destruct kt as [k0 unit]. simpl in Heq. simplify_eq. simpl.
    specialize (Hget _ Hin). simpl in Hget. apply getitem_Some in Hget.
    apply list_elem_of_fmap. by exists (k0, unit).
Qed.

(** *** No task is invoked twice *)

Lemma attempts_nil gs st (err : option exn) :
  attempts_effect tasks gs st [] err gs st.
Proof.
  unfold attempts_effect. split_and!; try done.
  - exists []. by rewrite app_nil_r.
  - constructor.
  - intros k Hk. by apply elem_of_nil in Hk.
  - set_solver.
  - exists [], []. split_and!; [done|constructor|by left].
Qed.

Lemma attempts_app gs st o1 gs1 st1 o2 (err : option exn) gs2 st2 :
  attempts_effect tasks gs st o1 None gs1 st1 →
  attempts_effect tasks gs1 st1 o2 err gs2 st2 →
  attempts_effect tasks gs st (o1 ++ o2) err gs2 st2.
Proof.
  intros ((tr1 & Htr1 & Hc1) & Hg1 & Hn1 & Hf1 & Hsub1 & Hdom1 & Hip1 & Hsplit1)
         ((tr2 & Htr2 & Hc2) & Hg2 & Hn2 & Hf2 & Hsub2 & Hdom2 & Hip2 & Hsplit2).
  destruct Hsplit1 as (good1 & bad1 & -> & Hgood1 & Hbad1).
  assert (bad1 = []) as -> by (by destruct Hbad1 as [?|(x & e & _ & _ & ?)]).
  rewrite app_nil_r in *.
  unfold attempts_effect. split_and!.
  - exists (tr1 ++ tr2). rewrite Htr2, Htr1, <- app_assoc, calls_app, Hc1, Hc2.
    split; [done|]. unfold attempted. by rewrite !fmap_app.
  - by apply Forall_app.
  - rewrite !fmap_app. apply NoDup_app. split_and!; [done| |done].
    intros k Hk1 Hk2.
    assert (k ∈ dom (results gs1)) as Hin.
    { apply list_elem_of_fmap in Hk1 as ([k' t] & -> & Hk1).
      apply list_elem_of_fmap in Hk1 as (x & Heq & Hx).
      rewrite Forall_forall in Hgood1. destruct (Hgood1 x Hx) as [_ Hres].
      by rewrite <- Heq in Hres. }
    by destruct (Hf2 k Hk2).
  - intros k. rewrite !fmap_app. intros [Hk|Hk]%elem_of_app; [by apply Hf1|].
    destruct (Hf2 k Hk) as [Hres Hip]. split; set_solver.
  - set_solver.
  - rewrite !fmap_app, list_to_set_app_L. set_solver.
  - set_solver.
  - destruct Hsplit2 as (good2 & bad2 & -> & Hgood2 & Hbad2).
    exists (good1 ++ good2), bad2. split_and!; [by rewrite app_assoc| |done].
    apply Forall_app. split; [|done].
    eapply Forall_impl; [exact Hgood1|]. intros x [? ?]. split; [done|set_solver].
Qed.

Lemma for_each_attempts (body : string → G value) :
  attempts_well tasks body →
  ∀ (ds : list string) gs st r gs' st',
    for_each body ds gs st = Some (r, gs', st') →
    ∃ o, attempts_effect tasks gs st o (error_of r) gs' st'.
Proof.
  intros Hbody ds. induction ds as [|d ds IH]; intros gs st r gs' st' Hrun.
  - simpl in Hrun. simplify_eq. exists []. apply attempts_nil.
  - cbn [for_each] in Hrun.
    destruct (body d gs st) as [[[[v|e] gs1] st1]|] eqn:Hd; [| |done].
    + destruct (Hbody _ _ _ _ _ _ Hd) as (o1 & Ho1).
      destruct (IH _ _ _ _ _ Hrun) as (o2 & Ho2).
      exists (o1 ++ o2). by eapply attempts_app.
    + simplify_eq. destruct (Hbody _ _ _ _ _ _ Hd) as (o1 & Ho1). by exists o1.
Qed.

(** The prerequisites of [name] are done, [name] in progress all the
    while; they raised, or the lookup of [name] does. *)
Lemma attempts_prerequisites gs st (name : string) o (err : option exn) gs2 st2
    (e : exn) :
  attempts_effect tasks (GraphState (results gs) (in_progress gs ∪ {[name]})) st
    o err gs2 st2 →
  err = Some e ∨ err = None →
  attempts_effect tasks gs st o (Some e) gs2 st2.
Proof.
  intros (Htr & Hg & Hn & Hf & Hsub & Hdom & Hip & Hsplit) Herr. simpl in *.
  unfold attempts_effect. split_and!; try done.
  - intros k Hk. destruct (Hf k Hk). split; [done|set_solver].
  - set_solver.
  - destruct Hsplit as (good & bad & -> & Hgood & Hbad).
    exists good, bad. split_and!; [done|done|].
    destruct Hbad as [->|(x & e' & -> & Hx & He')]; [by left|].
    right. exists x, e'. split_and!; [done|done|]. destruct Herr; congruence.
Qed.

(** The prerequisites of [name] are done and its unit is invoked. *)
Lemma attempts_invoke gs st (name : string) o gs2 st2
    (t : task World Args) (r : outcome value) (w : World) :
  attempts_effect tasks (GraphState (results gs) (in_progress gs ∪ {[name]})) st
    o None gs2 st2 →
  ¬ (name ∈ dom (results gs)) →
  ¬ (name ∈ in_progress gs) →
  getitem tasks name = Some t →
  call t args (world st2) = (r, w) →
  attempts_effect tasks gs st (o ++ [(name, t, r)]) (error_of r)
    match r with
    | Return v => GraphState (<[name := v]> (results gs2)) (in_progress gs2 ∖ {[name]})
    | Raise _ => gs2
    end
    (run_task t args st2).2.
Proof.
  intros ((tr & Htr & Hc) & Hg & Hn & Hf & Hsub & Hdom & Hip & Hsplit)
         Hfresh Hfree Hget Hcall. simpl in *.
  destruct Hsplit as (good & bad & -> & Hgood & Hbad).
  assert (bad = []) as -> by (by destruct Hbad as [?|(x & e & _ & _ & ?)]).
  rewrite app_nil_r in *.
  assert (¬ (name ∈ good.*1.*1)) as Hnew.
  { intros Hk. destruct (Hf name Hk). set_solver. }
  unfold attempts_effect. rewrite !fmap_app. simpl. split_and!.
  - destruct r as [v|e].
    + rewrite (run_task_return _ _ _ _ _ Hcall). simpl.
      exists (tr ++ [EvCall (task_name t) (Return v)]).
      rewrite Htr, <- app_assoc, calls_app, Hc. split; [done|].
      unfold attempted. by rewrite fmap_app.
    + rewrite (run_task_raise _ _ _ _ _ Hcall). simpl.
      exists (tr ++ [EvCall (task_name t) (Raise e);
                     EvLog ERROR (MsgErrorInTask (task_name t) e)]).
      rewrite Htr, <- !app_assoc, calls_app, Hc. split; [done|].
      unfold attempted. by rewrite fmap_app.
  - apply Forall_app. split; [done|]. by apply Forall_singleton.
  - apply NoDup_app. split_and!; [done| |apply NoDup_singleton].
    intros k Hk ->%list_elem_of_singleton. done.
  - intros k [Hk| ->%list_elem_of_singleton]%elem_of_app; [|done].
    destruct (Hf k Hk). split; [done|set_solver].
  - destruct r as [v|e]; simpl; [rewrite dom_insert_L|]; set_solver.
  - rewrite list_to_set_app_L.
    destruct r as [v|e]; simpl; [rewrite dom_insert_L|]; set_solver.
  - destruct r as [v|e]; simpl; set_solver.
  - destruct r as [v|e]; simpl.
    + exists (good ++ [(name, t, Return v)]), []. rewrite app_nil_r.
      split_and!; [done| |by left].
      apply Forall_app. split.
      * eapply Forall_impl; [exact Hgood|]. intros x [? ?]. split; [done|].
        simpl. rewrite dom_insert_L. set_solver.
      * apply Forall_singleton. simpl. split; [done|].
        rewrite dom_insert_L. set_solver.
    + exists good, [(name, t, Raise e)]. split_and!; [done|done|].
      right. by exists (name, t, Raise e), e.
Qed.

Lemma resolve_attempts (depth : nat) :
  attempts_well tasks (run_task_with_deps tasks dependencies args depth).
Proof.
  induction depth as [|depth IH]; intros name gs st r gs' st' Hrun; [done|].
  rewrite resolve_S in Hrun.
  destruct (results gs !! name) as [v0|] eqn:Hcached.
  { simplify_eq. exists []. apply attempts_nil. }
  destruct (decide (name ∈ in_progress gs)) as [Hin|Hfree].
  { simplify_eq. exists []. apply attempts_nil. }
  apply not_elem_of_dom in Hcached.
  destruct (for_each _ _ _ st) as [[[[u|e1] gs2] st2]|] eqn:Hloop; [| |done].
  - apply (for_each_attempts _ IH) in Hloop as (o & Ho). simpl in Ho.
    destruct (getitem tasks name) as [t|] eqn:Hget.
    + destruct (call t args (world st2)) as [r0 w] eqn:Hcall.
      pose proof (attempts_invoke _ _ _ _ _ _ _ _ _ Ho Hcached Hfree Hget Hcall)
        as Hstep.
      exists (o ++ [(name, t, r0)]).
      destruct r0 as [v|e].
      * rewrite (run_task_return _ _ _ _ _ Hcall) in Hrun, Hstep. by simplify_eq.
      * rewrite (run_task_raise _ _ _ _ _ Hcall) in Hrun, Hstep. by simplify_eq.
    + simplify_eq. exists o. simpl.
      eapply attempts_prerequisites; [exact Ho|by right].
  - apply (for_each_attempts _ IH) in Hloop as (o & Ho). simpl in Ho.
    simplify_eq. exists o. simpl.
    eapply attempts_prerequisites; [exact Ho|by left].
Qed.

(** X19.  Whatever the units do, the dependency run comes to an end
    and invokes no task twice: the units invoked are those stored
    under distinct task names, at most as many as there are tasks; all
    of them returned but possibly the last one, and when that one
    raised the run raises its error. *)
Theorem run_with_dependency_graph_at_most_once st :
  ∃ r st' tr (o : list (string * task World Args * outcome value)),
    run_with_dependency_graph tasks dependencies args st = Some (r, st')
    ∧ trace st' = trace st ++ tr
    ∧ calls tr = attempted o
    ∧ Forall (λ x, getitem tasks x.1.1 = Some x.1.2) o
    ∧ NoDup o.*1.*1
    ∧ length o ≤ length tasks
    ∧ ∃ good bad,
        o = good ++ bad
        ∧ Forall (λ x, is_return x.2 = true) good
        ∧ (bad = [] ∨ ∃ x e, bad = [x] ∧ x.2 = Raise e ∧ r = Raise e).
Proof.
  destruct (run_with_dependency_graph_cases tasks dependencies args st)
    as (r & gs & st' & Hloop & Hrun).
  apply (for_each_attempts _ (resolve_attempts _)) in Hloop
    as (o & (tr & Htr & Hc) & Hg & Hn & _ & _ & _ & _ & Hsplit).
  eexists _, st', tr, o. split; [exact Hrun|]. split_and!; try done.
  - assert (o.*1.*1 ⊆+ tasks.*1) as Hsub%submseteq_length.
    { apply NoDup_submseteq; [done|]. intros k Hk.
      apply list_elem_of_fmap in Hk as ([k' t] & -> & Hk).
      apply list_elem_of_fmap in Hk as (x & Heq & Hx).
      rewrite Forall_forall in Hg. specialize (Hg x Hx).
      rewrite <- Heq in Hg. simpl in Hg. apply getitem_Some in Hg.
      apply list_elem_of_fmap. by exists (k', t). }
    by rewrite !length_fmap in Hsub.
  - destruct Hsplit as (good & bad & -> & Hgood & Hbad).
    exists good, bad. split_and!; [done| |].
    + eapply Forall_impl; [exact Hgood|]. by intros x [? _].
    + destruct Hbad as [->|(x & e & -> & Hx & He)]; [by left|].
      right. exists x, e. split_and!; [done|done|].
      destruct r as [u|e']; simpl in He; by simplify_eq.
Qed.

End GraphErrors.

Lemma reachable_permutation (tasks1 tasks2 : list (string * task World Args))
    (dependencies : gmap string (list string)) (name : string) :
  tasks1 ≡ₚ tasks2 →
  reachable tasks1 dependencies name → reachable tasks2 dependencies name.
Proof.
  intros Hp (key & Hkey & Hpath). exists key. split; [|done]. by rewrite <- Hp.
Qed.

(** X12.  Units that return the same value whatever the world: the
    mapping the dependency run returns gives each task name the value
    of its unit, and depends neither on the order of the task mapping
    nor on the state the run starts from: with the tasks in another
    order, from another state, the run returns the same mapping. *)
Theorem run_with_dependency_graph_order_independent
    (tasks1 tasks2 : list (string * task World Args))
    (dependencies : gmap string (list string)) args (f : string → value)
    st1 st2 res st1' :
  tasks1 ≡ₚ tasks2 →
  (∀ k t, (k, t) ∈ tasks1 → returns args t (f k)) →
  run_with_dependency_graph tasks1 dependencies args st1 = Some (Return res, st1') →
  (∀ k, res !! k = if decide (k ∈ tasks1.*1) then Some (f k) else None)
  ∧ ∃ st2',
      run_with_dependency_graph tasks2 dependencies args st2 = Some (Return res, st2').
Proof.
  intros Hp Hf Hrun1.
  pose proof (run_with_dependency_graph_values _ _ _ f _ _ _ Hf Hrun1) as Hres.
  split; [done|].
  assert (∀ k t, (k, t) ∈ tasks2 → returns args t (f k)) as Hf2.
  { intros k t Hin. apply Hf. by rewrite Hp. }
  assert (Forall (λ kt, succeeds args kt.2) tasks2) as Hok2.
  { apply Forall_forall. intros [k t] Hin w. simpl.
    by rewrite (Hf2 k t Hin w). }
  destruct (run_with_dependency_graph_cases tasks2 dependencies args st2)
    as (r & gs & st2' & _ & Hrun2).
  destruct r as [u|e].
  - exists st2'. rewrite Hrun2. do 3 f_equal. apply map_eq. intros k.
    rewrite Hres, (run_with_dependency_graph_values _ _ _ f _ _ _ Hf2 Hrun2).
    repeat case_decide; try done.
    + exfalso. by rewrite Hp in *.
    + exfalso. by rewrite Hp in *.
  - exfalso.
    pose proof (run_with_dependency_graph_return_reach _ _ _ _ _ _ Hrun1) as Hgood.
    symmetry in Hp.
    destruct (run_with_dependency_graph_raise_error _ _ _ _ _ _ Hok2 Hrun2)
      as [(x & _ & Hcyc & Hx)|(k & _ & Hk & Hr)].
    + apply (reachable_permutation _ _ _ _ Hp) in Hx. by destruct (Hgood x Hx).
    + apply (reachable_permutation _ _ _ _ Hp) in Hr.
      destruct (Hgood k Hr) as [Hin _]. apply Hk. by rewrite Hp.
Qed.

(** ** The runners that take their tasks one at a time *)

Lemma priority_loop_until_raise args (l : list (task_info World Args)) :
  ∀ (acc : list value) st,
    ∃ st' tr,
      priority_loop args l acc st
      = (verdict (run_until_raise args (info_task <$> l) (world st)).1 acc, st')
      ∧ trace st' = trace st ++ tr
      ∧ calls tr = (run_until_raise args (info_task <$> l) (world st)).1
      ∧ world st' = (run_until_raise args (info_task <$> l) (world st)).2.
Proof.
  induction l as [|info l IH]; intros acc st.
  - exists st, []. simpl. by rewrite app_nil_r.
  - cbn [priority_loop]. rewrite bind_eq, fmap_cons. cbn [run_until_raise].
    destruct (call (info_task info) args (world st)) as [[v|e] w] eqn:Hc.
    + rewrite (run_task_return _ _ _ _ _ Hc).
      destruct (IH (acc ++ [v])
                  (emit (EvCall (task_name (info_task info)) (Return v))
                     (set_world w st)))
        as (st' & tr & Hrun & Htr & Hcalls & Hw).
      simpl in Hrun, Htr, Hcalls, Hw.
      destruct (run_until_raise args (info_task <$> l) w) as [rs w2].
      exists st', (EvCall (task_name (info_task info)) (Return v) :: tr).
      simpl in *. rewrite Hrun, Htr, <- app_assoc.
      by rewrite Hcalls.
    + rewrite (run_task_raise _ _ _ _ _ Hc).
      eexists _, [EvCall (task_name (info_task info)) (Raise e);
                  EvLog ERROR (MsgErrorInTask (task_name (info_task info)) e)].
      split; [reflexivity|]. simpl. by rewrite <- app_assoc.
Qed.

Lemma progress_loop_until_raise args (l : list (task World Args)) :
  ∀ (total completed : Z) (acc : list value) (out : list output) st,
    l = [] ∨ total ≠ 0%Z →
    ∃ st' tr,
      progress_loop args l total completed acc out st
      = (Finished (verdict (run_until_raise args l (world st)).1 acc), st',
         out
         ++ (progress_line total
               <$> seqZ (completed + 1)
                     (Z.of_nat (length (returned (run_until_raise args l (world st)).1))))
         ++ match verdict (run_until_raise args l (world st)).1 acc with
            | Return _ => [OutNewline]
            | Raise _ => []
            end)
      ∧ trace st' = trace st ++ tr
      ∧ calls tr = (run_until_raise args l (world st)).1
      ∧ world st' = (run_until_raise args l (world st)).2.
Proof.
  induction l as [|t l IH]; intros total completed acc out st Htotal.
  - exists st, []. simpl. by rewrite app_nil_r.
  - destruct Htotal as [?|Htotal]; [done|].
    cbn [progress_loop run_until_raise].
    destruct (call t args (world st)) as [[v|e] w] eqn:Hc.
    + rewrite (run_task_return _ _ _ _ _ Hc).
      unfold update_progress_bar.
      destruct (Z.eqb_spec total 0) as [?|_]; [done|].
      fold (progress_line total (completed + 1)).
      destruct (IH total (completed + 1)%Z (acc ++ [v])
                  (out ++ [progress_line total (completed + 1)])
                  (emit (EvCall (task_name t) (Return v)) (set_world w st)))
        as (st' & tr & Hrun & Htr & Hcalls & Hw); [by right|].
      simpl in Hrun, Htr, Hcalls, Hw.
      destruct (run_until_raise args l w) as [rs w2].
      exists st', (EvCall (task_name t) (Return v) :: tr).
      simpl in *. rewrite Hrun, Htr, <- !app_assoc, Hcalls.
      split_and!; try done. do 2 f_equal.
      rewrite (seqZ_cons (completed + 1)) by lia.
      rewrite fmap_cons. simpl. do 3 f_equal. f_equal; lia.
    + rewrite (run_task_raise _ _ _ _ _ Hc).
      eexists _, [EvCall (task_name t) (Raise e);
                  EvLog ERROR (MsgErrorInTask (task_name t) e)].
      split; [simpl; by rewrite !app_nil_r|].
      simpl. by rewrite <- app_assoc.
Qed.

(** What running units until one raises gives when none does, and when
    one is bound to. *)
Lemma run_until_raise_succeeds args (ts : list (task World Args)) :
  ∀ w, Forall (succeeds args) ts →
       ∃ vs w',
         run_until_raise args ts w = (zip (task_name <$> ts) (Return <$> vs), w')
         ∧ length vs = length ts
         ∧ run_in_order args ts w = (Return <$> vs, w').
Proof.
  induction ts as [|t ts IH]; intros w Hok.
  - by exists [], w.
  - apply Forall_cons in Hok as [Ht Hok].
    destruct (succeeds_call t args w Ht) as (v & w1 & Hc).
    destruct (IH w1 Hok) as (vs & w' & Hrun & Hlen & Hord).
    exists (v :: vs), w'. simpl. rewrite Hc, Hrun, Hord, Hlen. done.
Qed.

Lemma run_until_raise_stops args (before : list (task World Args)) failed after :
  ∀ w, Forall (succeeds args) before →
       always_fails args failed →
       ∃ vs e w',
         run_until_raise args (before ++ failed :: after) w
         = (zip (task_name <$> before) (Return <$> vs)
            ++ [(task_name failed, Raise e)], w')
         ∧ length vs = length before
         ∧ run_in_order args (before ++ [failed]) w
           = ((Return <$> vs) ++ [Raise e], w').
Proof.
  induction before as [|t ts IH]; intros w Hok Hfail.
  - destruct (always_fails_call failed args w Hfail) as (e & w1 & Hc).
    exists [], e, w1. simpl. by rewrite Hc.
  - apply Forall_cons in Hok as [Ht Hok].
    destruct (succeeds_call t args w Ht) as (v & w1 & Hc).
    destruct (IH w1 Hok Hfail) as (vs & e & w' & Hrun & Hlen & Hord).
    exists (v :: vs), e, w'. simpl. rewrite Hc, Hrun, Hord, Hlen. done.
Qed.

Lemma verdict_returns (names : list string) (vs : list value) :
  ∀ acc, verdict (zip names (Return <$> vs)) acc = Return (acc ++ take (length names) vs).
Proof.
  revert vs. induction names as [|n names IH]; intros vs acc.
  - simpl. by rewrite app_nil_r.
  - destruct vs as [|v vs]; simpl.
    + by rewrite app_nil_r.
    + rewrite IH, <- app_assoc. done.
Qed.

Lemma verdict_raises (names : list string) (vs : list value) name e rest :
  length vs = length names →
  ∀ acc, verdict (zip names (Return <$> vs) ++ (name, Raise e) :: rest) acc = Raise e.
Proof.
  revert vs. induction names as [|n names IH]; intros [|v vs] Hlen acc;
    simpl in *; try done.
  apply IH. lia.
Qed.

Lemma returned_zip (names : list string) (vs : list value) rest :
  length vs = length names →
  returned (zip names (Return <$> vs) ++ rest) = vs ++ returned rest.
Proof.
  revert vs. induction names as [|n names IH]; intros [|v vs] Hlen;
    simpl in *; try done.
  unfold returned in *. simpl. rewrite IH by lia. done.
Qed.

(** X13.  The priority runner stops at the first unit that fails, in
    priority order: the units that come before it in the sorted list
    are invoked in that order and return, it is invoked next and its
    error reaches the caller; the units of lower priority are never
    invoked and the values obtained so far are lost. *)
Theorem run_with_priority_fail_fast (tasks : list (task_info World Args))
    (before : list (task_info World Args)) (failed : task_info World Args)
    (after : list (task_info World Args)) args st :
  sorted tasks priority true = before ++ failed :: after →
  Forall (λ info, succeeds args (info_task info)) before →
  always_fails args (info_task failed) →
  ∃ e vs st' tr,
    run_with_priority tasks args st = (Raise e, st')
    ∧ trace st' = trace st ++ tr
    ∧ calls tr
      = zip ((task_name ∘ info_task) <$> before) (Return <$> vs)
        ++ [(task_name (info_task failed), Raise e)]
    ∧ length vs = length before
    ∧ run_in_order args (info_task <$> (before ++ [failed])) (world st)
      = ((Return <$> vs) ++ [Raise e], world st').
Proof.
  intros Hsorted Hok Hfail. unfold run_with_priority.
  destruct (priority_loop_until_raise args (sorted tasks priority true) [] st)
    as (st' & tr & Hrun & Htr & Hcalls & Hw).
  rewrite Hsorted, fmap_app, fmap_cons in Hrun, Hcalls, Hw.
  destruct (run_until_raise_stops args (info_task <$> before) (info_task failed)
              (info_task <$> after) (world st))
    as (vs & e & w' & Huntil & Hlen & Hord); [|done|].
  { by apply Forall_fmap. }
  rewrite Huntil in Hrun, Hcalls, Hw. simpl in Hrun, Hcalls, Hw.
  rewrite length_fmap in Hlen.
  rewrite verdict_raises in Hrun by (by rewrite !length_fmap).
  exists e, vs, st', tr. rewrite Hsorted. split_and!; try done.
  - by rewrite Hcalls, <- list_fmap_compose.
  - rewrite fmap_app. simpl. by rewrite Hord, Hw.
Qed.

(** X14.  The runner with a progress bar, whatever the units do: it
    never ends on the division by zero of the bar (no line is printed
    for an empty list); it invokes the units in submission order up to
    the first that raises, whose error it hands on; it prints one line
    for each unit that returned, counting from 1, and the closing
    newline exactly when it returns the values. *)
Theorem run_with_progress_outcome (tasks : list (task World Args)) args st :
  ∃ st' tr,
    run_with_progress tasks args st
    = (Finished (verdict (run_until_raise args tasks (world st)).1 []), st',
       (progress_line (Z.of_nat (length tasks))
          <$> seqZ 1 (Z.of_nat (length (returned (run_until_raise args tasks (world st)).1))))
       ++ match verdict (run_until_raise args tasks (world st)).1 [] with
          | Return _ => [OutNewline]
          | Raise _ => []
          end)
    ∧ trace st' = trace st ++ tr
    ∧ calls tr = (run_until_raise args tasks (world st)).1
    ∧ world st' = (run_until_raise args tasks (world st)).2.
Proof.
  unfold run_with_progress.
  destruct (progress_loop_until_raise args tasks (Z.of_nat (length tasks)) 0 [] [] st)
    as (st' & tr & Hrun & Hrest).
  { destruct tasks; [by left|right; simpl; lia]. }
  exists st', tr. split; [|done]. by rewrite Hrun.
Qed.

(** X15.  When every unit succeeds the runner with a progress bar
    returns the values in submission order, the units having run one
    after the other in that order, and prints the lines for 1, 2, ...,
    n completed tasks out of n, then the newline. *)
Theorem run_with_progress_succeeds (tasks : list (task World Args)) args st :
  Forall (succeeds args) tasks →
  ∃ vs st' tr,
    run_with_progress tasks args st
    = (Finished (Return vs), st',
       (progress_line (Z.of_nat (length tasks))
          <$> seqZ 1 (Z.of_nat (length tasks)))
       ++ [OutNewline])
    ∧ length vs = length tasks
    ∧ run_in_order args tasks (world st) = (Return <$> vs, world st')
    ∧ trace st' = trace st ++ tr
    ∧ calls tr = zip (task_name <$> tasks) (Return <$> vs).
Proof.
  intros Hok. unfold run_with_progress.
  destruct (progress_loop_until_raise args tasks (Z.of_nat (length tasks)) 0 [] [] st)
    as (st' & tr & Hrun & Htr & Hcalls & Hw).
  { destruct tasks; [by left|right; simpl; lia]. }
  destruct (run_until_raise_succeeds args tasks (world st) Hok)
    as (vs & w' & Huntil & Hlen & Hord).
  rewrite Huntil in Hrun, Hcalls, Hw. simpl in Hrun, Hcalls, Hw.
  rewrite verdict_returns in Hrun.
  rewrite <- (app_nil_r (zip _ _)) in Hrun at 1.
  rewrite returned_zip in Hrun by (by rewrite length_fmap).
  rewrite length_fmap, take_ge in Hrun by lia.
  simpl in Hrun. rewrite app_nil_r, Hlen in Hrun.
  exists vs, st', tr. rewrite Hw. done.
Qed.

Lemma append_nil_r (x : string) : x +:+ "" = x.
Proof.
  induction x as [|a x IH]; [done|].
  change (String a (x +:+ "") = String a x). by rewrite IH.
Qed.

Lemma append_assoc (x y z : string) : (x +:+ y) +:+ z = x +:+ (y +:+ z).
Proof.
  induction x as [|a x IH]; [done|].
  change (String a ((x +:+ y) +:+ z) = String a (x +:+ (y +:+ z))).
  by rewrite IH.
Qed.

Lemma concat_app_empty (xs ys : list string) :
  String.concat "" (xs ++ ys) = String.concat "" xs +:+ String.concat "" ys.
Proof.
  induction xs as [|x xs IH]; [done|].
  assert (∀ l, String.concat "" (x :: l) = x +:+ String.concat "" l) as Hcons.
  { intros [|y l]; [|reflexivity]. symmetry. apply append_nil_r. }
  rewrite <- app_comm_cons, !Hcons, IH. by rewrite append_assoc.
Qed.

(** X16.  The bar of [update_progress_bar] for [completed] tasks out of
    a positive [total], [completed] between 0 and [total]: it has 50
    cells, of which the first [50 * completed // total] are filled; it
    is full exactly when all the tasks are completed, it never shrinks
    as tasks complete, and the percentage is between 0 and 100. *)
Theorem update_progress_bar_cells (completed total : Z) :
  (0 < total)%Z →
  (0 ≤ completed ≤ total)%Z →
  ∃ filled : nat,
    update_progress_bar completed total
    = inr (OutProgress
             (String.concat ""
                (replicate filled filled_cell ++ replicate (50 - filled) "-"))
             (inject_Z completed / inject_Z total * 100)%Q)
    ∧ Z.of_nat filled = (50 * completed / total)%Z
    ∧ filled ≤ 50
    ∧ (filled = 50 ↔ completed = total)
    ∧ (∀ earlier, (0 ≤ earlier ≤ completed)%Z →
                  (filled_length earlier total ≤ Z.of_nat filled)%Z)
    ∧ (0 <= inject_Z completed / inject_Z total * 100)%Q
    ∧ (inject_Z completed / inject_Z total * 100 <= 100)%Q.
Proof.
  intros Htotal Hcompleted.
  assert (0 ≤ 50 * completed / total)%Z as Hlo by (apply Z.div_pos; lia).
  assert (50 * completed / total ≤ 50)%Z as Hhi.
  { apply Z.div_le_upper_bound; lia. }
  exists (Z.to_nat (50 * completed / total)). split_and!.
  - unfold update_progress_bar.
    destruct (Z.eqb_spec total 0) as [?|_]; [lia|].
    do 2 f_equal. unfold progress_bar, str_repeat, filled_length, bar_length.
    rewrite concat_app_empty. do 3 f_equal. lia.
  - lia.
  - lia.
  - split.
    + intros Hfull.
      destruct (decide (completed = total)) as [?|Hne]; [done|].
      assert (50 * completed / total < 50)%Z; [|lia].
      apply Z.div_lt_upper_bound; lia.
    + intros ->. rewrite Z.div_mul by lia. done.
  - intros earlier Hearlier. unfold filled_length, bar_length.
    rewrite Z2Nat.id by done. apply Z.div_le_mono; lia.
  - unfold Qle, Qdiv, Qmult, Qinv, inject_Z. simpl.
    destruct total as [|p|p]; simpl; lia.
  - unfold Qle, Qdiv, Qmult, Qinv, inject_Z. simpl.
    destruct total as [|p|p]; simpl; lia.
Qed.

(** ** Units whose result does not depend on the world *)

Lemma values_of_run (ts : list (task World Args)) (val : task World Args → value)
    args (vs : list value) :
  (∀ t, t ∈ ts → returns args t (val t)) →
  Forall2 (λ t v, ∃ w0, (call t args w0).1 = Return v) ts vs →
  vs = val <$> ts.
Proof.
  intros Hval H. induction H as [|t v ts vs (w0 & Hw0) _ IH]; [done|].
  rewrite fmap_cons. f_equal.
  - specialize (Hval t ltac:(by left) w0). congruence.
  - apply IH. intros t' Ht'. apply Hval. by right.
Qed.

Lemma returns_succeeds (ts : list (task World Args)) (val : task World Args → value)
    args :
  (∀ t, t ∈ ts → returns args t (val t)) → Forall (succeeds args) ts.
Proof.
  intros Hval. apply Forall_forall. intros t Ht w. by rewrite (Hval t Ht w).
Qed.

Lemma gathered_values args (coros : list (task World Args))
    (val : task World Args → value) w completed (vs : list value) w' :
  (∀ t, t ∈ coros → returns args t (val t)) →
  gathered args coros w completed vs w' →
  vs = val <$> coros.
Proof.
  intros Hval (Hlen & Hp & Hord & _ & Hall).
  apply run_in_order_values in Hord.
  apply list_eq. intros i. rewrite list_lookup_fmap.
  destruct (coros !! i) as [t|] eqn:Hi; simpl.
  - destruct (Hall i t Hi) as (v & Hin & ->). f_equal.
    apply list_elem_of_lookup in Hin as [j Hj].
    destruct (Forall2_lookup_lr _ _ _ j t v Hord) as (w0 & Hw0).
    { by rewrite !list_lookup_fmap, Hj. }
    { by rewrite list_lookup_fmap, Hj. }
    assert (t ∈ coros) as Ht by (by eapply list_elem_of_lookup_2).
    specialize (Hval t Ht w0). congruence.
  - apply lookup_ge_None. apply lookup_ge_None in Hi. lia.
Qed.

Lemma elem_of_concat {X} (x : X) (l : list X) (ls : list (list X)) :
  l ∈ ls → x ∈ l → x ∈ concat ls.
Proof.
  intros Hl Hx. induction ls as [|l' ls IH]; [by apply elem_of_nil in Hl|].
  simpl. apply elem_of_app. apply elem_of_cons in Hl as [->|Hl]; [by left|].
  right. by apply IH.
Qed.

Lemma batches_gathered_values args (val : task World Args → value)
    (bs : list (list (task World Args))) :
  ∀ w logs vss w',
    (∀ b t, b ∈ bs → t ∈ b → returns args t (val t)) →
    batches_gathered args bs w logs vss w' →
    concat vss = val <$> concat bs.
Proof.
  induction bs as [|b bs IH]; intros w [|log logs] [|vs vss] w' Hval H; try done.
  destruct H as (w1 & Hg & H). simpl. rewrite fmap_app. f_equal.
  - eapply gathered_values; [|exact Hg]. intros t Ht. apply (Hval b); [by left|done].
  - eapply IH; [|exact H]. intros b' t Hb' Ht. apply (Hval b'); [by right|done].
Qed.

(** X17.  Units that return the same value whatever the world: every
    runner of a list of tasks returns the values in submission order,
    the same list for the parallel runner, the rate-limited batcher,
    the bounded runner and the runner with a progress bar, whatever the
    scheduling decisions, the positive rate limit, the positive bound
    and the state the run starts from; the priority runner returns the
    values in priority order. *)
Theorem runners_agree_on_constant_units (tasks : list (task World Args))
    (val : task World Args → value) args :
  (∀ t, t ∈ tasks → returns args t (val t)) →
  (∀ st, (run_in_parallel tasks args st).1 = Return (val <$> tasks))
  ∧ (∀ (rate_limit : Z) (time_period : Q) st,
       (1 ≤ rate_limit)%Z →
       (run_with_rate_limit tasks rate_limit time_period args st).1
       = Return (val <$> tasks))
  ∧ (∀ (max_concurrent : Z) st,
       (1 ≤ max_concurrent)%Z →
       fst <$> run_with_resource_management tasks max_concurrent args st
       = Some (Return (val <$> tasks)))
  ∧ (∀ st, (run_with_progress tasks args st).1.1 = Finished (Return (val <$> tasks)))
  ∧ (∀ (infos : list (task_info World Args)) st,
       info_task <$> infos = tasks →
       (run_with_priority infos args st).1
       = Return ((val ∘ info_task) <$> sorted infos priority true)).
Proof.
  intros Hval.
  pose proof (returns_succeeds tasks val args Hval) as Hok.
  split_and!.
  - intros st.
    destruct (run_in_parallel_succeeds args tasks st Hok)
      as (completed & vs & st' & -> & Hg & _).
    simpl. f_equal. by eapply gathered_values.
  - intros B P st HB. unfold run_with_rate_limit.
    destruct (Z.eqb_spec B 0) as [?|_]; [lia|].
    destruct (rate_limit_loop_succeeds args tasks B P Hok
                (range 0 (Z.of_nat (length tasks)) B) [] st)
      as (logs & vss & st' & tr & -> & Hbg & _).
    { intros j i Hj. apply (range_pause_condition _ _ j); [lia|lia|done]. }
    simpl. f_equal. fold (batches tasks B) in Hbg.
    assert (concat vss = val <$> concat (batches tasks B)) as ->.
    { eapply batches_gathered_values; [|exact Hbg].
      intros b t Hb Ht. apply Hval. rewrite <- (batches_concat tasks B) by lia.
      by eapply elem_of_concat. }
    by rewrite batches_concat by lia.
  - intros k st Hk.
    destruct (run_with_resource_management_gathered tasks k args st Hk Hok)
      as (completed & vs & st' & tr & -> & Hg & _).
    simpl. do 2 f_equal. by eapply gathered_values.
  - intros st. unfold run_with_progress.
    destruct (progress_loop_until_raise args tasks (Z.of_nat (length tasks)) 0 [] [] st)
      as (st' & tr & -> & _).
    { destruct tasks; [by left|right; simpl; lia]. }
    destruct (run_until_raise_succeeds args tasks (world st) Hok)
      as (vs & w' & -> & Hlen & Hord).
    simpl. rewrite verdict_returns, length_fmap, take_ge by lia. simpl.
    do 2 f_equal. apply run_in_order_values in Hord. by eapply values_of_run.
  - intros infos st Hinfos. unfold run_with_priority.
    destruct (priority_loop_until_raise args (sorted infos priority true) [] st)
      as (st' & tr & -> & _).
    assert (∀ t, t ∈ info_task <$> sorted infos priority true → returns args t (val t))
      as Hval'.
    { intros t Ht. apply Hval. rewrite <- Hinfos.
      by rewrite (sorted_perm priority true infos) in Ht. }
    destruct (run_until_raise_succeeds args (info_task <$> sorted infos priority true)
                (world st) (returns_succeeds _ val args Hval'))
      as (vs & w' & -> & Hlen & Hord).
    simpl. rewrite verdict_returns, length_fmap, take_ge by lia. simpl.
    f_equal. apply run_in_order_values in Hord.
    rewrite (values_of_run _ val args vs Hval' Hord).
    by rewrite <- list_fmap_compose.
Qed.

(** ** Where the errors of the list runners come from *)

Lemma run_in_parallel_raise args (tasks : list (task World Args)) st e st' :
  run_in_parallel tasks args st = (Raise e, st') →
  ∃ t w, t ∈ tasks ∧ (call t args w).1 = Raise e.
Proof.
  intros Hrun.
  destruct (run_in_parallel_runs args tasks st)
    as (r & st2 & done & tr & Hrun2 & _ & Hsub & _ & Hord & _ & _ & Hraise).
  rewrite Hrun in Hrun2. simplify_eq.
  destruct (Hraise e eq_refl) as (i & t & _ & _ & Hin & _).
  destruct (record_unit _ _ _ _ _ _ _ _ Hsub Hord Hin) as (Hit & w0 & Hw0).
  exists t, w0. split; [by eapply list_elem_of_lookup_2|done].
Qed.

Lemma elem_of_slice {X} (x : X) (l : list X) (i j : Z) : x ∈ slice l i j → x ∈ l.
Proof.
  unfold slice. intros Hx.
  apply (subseteq_drop (Z.to_nat i) l). by apply (subseteq_take _ _ _ Hx).
Qed.

Lemma rate_limit_loop_raise args (tasks : list (task World Args)) (B : Z) (P : Q) :
  ∀ (indices : list Z) (acc : list value) st e st',
    rate_limit_loop tasks B P args indices acc st = (Raise e, st') →
    ∃ t w, t ∈ tasks ∧ (call t args w).1 = Raise e.
Proof.
  induction indices as [|i indices IH]; intros acc st e st' Hrun; [done|].
  rewrite rate_limit_loop_cons in Hrun.
  destruct (run_in_parallel (slice tasks i (i + B)) args st) as [[vs|e1] st1] eqn:Hb.
  - by eapply IH.
  - simplify_eq. apply run_in_parallel_raise in Hb as (t & w & Hin & Hw).
    exists t, w. split; [by eapply elem_of_slice|done].
Qed.

Lemma run_until_raise_outcomes args (ts : list (task World Args)) :
  ∀ w name r,
    (name, r) ∈ (run_until_raise args ts w).1 →
    ∃ t w0, t ∈ ts ∧ (call t args w0).1 = r.
Proof.
  induction ts as [|t ts IH]; intros w name r Hin.
  - by apply elem_of_nil in Hin.
  - simpl in Hin. destruct (call t args w) as [[v|e] w1] eqn:Hc.
    + destruct (run_until_raise args ts w1) as [rs w2] eqn:Hrest. simpl in Hin.
      apply elem_of_cons in Hin as [Heq|Hin].
      * simplify_eq. exists t, w. split; [by left|by rewrite Hc].
      * destruct (IH w1 name r) as (t' & w0 & Ht' & Hw0); [by rewrite Hrest|].
        exists t', w0. split; [by right|done].
    + simpl in Hin. apply list_elem_of_singleton in Hin. simplify_eq.
      exists t, w. split; [by left|by rewrite Hc].
Qed.

Lemma verdict_raise (rs : list (string * outcome value)) :
  ∀ acc e, verdict rs acc = Raise e → ∃ name, (name, Raise e) ∈ rs.
Proof.
  induction rs as [|[name [v|e1]] rs IH]; intros acc e H; simpl in H; [done| |].
  - apply IH in H as [name' Hin]. exists name'. by right.
  - simplify_eq. exists name. by left.
Qed.

(** X18.  The runners of a list of tasks invent no error: whenever
    the parallel runner, the batcher under a rate limit other than
    zero, the bounded runner under a bound that is not negative, the
    runner with a progress bar or the priority runner raises, the error
    is one that a unit of the list raised. *)
Theorem list_runners_raise_unit_errors (tasks : list (task World Args)) args
    (e : exn) :
  (∀ st st',
     run_in_parallel tasks args st = (Raise e, st') →
     ∃ t w, t ∈ tasks ∧ (call t args w).1 = Raise e)
  ∧ (∀ (rate_limit : Z) (time_period : Q) st st',
       rate_limit ≠ 0%Z →
       run_with_rate_limit tasks rate_limit time_period args st = (Raise e, st') →
       ∃ t w, t ∈ tasks ∧ (call t args w).1 = Raise e)
  ∧ (∀ (max_concurrent : Z) st st',
       (0 ≤ max_concurrent)%Z →
       run_with_resource_management tasks max_concurrent args st
       = Some (Raise e, st') →
       ∃ t w, t ∈ tasks ∧ (call t args w).1 = Raise e)
  ∧ (∀ st st' out,
       run_with_progress tasks args st = (Finished (Raise e), st', out) →
       ∃ t w, t ∈ tasks ∧ (call t args w).1 = Raise e)
  ∧ (∀ (infos : list (task_info World Args)) st st',
       info_task <$> infos = tasks →
       run_with_priority infos args st = (Raise e, st') →
       ∃ t w, t ∈ tasks ∧ (call t args w).1 = Raise e).
Proof.
  split_and!.
  - intros st st'. apply run_in_parallel_raise.
  - intros B P st st' HB. unfold run_with_rate_limit.
    destruct (Z.eqb_spec B 0) as [?|_]; [done|]. apply rate_limit_loop_raise.
  - intros k st st' Hk. unfold run_with_resource_management.
    destruct (Z.ltb_spec k 0) as [?|_]; [lia|].
    destruct (gather_with_semaphore tasks (Z.to_nat k) args st) as [r st2|st2] eqn:Hrun;
      [|done].
    intros ?. simplify_eq.
    destruct (gather_with_semaphore_units _ _ _ _ _ _ Hrun) as [_ Hunit].
    by apply Hunit.
  - intros st st' out. unfold run_with_progress.
    destruct (progress_loop_until_raise args tasks (Z.of_nat (length tasks)) 0 [] [] st)
      as (st1 & tr & -> & _).
    { destruct tasks; [by left|right; simpl; lia]. }
    intros Heq. injection Heq as Hv _ _.
    apply verdict_raise in Hv as [name Hin].
    by apply run_until_raise_outcomes in Hin.
  - intros infos st st' Hinfos. unfold run_with_priority.
    destruct (priority_loop_until_raise args (sorted infos priority true) [] st)
      as (st1 & tr & -> & _).
    intros Heq. injection Heq as Hv _.
    apply verdict_raise in Hv as [name Hin].
    apply run_until_raise_outcomes in Hin as (t & w & Ht & Hw).
    exists t, w. split; [|done]. rewrite <- Hinfos.
    by rewrite (sorted_perm priority true infos) in Ht.
Qed.

End Further.

(** * The further properties on sample inputs *)

(** X2 on a unit that fails twice and then returns 7, five attempts
    allowed. *)
Lemma run_with_retry_recovers_witness :
  (Z.of_nat (length [UnitError "not yet"; UnitError "not yet"]) < 5)%Z
  ∧ run_in_order tt (replicate 3 (flaky "f" 2 (VInt 7))) (world fresh)
    = ((Raise <$> [UnitError "not yet"; UnitError "not yet"]) ++ [Return (VInt 7)], 3)
  ∧ ∃ st' tr,
      run_with_retry (flaky "f" 2 (VInt 7)) 5 (1 # 2)%Q tt fresh = (Return (VInt 7), st')
      ∧ world st' = 3
      ∧ trace st' = trace fresh ++ tr
      ∧ length (calls tr) = 3
      ∧ sleeps tr = [(1 # 2)%Q; (1 # 2)%Q].
Proof.
  split; [simpl; lia|]. split; [reflexivity|].
  destruct (run_with_retry_recovers (flaky "f" 2 (VInt 7)) 5 (1 # 2)%Q tt fresh
              [UnitError "not yet"; UnitError "not yet"] (VInt 7) 3)
    as (st' & tr & Hrun & Hw & Htr & _ & Hcalls & Hsleeps);
    [simpl; lia|reflexivity|].
  by exists st', tr.
Defined.

(** X4 on two units and a rate limit of minus one. *)
Lemma run_with_rate_limit_non_positive_witness :
  (-1 ≤ 0)%Z
  ∧ run_with_rate_limit [noop "a"; noop "b"] (-1) 3 tt fresh = (Return [], fresh).
Proof.
  split; [lia|].
  apply (run_with_rate_limit_non_positive [noop "a"; noop "b"] (-1) 3 tt fresh). lia.
Defined.

(** X5 on two units and a rate limit of five. *)
Lemma run_with_rate_limit_single_batch_witness :
  (1 ≤ Z.of_nat (length [noop "a"; failing "b" "boom"]) ≤ 5)%Z
  ∧ run_with_rate_limit [noop "a"; failing "b" "boom"] 5 3 tt fresh
    = run_in_parallel [noop "a"; failing "b" "boom"] tt fresh.
Proof.
  split; [simpl; lia|].
  apply (run_with_rate_limit_single_batch [noop "a"; failing "b" "boom"] 5 3 tt fresh).
  simpl. lia.
Defined.

(** X6 on five units in batches of two, the third one failing. *)
Lemma run_with_rate_limit_fail_fast_witness :
  (1 ≤ 2)%Z
  ∧ batches [noop "a"; noop "b"; failing "c" "boom"; noop "d"; noop "e"] 2
    = [[noop "a"; noop "b"]] ++ [failing "c" "boom"; noop "d"] :: [[noop "e"]]
  ∧ Forall (Forall (succeeds tt)) [[noop "a"; noop "b"]]
  ∧ Exists (always_fails tt) [failing "c" "boom"; noop "d"]
  ∧ ∃ e st' tr,
      run_with_rate_limit [noop "a"; noop "b"; failing "c" "boom"; noop "d"; noop "e"]
        2 3 tt fresh
      = (Raise e, st')
      ∧ trace st' = trace fresh ++ tr
      ∧ sleeps tr = [3%Q]
      ∧ length (calls tr) ≤ 4.
Proof.
  assert (Forall (Forall (succeeds tt)) [[noop "a"; noop "b"]]) as Hok.
  { repeat constructor; apply noop_succeeds. }
  assert (Exists (always_fails tt) [failing "c" "boom"; noop "d"]) as Hbad.
  { left. apply failing_always_fails. }
  split; [lia|]. split; [reflexivity|]. split; [exact Hok|]. split; [exact Hbad|].
  destruct (run_with_rate_limit_fail_fast
              [noop "a"; noop "b"; failing "c" "boom"; noop "d"; noop "e"] 2 3
              [[noop "a"; noop "b"]] [failing "c" "boom"; noop "d"] [[noop "e"]]
              tt fresh ltac:(lia) eq_refl Hok Hbad)
    as (e & st' & tr & failed & Hrun & Htr & Hsleeps & Hcalls & _).
  by exists e, st', tr.
Defined.

(** X7 on three units under a bound of two, the second one finishing
    first. *)
Lemma run_with_resource_management_succeeds_witness :
  (1 ≤ 2)%Z
  ∧ Forall (succeeds tt)
      [constant "a" (VInt 1); constant "b" (VInt 2); constant "c" (VInt 3)]
  ∧ ∃ vs st' tr,
      run_with_resource_management
        [constant "a" (VInt 1); constant "b" (VInt 2); constant "c" (VInt 3)] 2 tt
        (State 0 [] [1; 0])
      = Some (Return vs, st')
      ∧ length vs = 3
      ∧ trace st' = [] ++ tr
      ∧ length (acquires tr) = 3
      ∧ length (releases tr) = 3.
Proof.
  assert (Forall (succeeds tt)
            [constant "a" (VInt 1); constant "b" (VInt 2); constant "c" (VInt 3)])
    as Hok by (repeat constructor; apply constant_succeeds).
  split; [lia|]. split; [exact Hok|].
  destruct (run_with_resource_management_succeeds
              [constant "a" (VInt 1); constant "b" (VInt 2); constant "c" (VInt 3)] 2 tt
              (State 0 [] [1; 0]) ltac:(lia) Hok)
    as (completed & vs & st' & tr & Hrun & Hlen & _ & _ & _ & Htr & _ & Hacq & Hrel).
  by exists vs, st', tr.
Defined.


(** X9 on one unit and a bound of zero. *)
Lemma run_with_resource_management_non_positive_witness :
  (0 ≤ 0)%Z
  ∧ run_with_resource_management [noop "a"] 0 tt fresh = None
  ∧ ∃ st', gather_with_semaphore [noop "a"] 0 tt fresh = Blocked st'
           ∧ world st' = world fresh ∧ trace st' = trace fresh.
Proof.
  split; [lia|].
  apply (run_with_resource_management_non_positive [noop "a"] 0 tt fresh). lia.
Defined.

(** X13 on three descriptors, the one of middle priority failing. *)
Lemma run_with_priority_fail_fast_witness :
  sorted [TaskInfo (noop "low") 1; TaskInfo (failing "mid" "boom") 3;
          TaskInfo (constant "high" (VInt 1)) 5] priority true
  = [TaskInfo (constant "high" (VInt 1)) 5]
    ++ TaskInfo (failing "mid" "boom") 3 :: [TaskInfo (noop "low") 1]
  ∧ Forall (λ info, succeeds tt (info_task info)) [TaskInfo (constant "high" (VInt 1)) 5]
  ∧ always_fails tt (info_task (TaskInfo (failing "mid" "boom") 3))
  ∧ ∃ e vs st' tr,
      run_with_priority
        [TaskInfo (noop "low") 1; TaskInfo (failing "mid" "boom") 3;
         TaskInfo (constant "high" (VInt 1)) 5] tt fresh
      = (Raise e, st')
      ∧ trace st' = trace fresh ++ tr
      ∧ calls tr = zip ["high"] (Return <$> vs) ++ [("mid", Raise e)]
      ∧ length vs = 1.
Proof.
  assert (Forall (λ info, succeeds tt (info_task info))
            [TaskInfo (constant "high" (VInt 1)) 5]) as Hok.
  { constructor; [apply constant_succeeds|constructor]. }
  split; [reflexivity|]. split; [exact Hok|]. split; [apply failing_always_fails|].
  destruct (run_with_priority_fail_fast
              [TaskInfo (noop "low") 1; TaskInfo (failing "mid" "boom") 3;
               TaskInfo (constant "high" (VInt 1)) 5]
              [TaskInfo (constant "high" (VInt 1)) 5]
              (TaskInfo (failing "mid" "boom") 3) [TaskInfo (noop "low") 1]
              tt fresh eq_refl Hok (failing_always_fails "mid" "boom"))
    as (e & vs & st' & tr & Hrun & Htr & Hcalls & Hlen & _).
  by exists e, vs, st', tr.
Defined.

(** X15 on two units. *)
Lemma run_with_progress_succeeds_witness :
  Forall (succeeds tt) [constant "a" (VInt 1); constant "b" (VInt 2)]
  ∧ ∃ vs st',
      run_with_progress [constant "a" (VInt 1); constant "b" (VInt 2)] tt fresh
      = (Finished (Return vs), st',
         [progress_line 2 1; progress_line 2 2; OutNewline])
      ∧ length vs = 2.
Proof.
  assert (Forall (succeeds tt) [constant "a" (VInt 1); constant "b" (VInt 2)])
    as Hok by (repeat constructor; apply constant_succeeds).
  split; [exact Hok|].
  destruct (run_with_progress_succeeds
              [constant "a" (VInt 1); constant "b" (VInt 2)] tt fresh Hok)
    as (vs & st' & tr & Hrun & Hlen & _).
  by exists vs, st'.
Defined.

(** X16 on one task completed out of three: 16 cells of 50. *)
Lemma update_progress_bar_cells_witness :
  (0 < 3)%Z
  ∧ (0 ≤ 1 ≤ 3)%Z
  ∧ ∃ filled : nat,
      Z.of_nat filled = (50 * 1 / 3)%Z
      ∧ filled ≤ 50
      ∧ (filled = 50 ↔ 1%Z = 3%Z).
Proof.
  split; [lia|]. split; [lia|].
  destruct (update_progress_bar_cells 1 3 ltac:(lia) ltac:(lia))
    as (filled & _ & Hfilled & Hle & Hfull & _).
  by exists filled.
Defined.

(** X10 on the map [{A: [X, B], B: [A]}], where [X] is no task. *)
Lemma run_with_dependency_graph_errors_witness :
  Forall (λ kt, succeeds tt kt.2) [("A", noop "A"); ("B", noop "B")]
  ∧ ∃ r st',
      run_with_dependency_graph [("A", noop "A"); ("B", noop "B")]
        cycle_with_stranger tt fresh
      = Some (r, st')
      ∧ ∀ e, r = Raise e →
             graph_error [("A", noop "A"); ("B", noop "B")] cycle_with_stranger e.
Proof.
  assert (Forall (λ kt, succeeds tt kt.2) [("A", noop "A"); ("B", noop "B")]) as Hok.
  { repeat constructor; apply noop_succeeds. }
  split; [exact Hok|].
  exact (run_with_dependency_graph_errors [("A", noop "A"); ("B", noop "B")]
           cycle_with_stranger tt fresh Hok).
Defined.

(** X11 on the map [{A: [B]}]. *)
Lemma run_with_dependency_graph_returns_iff_witness :
  Forall (λ kt, succeeds tt kt.2) [("A", noop "A"); ("B", noop "B")]
  ∧ ((∃ res st',
        run_with_dependency_graph [("A", noop "A"); ("B", noop "B")] a_needs_b tt fresh
        = Some (Return res, st'))
     ↔ (∀ name, reachable [("A", noop "A"); ("B", noop "B")] a_needs_b name →
                name ∈ [("A", noop "A"); ("B", noop "B")].*1
                ∧ ¬ on_cycle a_needs_b name)).
Proof.
  assert (Forall (λ kt, succeeds tt kt.2) [("A", noop "A"); ("B", noop "B")]) as Hok.
  { repeat constructor; apply noop_succeeds. }
  split; [exact Hok|].
  exact (run_with_dependency_graph_returns_iff [("A", noop "A"); ("B", noop "B")]
           a_needs_b tt fresh Hok).
Defined.

Lemma one_and_two_returns (k : string) (t : task nat unit) :
  (k, t) ∈ [("A", constant "A" (VInt 1)); ("B", constant "B" (VInt 2))] →
  returns tt t (one_and_two k).
Proof.
  intros [Heq|[Heq|Hin]%elem_of_cons]%elem_of_cons.
  - by simplify_eq.
  - by simplify_eq.
  - by apply elem_of_nil in Hin.
Qed.

(** X12 on the map [{A: [B]}] and the two orders of the task mapping,
    the second run starting after five invocations. *)
Lemma run_with_dependency_graph_order_independent_witness :
  [("A", constant "A" (VInt 1)); ("B", constant "B" (VInt 2))]
  ≡ₚ [("B", constant "B" (VInt 2)); ("A", constant "A" (VInt 1))]
  ∧ (∀ k t, (k, t) ∈ [("A", constant "A" (VInt 1)); ("B", constant "B" (VInt 2))] →
            returns tt t (one_and_two k))
  ∧ ∃ res st1' st2',
      run_with_dependency_graph
        [("A", constant "A" (VInt 1)); ("B", constant "B" (VInt 2))] a_needs_b tt fresh
      = Some (Return res, st1')
      ∧ run_with_dependency_graph
          [("B", constant "B" (VInt 2)); ("A", constant "A" (VInt 1))] a_needs_b tt
          (State 5 [] [])
        = Some (Return res, st2')
      ∧ res !! "A" = Some (VInt 1)
      ∧ res !! "B" = Some (VInt 2).
Proof.
  split; [apply perm_swap|]. split; [apply one_and_two_returns|].
  assert (∃ res st1',
            run_with_dependency_graph
              [("A", constant "A" (VInt 1)); ("B", constant "B" (VInt 2))]
              a_needs_b tt fresh
            = Some (Return res, st1')) as (res & st1' & Hrun1).
  { eexists _, _. vm_compute. reflexivity. }
  destruct (run_with_dependency_graph_order_independent
              [("A", constant "A" (VInt 1)); ("B", constant "B" (VInt 2))]
              [("B", constant "B" (VInt 2)); ("A", constant "A" (VInt 1))]
              a_needs_b tt one_and_two fresh (State 5 [] []) res st1'
              (perm_swap _ _ _) one_and_two_returns Hrun1)
    as (Hres & st2' & Hrun2).
  exists res, st1', st2'. split_and!; [done|done| |].
  - rewrite Hres. reflexivity.
  - rewrite Hres. reflexivity.
Defined.

Lemma value_of_returns (t : task nat unit) :
  t ∈ [constant "a" (VInt 1); constant "b" (VInt 2)] → returns tt t (value_of t).
Proof.
  intros [->|[->|Hin]%elem_of_cons]%elem_of_cons.
  - done.
  - done.
  - by apply elem_of_nil in Hin.
Qed.

(** X17 on two units that return 1 and 2. *)
Lemma runners_agree_on_constant_units_witness :
  (∀ t, t ∈ [constant "a" (VInt 1); constant "b" (VInt 2)] →
        returns tt t (value_of t))
  ∧ (∀ st, (run_in_parallel [constant "a" (VInt 1); constant "b" (VInt 2)] tt st).1
           = Return [VInt 1; VInt 2])
  ∧ (∀ st, (run_with_progress [constant "a" (VInt 1); constant "b" (VInt 2)] tt st).1.1
           = Finished (Return [VInt 1; VInt 2])).
Proof.
  split; [apply value_of_returns|].
  destruct (runners_agree_on_constant_units
              [constant "a" (VInt 1); constant "b" (VInt 2)] value_of tt
              value_of_returns)
    as (Hparallel & _ & _ & Hprogress & _).
  split; [exact Hparallel|exact Hprogress].
Defined.
